(** * Lines-of-code card: aggregation pipeline and chart layout

    A shallow embedding of [src/fetchers/loc.js] (both revisions of
    [fetchLoc]: the sequential one and the one that fans out with
    [Promise.allSettled]) and of the [renderLocChart] variants
    (cumulative area chart, windowed cumulative chart, monthly bar chart).

    Conventions.
    - JavaScript numbers that hold counters and Unix timestamps are
      integers well below 2^53, where IEEE double arithmetic is exact; they
      are modelled as [Z].
    - Quotients that the renderer computes ([addRatio], [baselineY], the
      window cutoff [Date.now() / 1000 - ...]) are modelled as exact
      rationals [Q].
    - Network calls are answered by a [World]; every call may throw.  The
      code's [try]/[catch] blocks, [Promise.allSettled] and [throw] are
      modelled in a small exception-and-log monad [M], whose log records
      every network call and every timer, in program order.
    - The statistics payload is embedded twice: with the shape GitHub
      documents for it ([World], [Sequential], [Parallel]), and as it
      arrives, with properties that may be absent and elements that may be
      [null] ([Raw]).  [documented_payloads_run_alike] relates the two.
    - The renderers are embedded up to the scale they compute, without and
      with the engine's bound on the arguments of one call ([Engine]). *)

From Stdlib Require Import ZArith QArith Qround Qfield Lqa String Ascii List Lia.
From stdpp Require Import gmap strings list sorting.

Local Open Scope string_scope.
Local Open Scope list_scope.
Local Open Scope Z_scope.

(** ** Data model *)

(** [{ owner, name }] pairs collected by repository discovery. *)
Record RepoRef := mkRepo { owner : string; name : string }.

(** One element of a contributor's [weeks] array as the statistics endpoint
    returns it: [{ w, a, d, c }]. *)
Record Week := mkWeek { w : Z; a : Z; d : Z; c : Z }.

(** One element of the statistics payload, of the shape GitHub documents.
    [author] is [None] when the entry's [author] is null; otherwise it holds
    [author.login]. *)
Record Contributor := mkContributor {
  author : option string;
  weeks : list Week
}.

(** A slot of [weeklyMap]: [{ a, d, c }]. *)
Record Slot := mkSlot { slot_a : Z; slot_d : Z; slot_c : Z }.

(** [WeeklyData] of the JSDoc typedef. *)
Record WeeklyData := mkWeekly {
  week : Z;
  additions : Z;
  deletions : Z;
  commits : Z
}.

(** [LocData] of the JSDoc typedef. *)
Record LocData := mkLoc {
  weeklyData : list WeeklyData;
  totalAdditions : Z;
  totalDeletions : Z;
  totalCommits : Z;
  netLines : Z
}.

(** ** Exceptions, the event log and the monad *)

Inductive Error :=
| MissingParamError (params : list string)
| TypeError
| RangeError
| RequestError.

Inductive Outcome (A : Type) :=
| Returned (x : A)
| Threw (e : Error).
Arguments Returned {A} x.
Arguments Threw {A} e.

(** What the outside world can observe of a run. *)
Inductive Event :=
| CallUserRepos (login : string)
| CallOrgRepos (login : string)
| CallRepoStats (repo : RepoRef)
| Delay (ms : Z).

Definition M (A : Type) : Type := list Event -> Outcome A * list Event.

Definition ret {A} (x : A) : M A := fun log => (Returned x, log).

Definition throw {A} (e : Error) : M A := fun log => (Threw e, log).

Definition bind {A B} (m : M A) (k : A -> M B) : M B :=
  fun log =>
    match m log with
    | (Returned x, log') => k x log'
    | (Threw e, log') => (Threw e, log')
    end.

(** [try { m } catch (err) { h err }]: events emitted before the throw stay
    in the log. *)
Definition try_catch {A} (m : M A) (h : Error -> M A) : M A :=
  fun log =>
    match m log with
    | (Returned x, log') => (Returned x, log')
    | (Threw e, log') => h e log'
    end.

Definition emit (e : Event) : M unit := fun log => (Returned tt, log ++ [e]).

(** Lift the outcome of a settled promise. *)
Definition settle {A} (o : Outcome A) : M A := fun log => (o, log).

Notation "'do' x <- m ; k" := (bind m (fun x => k))
  (at level 10, x name, m at level 99, k at level 200).
Notation "m1 ;; m2" := (bind m1 (fun _ => m2))
  (at level 100, m2 at level 200, right associativity).

(** [for (const x of xs) { body }] with loop-carried state [s]. *)
Fixpoint for_of {A S} (xs : list A) (body : S -> A -> M S) (s : S) : M S :=
  match xs with
  | [] => ret s
  | x :: xs' => do s' <- body s x; for_of xs' body s'
  end.

(** ** The outside world *)

(** Body of the GraphQL answers, as far as the code reads them:
    [None] when [data.data] or its [user] / [organization] is missing. *)
Definition UserReposRes := option (list RepoRef).
Definition OrgReposRes := option (list string).

(** [res.data] of the statistics call: an array of contributors or anything
    else (GitHub answers 202 with an empty object). *)
Inductive StatsBody :=
| NotArray
| ContributorArray (cs : list Contributor).

Record StatsRes := mkStats { status : Z; data : StatsBody }.

(** The world answers each call the code awaits ([retryer(fetcher, ...)] or
    [axios(...)]); an answer may be a thrown error (network failure,
    timeout, rejected status).  The statistics of one repository may be
    fetched more than once, so the answer depends on how often they have
    been fetched before. *)
Record World := mkWorld {
  userRepos : string -> Outcome UserReposRes;
  orgRepos : string -> Outcome OrgReposRes;
  repoStats : RepoRef -> nat -> Outcome StatsRes
}.

Definition repo_eqb (r1 r2 : RepoRef) : bool :=
  String.eqb (owner r1) (owner r2) && String.eqb (name r1) (name r2).

Definition is_stats_call (r : RepoRef) (e : Event) : bool :=
  match e with
  | CallRepoStats r' => repo_eqb r r'
  | _ => false
  end.

(** Number of statistics calls already made for [r]. *)
Definition stats_calls (r : RepoRef) (log : list Event) : nat :=
  length (List.filter (is_stats_call r) log).

(** ** String helpers of the JavaScript runtime *)

(** [String.prototype.toLowerCase] on ASCII text (GitHub logins are ASCII). *)
Definition lower_ascii (ch : ascii) : ascii :=
  let n := nat_of_ascii ch in
  if (65 <=? n)%nat && (n <=? 90)%nat then ascii_of_nat (n + 32) else ch.

Fixpoint toLowerCase (s : string) : string :=
  match s with
  | EmptyString => EmptyString
  | String ch s' => String (lower_ascii ch) (toLowerCase s')
  end.

(** [s.split(",")]. *)
Fixpoint split_comma_aux (cur : string) (s : string) : list string :=
  match s with
  | EmptyString => [cur]
  | String ch s' =>
      if Ascii.eqb ch ","%char then cur :: split_comma_aux EmptyString s'
      else split_comma_aux (cur +:+ String ch EmptyString) s'
  end.

Definition split_comma (s : string) : list string :=
  split_comma_aux EmptyString s.

(** White space removed by [String.prototype.trim], ASCII part. *)
Definition is_space (ch : ascii) : bool :=
  let n := nat_of_ascii ch in
  (n =? 32)%nat || ((9 <=? n)%nat && (n <=? 13)%nat).

Fixpoint trim_start (s : string) : string :=
  match s with
  | EmptyString => EmptyString
  | String ch s' => if is_space ch then trim_start s' else s
  end.

Fixpoint rev_string (acc s : string) : string :=
  match s with
  | EmptyString => acc
  | String ch s' => rev_string (String ch acc) s'
  end.

Definition trim (s : string) : string :=
  rev_string EmptyString
    (trim_start (rev_string EmptyString (trim_start s))).

Definition non_empty (s : string) : bool :=
  match s with EmptyString => false | _ => true end.

(** ** Repository discovery (shared by both revisions) *)

(** [!username]: absent or empty. *)
Definition falsy (username : option string) : bool :=
  match username with
  | None => true
  | Some s => negb (non_empty s)
  end.

(** [include_orgs ? include_orgs.split(",").map(trim).filter(Boolean) : []] *)
Definition parse_orgs (include_orgs : option string) : list string :=
  match include_orgs with
  | None => []
  | Some s =>
      if non_empty s
      then List.filter non_empty (List.map trim (split_comma s))
      else []
  end.

Definition repo_key (r : RepoRef) : string := owner r +:+ "/" +:+ name r.

(** [repos.filter(r => { if (seen.has(key)) return false; seen.add(key);
    return true; })] *)
Fixpoint dedupe (seen : gset string) (repos : list RepoRef) : list RepoRef :=
  match repos with
  | [] => []
  | r :: rest =>
      if decide (repo_key r ∈ seen) then dedupe seen rest
      else r :: dedupe ({[repo_key r]} ∪ seen) rest
  end.

Definition fetchUserRepos (W : World) (username : string) : M (list RepoRef) :=
  try_catch
    (emit (CallUserRepos username);;
     do userRes <- settle (userRepos W username);
     match userRes with
     | Some nodes => ret nodes
     | None => ret []
     end)
    (fun _ => ret []).

Definition fetchOrgRepos (W : World) (repos : list RepoRef) (org : string)
  : M (list RepoRef) :=
  try_catch
    (emit (CallOrgRepos org);;
     do orgRes <- settle (orgRepos W org);
     match orgRes with
     | Some nodes => ret (repos ++ List.map (mkRepo org) nodes)
     | None => ret repos
     end)
    (fun _ => ret repos).

Definition discover (W : World) (username : string)
  (include_orgs : option string) : M (list RepoRef) :=
  do repos <- fetchUserRepos W username;
  do repos <- for_of (parse_orgs include_orgs) (fetchOrgRepos W) repos;
  ret (dedupe ∅ repos).

(** ** Weekly aggregation (shared by both revisions) *)

Definition all_zero (wk : Week) : bool :=
  (a wk =? 0) && (d wk =? 0) && (c wk =? 0).

Definition add_a (n : Z) (s : Slot) : Slot :=
  mkSlot (slot_a s + n) (slot_d s) (slot_c s).
Definition add_d (n : Z) (s : Slot) : Slot :=
  mkSlot (slot_a s) (slot_d s + n) (slot_c s).
Definition add_c (n : Z) (s : Slot) : Slot :=
  mkSlot (slot_a s) (slot_d s) (slot_c s + n).

(** Body of [for (const week of ...weeks)]. *)
Definition addWeek (weeklyMap : gmap Z Slot) (wk : Week) : gmap Z Slot :=
  if all_zero wk then weeklyMap
  else
    let m0 :=
      match weeklyMap !! w wk with
      | None => <[w wk := mkSlot 0 0 0]> weeklyMap
      | Some _ => weeklyMap
      end in
    let m1 := alter (add_a (a wk)) (w wk) m0 in
    let m2 := alter (add_d (d wk)) (w wk) m1 in
    alter (add_c (c wk)) (w wk) m2.

Definition addWeeks (weeklyMap : gmap Z Slot) (wks : list Week)
  : gmap Z Slot :=
  fold_left addWeek wks weeklyMap.

(** [Object.keys(weeklyMap).map(Number)]: the keys in the object's own
    enumeration order. *)
Definition Object_keys (weeklyMap : gmap Z Slot) : list Z :=
  (map_to_list weeklyMap).*1.

(** [.sort((a, b) => a - b)] *)
Definition sort_numeric (ks : list Z) : list Z := merge_sort Z.le ks.

(** State of the [weeks.map] callback: the three running totals and the
    records produced so far. *)
Record Totals := mkTotals {
  tAdd : Z; tDel : Z; tCom : Z; built : list WeeklyData
}.

(** One call of the [weeks.map] callback; [weeklyMap[w]] being undefined
    would make [d.a] throw. *)
Definition build_step (weeklyMap : gmap Z Slot) (t : Totals) (wk : Z)
  : Outcome Totals :=
  match weeklyMap !! wk with
  | None => Threw TypeError
  | Some s =>
      Returned (mkTotals (tAdd t + slot_a s) (tDel t + slot_d s)
                  (tCom t + slot_c s)
                  (built t ++ [mkWeekly wk (slot_a s) (slot_d s) (slot_c s)]))
  end.

Fixpoint build_weeks (weeklyMap : gmap Z Slot) (ws : list Z) (t : Totals)
  : Outcome Totals :=
  match ws with
  | [] => Returned t
  | wk :: ws' =>
      match build_step weeklyMap t wk with
      | Returned t' => build_weeks weeklyMap ws' t'
      | Threw e => Threw e
      end
  end.

(** Step 3 of [fetchLoc]: sorted weekly array, totals and [netLines]. *)
Definition buildLocData (weeklyMap : gmap Z Slot) : Outcome LocData :=
  let weeks := sort_numeric (Object_keys weeklyMap) in
  match build_weeks weeklyMap weeks (mkTotals 0 0 0 []) with
  | Returned t =>
      Returned (mkLoc (built t) (tAdd t) (tDel t) (tCom t) (tAdd t - tDel t))
  | Threw e => Threw e
  end.

(** ** Fetching one repository's statistics *)

(** One [await] of the statistics fetch for
    [/repos/{owner}/{repo}/stats/contributors]: one [axios] request in the
    concurrent revision, one call of [retryer(repoStatsFetcher, ...)] in the
    sequential one.  The world answers with what the [await] yields. *)
Definition call_stats (W : World) (repo : RepoRef) : M StatsRes :=
  fun log =>
    (repoStats W repo (stats_calls repo log), log ++ [CallRepoStats repo]).

(** [await new Promise((r) => setTimeout(r, ms))] *)
Definition delay (ms : Z) : M unit := emit (Delay ms).

(** [c.author && c.author.login.toLowerCase() === username.toLowerCase()] *)
Definition is_user (username : string) (cb : Contributor) : bool :=
  match author cb with
  | Some login => String.eqb (toLowerCase login) (toLowerCase username)
  | None => false
  end.

(** What one repository contributes to the merge: the settled result of its
    fetch.  A rejected promise and a [null] value contribute nothing. *)
Definition merge_result (weeklyMap : gmap Z Slot)
  (result : Outcome (option Contributor)) : gmap Z Slot :=
  match result with
  | Returned (Some value) => addWeeks weeklyMap (weeks value)
  | Returned None => weeklyMap
  | Threw _ => weeklyMap
  end.

(** The Weekly Aggregator: merge every per-repository result, then build
    the sorted series and its totals. *)
Definition aggregate (results : list (Outcome (option Contributor)))
  : Outcome LocData :=
  buildLocData (fold_left merge_result results ∅).

(** ** [fetchLoc], sequential revision ([src/fetchers/loc.js]) *)

Module Sequential.

(** Body of [for (const repo of repos) { try { ... } catch (err) { ... } }]. *)
Definition repo_body (W : World) (username : string)
  (weeklyMap : gmap Z Slot) (repo : RepoRef) : M (gmap Z Slot) :=
  try_catch
    (do res <- call_stats W repo;
     do res <- (if status res =? 202
                then delay 2000;; call_stats W repo
                else ret res);
     match data res with
     | NotArray => ret weeklyMap
     | ContributorArray cs =>
         match List.find (is_user username) cs with
         | None => ret weeklyMap
         | Some contributor => ret (addWeeks weeklyMap (weeks contributor))
         end
     end)
    (fun _ => ret weeklyMap).

Definition fetchLoc (W : World) (username : option string)
  (include_orgs : option string) : M LocData :=
  if falsy username then throw (MissingParamError ["username"])
  else
    let username := default "" username in
    do repos <- discover W username include_orgs;
    do weeklyMap <- for_of repos (repo_body W username) ∅;
    settle (buildLocData weeklyMap).

End Sequential.

(** ** [fetchLoc], concurrent revision (fan-out with [Promise.allSettled]) *)

Module Parallel.

Definition fetchOneRepo (W : World) (username : string) (repo : RepoRef)
  : M (option Contributor) :=
  do res <- call_stats W repo;
  do res <- (if status res =? 202
             then delay 1500;; call_stats W repo
             else ret res);
  match data res with
  | NotArray => ret None
  | ContributorArray cs => ret (List.find (is_user username) cs)
  end.

(** [Promise.allSettled]: every task runs to its end and its outcome is
    recorded; nothing is rethrown.  The tasks share no state and each asks
    the world about its own repository only, so the answers do not depend on
    how the tasks interleave; the log lists each task's events together. *)
Fixpoint settle_all {A} (tasks : list (M A)) (log : list Event)
  : list (Outcome A) * list Event :=
  match tasks with
  | [] => ([], log)
  | t :: ts =>
      let '(o, log1) := t log in
      let '(os, log2) := settle_all ts log1 in
      (o :: os, log2)
  end.

Definition allSettled {A} (tasks : list (M A)) : M (list (Outcome A)) :=
  fun log => let '(os, log') := settle_all tasks log in (Returned os, log').

Definition fetchLoc (W : World) (username : option string)
  (include_orgs : option string) : M LocData :=
  if falsy username then throw (MissingParamError ["username"])
  else
    let username := default "" username in
    do repos <- discover W username include_orgs;
    do results <- allSettled (List.map (fetchOneRepo W username) repos);
    settle (aggregate results).

End Parallel.

(** ** Number and text formatting of the renderers *)

Definition dq : string := String (ascii_of_nat 34) EmptyString.
Definition nl : string := String (ascii_of_nat 10) EmptyString.

Definition digit_char (n : Z) : ascii := ascii_of_nat (48 + Z.to_nat n).

(** Decimal digits of a non-negative integer, least significant first into
    the accumulator. *)
Fixpoint digits_aux (fuel : nat) (n : Z) (acc : string) : string :=
  match fuel with
  | O => acc
  | S fuel' =>
      let acc' := String (digit_char (n mod 10)) acc in
      if n / 10 =? 0 then acc' else digits_aux fuel' (n / 10) acc'
  end.

Definition digits (n : Z) : string :=
  digits_aux (S (Z.to_nat (Z.log2 n))) n EmptyString.

(** [Number.prototype.toString] on an integer. *)
Definition toString (n : Z) : string :=
  if n <? 0 then "-" +:+ digits (- n) else digits n.

(** [Number.prototype.toFixed(1)]: sign, then the magnitude rounded to the
    nearest tenth (a tie goes up), printed with one fractional digit.  The
    rounding is done on the exact quotient; the double the runtime rounds
    can lie just below an exact tie such as 1.15, a case no property below
    depends on. *)
Definition toFixed1 (x : Q) : string :=
  let nonneg := Qle_bool 0 x in
  let mag := if nonneg then x else Qopp x in
  let n := Qfloor (mag * 10 + (1 # 2)) in
  (if nonneg then "" else "-")
  +:+ digits (n / 10) +:+ "." +:+ digits (n mod 10).

(** [Math.max(...xs, x0)] and [Math.min(...xs, x0)] *)
Definition Math_max (xs : list Z) (x0 : Z) : Z := fold_right Z.max x0 xs.
Definition Math_min (xs : list Z) (x0 : Z) : Z := fold_right Z.min x0 xs.

(** [x || 1] on a number. *)
Definition or_one (x : Z) : Z := if x =? 0 then 1 else x.

(** [s.replace(/^#/, "")] *)
Definition strip_hash (s : string) : string :=
  match s with
  | String ch s' => if Ascii.eqb ch "#"%char then s' else s
  | EmptyString => s
  end.

(** ** Canvas geometry shared by every renderer *)

Definition width : Z := 850.
Definition height : Z := 300.
Record Padding := mkPadding { top : Z; right : Z; bottom : Z; left : Z }.
Definition padding : Padding := mkPadding 50 30 50 70.
Definition chartW : Z := width - left padding - right padding.
Definition chartH : Z := height - top padding - bottom padding.

(** The early-return template literal of every renderer. *)
Definition noDataSvg (bg_color text_color : string) : string :=
  "<svg width=" +:+ dq +:+ toString width +:+ dq +:+ " height=" +:+ dq
  +:+ toString height +:+ dq +:+ " xmlns=" +:+ dq
  +:+ "http://www.w3.org/2000/svg" +:+ dq +:+ ">" +:+ nl
  +:+ "      <rect width=" +:+ dq +:+ "100%" +:+ dq +:+ " height=" +:+ dq
  +:+ "100%" +:+ dq +:+ " fill=" +:+ dq +:+ "#" +:+ bg_color +:+ dq
  +:+ " />" +:+ nl
  +:+ "      <text x=" +:+ dq +:+ "50%" +:+ dq +:+ " y=" +:+ dq +:+ "50%"
  +:+ dq +:+ " fill=" +:+ dq +:+ "#" +:+ text_color +:+ dq
  +:+ " text-anchor=" +:+ dq +:+ "middle" +:+ dq +:+ " font-family=" +:+ dq
  +:+ "'Segoe UI', Ubuntu, Sans-Serif" +:+ dq +:+ " font-size=" +:+ dq
  +:+ "14" +:+ dq +:+ ">No data available</text>" +:+ nl
  +:+ "    </svg>".

(** A point of the cumulative series:
    [{ week, value, additions, deletions }]. *)
Record Point := mkPoint {
  p_week : Z;
  value : Z;
  p_additions : Z;
  p_deletions : Z
}.

(** [let cumulative = 0; weeklyData.map((w) => { cumulative += w.additions
    - w.deletions; return {...}; })] *)
Fixpoint cumulate (cumulative : Z) (ws : list WeeklyData) : list Point :=
  match ws with
  | [] => []
  | wk :: ws' =>
      let cumulative' := cumulative + (additions wk - deletions wk) in
      mkPoint (week wk) cumulative' (additions wk) (deletions wk)
        :: cumulate cumulative' ws'
  end.

(** The scale of a cumulative chart, as computed before the template is
    filled in. *)
Record Scale := mkScale {
  points : list Point;
  minTime : Z;
  maxTime : Z;
  timeRange : Z;
  maxVal : Z;
  minVal : Z;
  valRange : Z
}.

(** What a cumulative renderer returns: the fixed no-data image, or the
    chart image, represented by the scale its template interpolates (the
    markup around it and the floating-point pixel formatting are not
    modelled). *)
Inductive Rendered :=
| NoDataImage (svg : string)
| ChartImage (sc : Scale).

(** [points[i].week]; reading [.week] of [undefined] throws. *)
Definition week_at (pts : list Point) (i : nat) : Outcome Z :=
  match nth_error pts i with
  | Some p => Returned (p_week p)
  | None => Threw TypeError
  end.

(** From [const minTime = points[0].week] to [const valRange = ...]. *)
Definition computeScale (pts : list Point) : Outcome Scale :=
  match week_at pts 0 with
  | Threw e => Threw e
  | Returned minT =>
      match week_at pts (length pts - 1) with
      | Threw e => Threw e
      | Returned maxT =>
          let tr := or_one (maxT - minT) in
          let maxV := Math_max (List.map value pts) 0 in
          let minV := Math_min (List.map value pts) 0 in
          let vr := or_one (maxV - minV) in
          Returned (mkScale pts minT maxT tr maxV minV vr)
      end
  end.

(** [toY] of the cumulative renderers. *)
Definition toY (sc : Scale) (v : Z) : Q :=
  (inject_Z (top padding) + inject_Z chartH
   - (inject_Z (v - minVal sc) / inject_Z (valRange sc)) * inject_Z chartH)%Q.

(** [formatNum] of the cumulative renderers. *)
Definition formatNum (n : Z) : string :=
  if n >=? 1000000 then toFixed1 (inject_Z n / 1000000) +:+ "M"
  else if n >=? 1000 then toFixed1 (inject_Z n / 1000) +:+ "K"
  else toString n.

(** ** Cumulative chart without a window (sqrt time scale) *)

Module Cumulative.

Record Options := mkOptions {
  bg_color : option string;
  line_color : option string;
  area_color : option string;
  point_color : option string;
  title_color : option string;
  text_color : option string;
  hide_border : option bool;
  custom_title : option string
}.

Definition renderLocChart (data : LocData) (options : Options)
  : Outcome Rendered :=
  let bg := default "0D1117" (bg_color options) in
  let text := default "E6EDF3" (text_color options) in
  if (length (weeklyData data) =? 0)%nat
  then Returned (NoDataImage (noDataSvg bg text))
  else
    let points := cumulate 0 (weeklyData data) in
    match computeScale points with
    | Returned sc => Returned (ChartImage sc)
    | Threw e => Threw e
    end.

End Cumulative.

(** ** Cumulative chart with a months window

    The two themed cumulative renderers (linear time scale with a spline,
    and sqrt time scale with a polyline) share this code verbatim up to the
    definition of [toX]. *)

Module Windowed.

(** Result of [getCardColors]; [bgColor] may be a gradient (an array). *)
Record CardColors := mkColors {
  titleColor : string;
  textColor : string;
  bgColor : string + list string;
  borderColor : string
}.

Record Options := mkOptions {
  months : option Z;
  hide_border : bool;
  custom_title : option string
}.

Definition bg_of (colors : CardColors) : string :=
  match bgColor colors with
  | inl s => strip_hash s
  | inr _ => "fffefe"
  end.

(** [months && months > 0] *)
Definition months_set (months : option Z) : option Z :=
  match months with
  | Some m => if negb (m =? 0) && (m >? 0) then Some m else None
  | None => None
  end.

(** [Date.now() / 1000 - months * 30 * 86400]; [now] is [Date.now()], in
    milliseconds. *)
Definition cutoff (now m : Z) : Q :=
  (inject_Z now / 1000 - inject_Z m * 30 * 86400)%Q.

(** [(p) => p.week >= cutoff] *)
Definition in_window (now m : Z) (p : Point) : bool :=
  Qle_bool (cutoff now m) (inject_Z (p_week p)).

(** [let points = allPoints; if (months && months > 0) { ... }] *)
Definition visible (now : Z) (months : option Z) (allPoints : list Point)
  : list Point :=
  match months_set months with
  | Some m =>
      let points := List.filter (in_window now m) allPoints in
      if (length points =? 0)%nat then allPoints else points
  | None => allPoints
  end.

Definition renderLocChart (colors : CardColors) (now : Z) (data : LocData)
  (options : Options) : Outcome Rendered :=
  let bg := bg_of colors in
  let text := strip_hash (textColor colors) in
  if (length (weeklyData data) =? 0)%nat
  then Returned (NoDataImage (noDataSvg bg text))
  else
    let allPoints := cumulate 0 (weeklyData data) in
    let points := visible now (months options) allPoints in
    match computeScale points with
    | Returned sc => Returned (ChartImage sc)
    | Threw e => Threw e
    end.

(** Linear time scale of the spline variant:
    [padding.left + ((t - minTime) / timeRange) * chartW]. *)
Definition toX (sc : Scale) (t : Z) : Q :=
  (inject_Z (left padding)
   + (inject_Z (t - minTime sc) / inject_Z (timeRange sc)) * inject_Z chartW)%Q.

(** [points.map((p) => ({ x: toX(p.week), y: toY(p.value) }))] *)
Definition pixelPts (sc : Scale) : list (Q * Q) :=
  List.map (fun p => (toX sc (p_week p), toY sc (value p))) (points sc).

End Windowed.

(** ** Monthly bar chart *)

Module Monthly.

Import Windowed.

(** [formatNum] of the bar chart: compacts by absolute value. *)
Definition formatNum (n : Z) : string :=
  let abs := Z.abs n in
  if abs >=? 1000000 then toFixed1 (inject_Z n / 1000000) +:+ "M"
  else if abs >=? 1000 then toFixed1 (inject_Z n / 1000) +:+ "K"
  else toString n.

(** A value of [monthlyMap]: [{ year, month, additions, deletions }]. *)
Record MonthEntry := mkMonth {
  year : Z;
  month : Z;
  m_additions : Z;
  m_deletions : Z
}.

(** A JavaScript [Map] with string keys: entries in insertion order. *)
Fixpoint map_get (key : string) (mp : list (string * MonthEntry))
  : option MonthEntry :=
  match mp with
  | [] => None
  | (k, v) :: rest => if String.eqb k key then Some v else map_get key rest
  end.

Fixpoint map_set (key : string) (v : MonthEntry)
  (mp : list (string * MonthEntry)) : list (string * MonthEntry) :=
  match mp with
  | [] => [(key, v)]
  | (k, v0) :: rest =>
      if String.eqb k key then (k, v) :: rest
      else (k, v0) :: map_set key v rest
  end.

(** [a.year - b.year || a.month - b.month] is not positive. *)
Definition month_leb (x y : MonthEntry) : bool :=
  if year x - year y =? 0 then month x - month y <=? 0
  else year x - year y <=? 0.

Definition month_le (x y : MonthEntry) : Prop := month_leb x y = true.

#[local] Instance month_le_dec (x y : MonthEntry) : Decision (month_le x y) :=
  bool_eq_dec (month_leb x y) true.

(** [xs.slice(-n)] for a positive count [n]. *)
Definition slice_last {A} (n : Z) (xs : list A) : list A :=
  skipn (length xs - Z.to_nat n) xs.

(** The vertical layout of the bars. *)
Record BarScale := mkBarScale {
  monthlyData : list MonthEntry;
  maxAdd : Z;
  maxDel : Z;
  maxValue : Z;
  addRatio : Q;
  baselineY : Q
}.

Inductive RenderedBars :=
| NoDataBars (svg : string)
| BarsImage (sc : BarScale).

(** From [const maxAdd = ...] to [const baselineY = ...]. *)
Definition scaleBars (md : list MonthEntry) : BarScale :=
  let maxAdd := Math_max (List.map m_additions md) 1 in
  let maxDel := Math_max (List.map m_deletions md) 1 in
  let maxVal := Z.max maxAdd maxDel in
  let addRatio := (inject_Z maxAdd / (inject_Z maxAdd + inject_Z maxDel))%Q in
  let baselineY := (inject_Z (top padding) + inject_Z chartH * addRatio)%Q in
  mkBarScale md maxAdd maxDel maxVal addRatio baselineY.

Definition toAddY (sc : BarScale) (v : Z) : Q :=
  (baselineY sc
   - (inject_Z v / inject_Z (maxValue sc)) * inject_Z chartH * addRatio sc)%Q.

Definition toDelY (sc : BarScale) (v : Z) : Q :=
  (baselineY sc
   + (inject_Z v / inject_Z (maxValue sc)) * inject_Z chartH
     * (1 - addRatio sc))%Q.

Section Calendar.

(** [new Date(ts * 1000)] read through [getFullYear()] and [getMonth()]:
    the civil year and the zero-based month of a Unix time in the host's
    time zone. *)
Variable calendar : Z -> Z * Z.

(** Body of [for (const w of weeklyData)]. *)
Definition bucket (monthlyMap : list (string * MonthEntry)) (wk : WeeklyData)
  : list (string * MonthEntry) :=
  let '(y, m) := calendar (week wk) in
  let key := toString y +:+ "-" +:+ toString m in
  let entry := default (mkMonth y m 0 0) (map_get key monthlyMap) in
  let entry :=
    mkMonth (year entry) (month entry)
      (m_additions entry + additions wk) (m_deletions entry + deletions wk) in
  map_set key entry monthlyMap.

(** [[...monthlyMap.values()].sort(...)], then the optional
    [slice(-months)]. *)
Definition visibleMonths (months : option Z) (ws : list WeeklyData)
  : list MonthEntry :=
  let monthlyMap := fold_left bucket ws [] in
  let sorted := merge_sort month_le (List.map snd monthlyMap) in
  match months_set months with
  | Some m => slice_last m sorted
  | None => sorted
  end.

Definition renderLocChart (colors : CardColors) (data : LocData)
  (options : Options) : Outcome RenderedBars :=
  let bg := bg_of colors in
  let text := strip_hash (textColor colors) in
  if (length (weeklyData data) =? 0)%nat
  then Returned (NoDataBars (noDataSvg bg text))
  else
    let md := visibleMonths (months options) (weeklyData data) in
    if (length md =? 0)%nat
    then Returned (NoDataBars (noDataSvg bg text))
    else Returned (BarsImage (scaleBars md)).

End Calendar.

(** The calendar of a host running in UTC (proleptic Gregorian). *)
Definition utc_calendar (ts : Z) : Z * Z :=
  let z := ts / 86400 + 719468 in
  let era := z / 146097 in
  let doe := z - era * 146097 in
  let yoe := (doe - doe / 1460 + doe / 36524 - doe / 146096) / 365 in
  let doy := doe - (365 * yoe + yoe / 4 - yoe / 100) in
  let mp := (5 * doy + 2) / 153 in
  let m := if mp <? 10 then mp + 3 else mp - 9 in
  (yoe + era * 400 + (if m <=? 2 then 1 else 0), m - 1).

(** The baseline as the specification words it: the true peaks of the
    visible months, with no floor. *)
Definition peak (xs : list Z) : Z :=
  match xs with
  | [] => 0
  | x :: rest => fold_right Z.max x rest
  end.

Definition spec_baselineY (md : list MonthEntry) : Q :=
  let maxAdditions := peak (List.map m_additions md) in
  let maxDeletions := peak (List.map m_deletions md) in
  (inject_Z (top padding)
   + inject_Z chartH
     * (inject_Z maxAdditions
        / (inject_Z maxAdditions + inject_Z maxDeletions)))%Q.

End Monthly.

(** ** The API handler ([api/loc-chart.js]) *)

Inductive Reply :=
| ErrorCard (message : string)
| CaughtErrorCard (err : Error)
| ChartCard (image : Rendered).

(** The handler answers a missing [username] itself; otherwise it runs
    [fetchLoc] and the renderer inside one [try] block.  Cache headers and
    colour options are left out. *)
Definition handler (W : World) (username include_orgs : option string)
  (options : Cumulative.Options) : M Reply :=
  if falsy username
  then ret (ErrorCard "Missing required parameter: username")
  else
    try_catch
      (do locData <- Sequential.fetchLoc W username include_orgs;
       do image <- settle (Cumulative.renderLocChart locData options);
       ret (ChartCard image))
      (fun err => ret (CaughtErrorCard err)).

(** ** Theme brightness and chart presets *)

Module Theme.

Definition hex_value (ch : ascii) : option Z :=
  let n := nat_of_ascii ch in
  if (48 <=? n)%nat && (n <=? 57)%nat then Some (Z.of_nat n - 48)
  else if (97 <=? n)%nat && (n <=? 102)%nat then Some (Z.of_nat n - 87)
  else if (65 <=? n)%nat && (n <=? 70)%nat then Some (Z.of_nat n - 55)
  else None.

(** The longest prefix of hexadecimal digits, read left to right; [acc] is
    [None] as long as no digit has been read. *)
Fixpoint hex_prefix (acc : option Z) (s : string) : option Z :=
  match s with
  | EmptyString => acc
  | String ch s' =>
      match hex_value ch with
      | Some v => hex_prefix (Some (16 * default 0 acc + v)) s'
      | None => acc
      end
  end.

Definition strip_0x (s : string) : string :=
  match s with
  | String z (String x s') =>
      if Ascii.eqb z "0"%char
         && (Ascii.eqb x "x"%char || Ascii.eqb x "X"%char)
      then s' else s
  | _ => s
  end.

(** [parseInt(s, 16)]: leading white space, an optional sign, an optional
    [0x], then the digits; [None] stands for [NaN]. *)
Definition parseInt16 (s : string) : option Z :=
  let s := trim_start s in
  let '(negative, s) :=
    match s with
    | String ch s' =>
        if Ascii.eqb ch "-"%char then (true, s')
        else if Ascii.eqb ch "+"%char then (false, s')
        else (false, s)
    | EmptyString => (false, s)
    end in
  match hex_prefix None (strip_0x s) with
  | Some v => Some (if negative then - v else v)
  | None => None
  end.

(** [isDarkBg]; a comparison with [NaN] is false. *)
Definition isDarkBg (hex : string) : bool :=
  let h := strip_hash hex in
  match parseInt16 (substring 0 2 h), parseInt16 (substring 2 2 h),
        parseInt16 (substring 4 2 h) with
  | Some r, Some g, Some b =>
      negb (Qle_bool 128 (inject_Z (r * 299 + g * 587 + b * 114) / 1000))
  | _, _, _ => false
  end.

(** [CHART_PRESETS] of the cumulative renderers. *)
Record Preset := mkPreset {
  line_color : string;
  area_color : string;
  point_color : string;
  deletion_color : string
}.

Definition light : Preset := mkPreset "2563EB" "10B981" "F59E0B" "DC2626".
Definition dark : Preset := mkPreset "06B6D4" "22C55E" "FEBC2E" "F87171".

(** [const bgHex = typeof bgColor === "string" ? ... : "fffefe"; const
    preset = isDarkBg(bgHex) ? CHART_PRESETS.dark : CHART_PRESETS.light] *)
Definition preset_of (colors : Windowed.CardColors) : Preset :=
  if isDarkBg (Windowed.bg_of colors) then dark else light.

(** [user || fallback] on an optional string. *)
Definition or_else (user : option string) (fallback : string) : string :=
  match user with
  | Some s => if non_empty s then s else fallback
  | None => fallback
  end.

End Theme.

(** ** The smoothed line ([catmullRomPath]) *)

Module Spline.

Record Pt := mkPt { px : Q; py : Q }.

(** The path, command by command. *)
Inductive Cmd :=
| MoveTo (p : Pt)
| LineTo (p : Pt)
| CurveTo (c1 c2 p : Pt).

(** [pts[i]], whose [.x] is read at once. *)
Definition pt_at (pts : list Pt) (i : nat) : Outcome Pt :=
  match nth_error pts i with
  | Some p => Returned p
  | None => Threw TypeError
  end.

(** Body of the [for] loop at index [i]. *)
Definition segment (tension : Q) (pts : list Pt) (i : nat) : Outcome Cmd :=
  match pt_at pts (Z.to_nat (Z.max (Z.of_nat i - 1) 0)), pt_at pts i,
        pt_at pts (i + 1),
        pt_at pts (Nat.min (i + 2) (length pts - 1)) with
  | Returned p0, Returned p1, Returned p2, Returned p3 =>
      Returned
        (CurveTo
           (mkPt (px p1 + (px p2 - px p0) * tension)
              (py p1 + (py p2 - py p0) * tension))
           (mkPt (px p2 - (px p3 - px p1) * tension)
              (py p2 - (py p3 - py p1) * tension))
           p2)
  | _, _, _, _ => Threw TypeError
  end.

Fixpoint segments (tension : Q) (pts : list Pt) (indices : list nat)
  : Outcome (list Cmd) :=
  match indices with
  | [] => Returned []
  | i :: rest =>
      match segment tension pts i with
      | Returned cmd =>
          match segments tension pts rest with
          | Returned cmds => Returned (cmd :: cmds)
          | Threw e => Threw e
          end
      | Threw e => Threw e
      end
  end.

Definition catmullRomCmds (pts : list Pt) (tension : Q)
  : Outcome (list Cmd) :=
  if (length pts <? 2)%nat then Returned []
  else if (length pts =? 2)%nat then
    match pt_at pts 0, pt_at pts 1 with
    | Returned p0, Returned p1 => Returned [MoveTo p0; LineTo p1]
    | _, _ => Threw TypeError
    end
  else
    match pt_at pts 0 with
    | Returned p0 =>
        match segments tension pts (seq 0 (length pts - 1)) with
        | Returned cmds => Returned (MoveTo p0 :: cmds)
        | Threw e => Threw e
        end
    | Threw e => Threw e
    end.

Definition coords (p : Pt) : string :=
  toFixed1 (px p) +:+ "," +:+ toFixed1 (py p).

Definition cmd_text (cmd : Cmd) : string :=
  match cmd with
  | MoveTo p => "M" +:+ coords p
  | LineTo p => "L" +:+ coords p
  | CurveTo c1 c2 p =>
      "C" +:+ coords c1 +:+ " " +:+ coords c2 +:+ " " +:+ coords p
  end.

Fixpoint join_space (parts : list string) : string :=
  match parts with
  | [] => ""
  | [part] => part
  | part :: rest => part +:+ " " +:+ join_space rest
  end.

(** [catmullRomPath(pts, tension = 0.3)] *)
Definition catmullRomPath (pts : list Pt) (tension : Q) : Outcome string :=
  match catmullRomCmds pts tension with
  | Returned cmds => Returned (join_space (List.map cmd_text cmds))
  | Threw e => Threw e
  end.

(** The point each command draws to. *)
Definition target (cmd : Cmd) : Pt :=
  match cmd with
  | MoveTo p => p
  | LineTo p => p
  | CurveTo _ _ p => p
  end.

End Spline.

(** ** Axis labels and markers of the cumulative renderers *)

(** [toY] at a value that need not be an integer (a tick value). *)
Definition toY_at (sc : Scale) (v : Q) : Q :=
  (inject_Z (top padding) + inject_Z chartH
   - ((v - inject_Z (minVal sc)) / inject_Z (valRange sc)) * inject_Z chartH)%Q.

(** [Array.from({ length: yTicks + 1 }, (_, i) => { const val = minVal +
    (valRange / yTicks) * i; return { val, y: toY(val) }; })] *)
Definition yLabels (yTicks : nat) (sc : Scale) : list (Q * Q) :=
  List.map
    (fun i =>
       let val :=
         (inject_Z (minVal sc)
          + (inject_Z (valRange sc) / inject_Z (Z.of_nat yTicks))
            * inject_Z (Z.of_nat i))%Q in
       (val, toY_at sc val))
    (seq 0 (yTicks + 1)).

Definition MIN_LABEL_PX : Q := 85.

Section XLabels.

(** The time scale of the renderer at hand (linear or square root). *)
Variable toX : Z -> Q.

(** [lastX - x >= MIN_LABEL_PX && x >= padding.left]; [lastX] is [None]
    while it is still [Infinity]. *)
Definition label_fits (lastX : option Q) (x : Q) : bool :=
  match lastX with
  | None => true
  | Some last => Qle_bool MIN_LABEL_PX (last - x)
  end
  && Qle_bool (inject_Z (left padding)) x.

(** The greedy loop, from the last candidate down to the first;
    [picked.unshift] puts each kept label in front. *)
Fixpoint pick_labels (from_right : list Z) (lastX : option Q)
  (picked : list (Z * Q)) : list (Z * Q) :=
  match from_right with
  | [] => picked
  | t :: rest =>
      let x := toX t in
      if label_fits lastX x
      then pick_labels rest (Some x) ((t, x) :: picked)
      else pick_labels rest lastX picked
  end.

Definition pickLabels (candidates : list Z) : list (Z * Q) :=
  pick_labels (rev candidates) None [].

End XLabels.

(** [Math.max(1, Math.floor(points.length / count))] with [count] 12 or 8 *)
Definition dotStep (count : nat) (n : nat) : nat := Nat.max 1 (n / count).

(** [xs.filter((_, i) => keep(i))], the index starting at [i0]. *)
Fixpoint filter_index {A} (keep : nat -> bool) (i0 : nat) (xs : list A)
  : list A :=
  match xs with
  | [] => []
  | x :: rest =>
      if keep i0 then x :: filter_index keep (S i0) rest
      else filter_index keep (S i0) rest
  end.

(** [points.filter((_, i) => i % dotStep === 0 || i === points.length - 1)] *)
Definition dotPoints (count : nat) (pts : list Point) : list Point :=
  let n := length pts in
  filter_index
    (fun i => (i mod dotStep count n =? 0)%nat || (i =? n - 1)%nat) 0 pts.

(** ** Bars of the monthly chart *)

Module Bars.

Import Monthly.

(** [barGroupW], [barW] and [gap] for [n] visible months. *)
Definition barGroupW (n : nat) : Q := (inject_Z chartW / inject_Z (Z.of_nat n))%Q.

Definition barW (n : nat) : Q :=
  let wide := (barGroupW n * (6 # 10))%Q in
  if Qle_bool wide 40 then wide else 40%Q.

Definition gap (n : nat) : Q := ((barGroupW n - barW n) / 2)%Q.

(** Left edge of the [i]-th bar pair. *)
Definition bar_x (n i : nat) : Q :=
  (inject_Z (left padding) + inject_Z (Z.of_nat i) * barGroupW n + gap n)%Q.

Definition addH (sc : BarScale) (m : MonthEntry) : Q :=
  ((inject_Z (m_additions m) / inject_Z (maxValue sc)) * inject_Z chartH
   * addRatio sc)%Q.

Definition delH (sc : BarScale) (m : MonthEntry) : Q :=
  ((inject_Z (m_deletions m) / inject_Z (maxValue sc)) * inject_Z chartH
   * (1 - addRatio sc))%Q.

(** A drawn rectangle: left edge, top edge, width, height. *)
Record Rect := mkRect { rx : Q; ry : Q; rw : Q; rh : Q }.

(** The rectangles of month [i]: the addition bar rises from the baseline
    when the month has additions, the deletion bar hangs from it when the
    month has deletions. *)
Definition bar_rects (sc : BarScale) (n i : nat) (m : MonthEntry)
  : list Rect :=
  (if m_additions m >? 0
   then [mkRect (bar_x n i) (baselineY sc - addH sc m) (barW n) (addH sc m)]
   else [])
  ++ (if m_deletions m >? 0
      then [mkRect (bar_x n i) (baselineY sc) (barW n) (delH sc m)]
      else []).

Fixpoint bars_from (sc : BarScale) (n i : nat) (md : list MonthEntry)
  : list Rect :=
  match md with
  | [] => []
  | m :: rest => bar_rects sc n i m ++ bars_from sc n (S i) rest
  end.

(** [monthlyData.map((m, i) => ...)] of the bar section. *)
Definition bars (sc : BarScale) : list Rect :=
  bars_from sc (length (monthlyData sc)) 0 (monthlyData sc).

End Bars.

(** * Statistics payloads as they arrive

    The records of the data model give the statistics payload the shape
    GitHub documents for it.  [fetchLoc] itself checks no more of that shape
    than [Array.isArray(res.data)] and [c.author &&].  This part embeds the
    same statements of both revisions over payloads in which a property the
    code reads may be absent and an array element may be [null]; a sum over
    an absent number is [NaN]. *)

Module Raw.

(** [x + y] and [x - y] on numbers that may be [NaN]; an absent ([undefined])
    operand converts to [NaN].  [None] stands for both. *)
Definition js_add (x y : option Z) : option Z :=
  match x, y with
  | Some p, Some q => Some (p + q)
  | _, _ => None
  end.

Definition js_sub (x y : option Z) : option Z :=
  match x, y with
  | Some p, Some q => Some (p - q)
  | _, _ => None
  end.

(** An element of [weeks] that is an object: each of [w], [a], [d], [c] is a
    number or absent. *)
Record Week := mkWeek {
  w : option Z;
  a : option Z;
  d : option Z;
  c : option Z
}.

(** [c.author]: absent or [null], an object without [login], or an object
    with a [login]. *)
Inductive Author :=
| NoAuthor
| AuthorWithoutLogin
| AuthorLogin (login : string).

(** An element of the payload that is an object.  [weeks] is [None] when the
    property is absent; an element of the array is [None] when it is
    [null]. *)
Record Contributor := mkContributor {
  author : Author;
  weeks : option (list (option Week))
}.

(** [res.data]: anything but an array, or an array whose elements are
    objects or [null]. *)
Inductive StatsBody :=
| NotArray
| ContributorArray (cs : list (option Contributor)).

Record StatsRes := mkStats { status : Z; data : StatsBody }.

Record Network := mkNetwork {
  user_repos : string -> Outcome UserReposRes;
  org_repos : string -> Outcome OrgReposRes;
  repo_stats : RepoRef -> nat -> Outcome StatsRes
}.

(** Repository discovery reads the two listings only; it runs as embedded
    above. *)
Definition listings (N : Network) : World :=
  mkWorld (user_repos N) (org_repos N) (fun _ _ => Threw RequestError).

(** One [await] of the statistics fetch for [repo]. *)
Definition call_stats (N : Network) (repo : RepoRef) : M StatsRes :=
  fun log =>
    (repo_stats N repo (stats_calls repo log), log ++ [CallRepoStats repo]).

(** The callback of [res.data.find]:
    [c.author && c.author.login.toLowerCase() === username.toLowerCase()].
    Reading [.author] of [null] throws, and so does [.toLowerCase()] of an
    absent [login]. *)
Definition is_user (username : string) (c : option Contributor)
  : Outcome bool :=
  match c with
  | None => Threw TypeError
  | Some cb =>
      match author cb with
      | NoAuthor => Returned false
      | AuthorWithoutLogin => Threw TypeError
      | AuthorLogin login =>
          Returned (String.eqb (toLowerCase login) (toLowerCase username))
      end
  end.

(** [res.data.find(...)]: the elements are tried in order up to the first
    match. *)
Fixpoint find (username : string) (cs : list (option Contributor))
  : Outcome (option Contributor) :=
  match cs with
  | [] => Returned None
  | c :: rest =>
      match is_user username c with
      | Threw e => Threw e
      | Returned true => Returned c
      | Returned false => find username rest
      end
  end.

(** A slot of [weeklyMap]; its sums may have become [NaN]. *)
Record Slot := mkSlot {
  slot_a : option Z;
  slot_d : option Z;
  slot_c : option Z
}.

(** [week.a === 0 && week.d === 0 && week.c === 0] *)
Definition all_zero (wk : Week) : bool :=
  match a wk, d wk, c wk with
  | Some 0, Some 0, Some 0 => true
  | _, _, _ => false
  end.

Definition add_a (n : option Z) (s : Slot) : Slot :=
  mkSlot (js_add (slot_a s) n) (slot_d s) (slot_c s).
Definition add_d (n : option Z) (s : Slot) : Slot :=
  mkSlot (slot_a s) (js_add (slot_d s) n) (slot_c s).
Definition add_c (n : option Z) (s : Slot) : Slot :=
  mkSlot (slot_a s) (slot_d s) (js_add (slot_c s) n).

(** Body of [for (const week of ...weeks)] on an entry that is an object.
    The key [weeklyMap[week.w]] is the decimal string of the number
    [week.w], or the string [undefined] when [w] is absent: the map's keys
    are [option Z], [None] being the key [undefined]. *)
Definition addWeek (weeklyMap : gmap (option Z) Slot) (wk : Week)
  : gmap (option Z) Slot :=
  if all_zero wk then weeklyMap
  else
    let m0 :=
      match weeklyMap !! w wk with
      | None => <[w wk := mkSlot (Some 0) (Some 0) (Some 0)]> weeklyMap
      | Some _ => weeklyMap
      end in
    let m1 := alter (add_a (a wk)) (w wk) m0 in
    let m2 := alter (add_d (d wk)) (w wk) m1 in
    alter (add_c (c wk)) (w wk) m2.

(** The loop over an array of entries: the map as the loop leaves it, and
    the error that ended the loop early, if any.  Reading [week.a] of a
    [null] entry throws; what was merged before stays in [weeklyMap]. *)
Fixpoint mergeWeeks (weeklyMap : gmap (option Z) Slot)
  (wks : list (option Week)) : gmap (option Z) Slot * option Error :=
  match wks with
  | [] => (weeklyMap, None)
  | None :: _ => (weeklyMap, Some TypeError)
  | Some wk :: rest => mergeWeeks (addWeek weeklyMap wk) rest
  end.

(** [for (const week of contributor.weeks) { ... }]: an absent [weeks] is
    not iterable. *)
Definition forWeeks (weeklyMap : gmap (option Z) Slot)
  (weeks : option (list (option Week)))
  : gmap (option Z) Slot * option Error :=
  match weeks with
  | None => (weeklyMap, Some TypeError)
  | Some wks => mergeWeeks weeklyMap wks
  end.

(** [Object.keys(weeklyMap).map(Number)]: the key [undefined] converts to
    [NaN], here [None]. *)
Definition Object_keys (weeklyMap : gmap (option Z) Slot) : list (option Z) :=
  (map_to_list weeklyMap).*1.

(** [(a, b) => a - b] does not put [a] after [b]: the difference is not
    positive.  A [NaN] difference counts as zero. *)
Definition compare_le (x y : option Z) : Prop :=
  match x, y with
  | Some p, Some q => p <= q
  | _, _ => True
  end.

#[local] Instance compare_le_dec (x y : option Z) : Decision (compare_le x y).
Proof.
  destruct x as [p|], y as [q|]; simpl; try (left; exact I).
  apply Z_le_dec.
Defined.

(** [.sort((a, b) => a - b)].  With a [NaN] among the keys the comparator is
    inconsistent and the order is up to the engine; the callback below throws
    at the [NaN] wherever it stands. *)
Definition sort_numeric (ks : list (option Z)) : list (option Z) :=
  merge_sort compare_le ks.

Record WeeklyData := mkWeekly {
  week : Z;
  additions : option Z;
  deletions : option Z;
  commits : option Z
}.

Record LocData := mkLoc {
  weeklyData : list WeeklyData;
  totalAdditions : option Z;
  totalDeletions : option Z;
  totalCommits : option Z;
  netLines : option Z
}.

Record Totals := mkTotals {
  tAdd : option Z;
  tDel : option Z;
  tCom : option Z;
  built : list WeeklyData
}.

(** One call of the [weeks.map] callback.  [weeklyMap[NaN]] reads the key
    [NaN], which no entry was filed under: [d] is [undefined] and [d.a]
    throws. *)
Definition build_step (weeklyMap : gmap (option Z) Slot) (t : Totals)
  (wk : option Z) : Outcome Totals :=
  match wk with
  | None => Threw TypeError
  | Some k =>
      match weeklyMap !! Some k with
      | None => Threw TypeError
      | Some s =>
          Returned
            (mkTotals (js_add (tAdd t) (slot_a s)) (js_add (tDel t) (slot_d s))
               (js_add (tCom t) (slot_c s))
               (built t ++ [mkWeekly k (slot_a s) (slot_d s) (slot_c s)]))
      end
  end.

Fixpoint build_weeks (weeklyMap : gmap (option Z) Slot) (ws : list (option Z))
  (t : Totals) : Outcome Totals :=
  match ws with
  | [] => Returned t
  | wk :: ws' =>
      match build_step weeklyMap t wk with
      | Returned t' => build_weeks weeklyMap ws' t'
      | Threw e => Threw e
      end
  end.

(** Step 3 of [fetchLoc]; it runs outside every [try] block. *)
Definition buildLocData (weeklyMap : gmap (option Z) Slot) : Outcome LocData :=
  let weeks := sort_numeric (Object_keys weeklyMap) in
  match build_weeks weeklyMap weeks (mkTotals (Some 0) (Some 0) (Some 0) []) with
  | Returned t =>
      Returned
        (mkLoc (built t) (tAdd t) (tDel t) (tCom t)
           (js_sub (tAdd t) (tDel t)))
  | Threw e => Threw e
  end.

(** ** Sequential revision: the merge runs inside the per-repository [try] *)

Module Sequential.

(** Body of [for (const repo of repos) { try { ... } catch (err) { ... } }].
    Whatever is thrown between the request and the end of the merge loop is
    caught; [weeklyMap] is updated in place, so the entries merged before a
    throw stay merged. *)
Definition repo_body (N : Network) (username : string)
  (weeklyMap : gmap (option Z) Slot) (repo : RepoRef)
  : M (gmap (option Z) Slot) :=
  try_catch
    (do res <- call_stats N repo;
     do res <- (if status res =? 202
                then delay 2000;; call_stats N repo
                else ret res);
     match data res with
     | NotArray => ret weeklyMap
     | ContributorArray cs =>
         do contributor <- settle (find username cs);
         match contributor with
         | None => ret weeklyMap
         | Some contributor =>
             ret (fst (forWeeks weeklyMap (weeks contributor)))
         end
     end)
    (fun _ => ret weeklyMap).

Definition fetchLoc (N : Network) (username : option string)
  (include_orgs : option string) : M LocData :=
  if falsy username then throw (MissingParamError ["username"])
  else
    let username := default "" username in
    do repos <- discover (listings N) username include_orgs;
    do weeklyMap <- for_of repos (repo_body N username) ∅;
    settle (buildLocData weeklyMap).

End Sequential.

(** ** Concurrent revision: the merge runs after [Promise.allSettled],
    outside every [try] *)

Module Parallel.

(** The task of one repository; a throw in it rejects its promise. *)
Definition fetchOneRepo (N : Network) (username : string) (repo : RepoRef)
  : M (option Contributor) :=
  do res <- call_stats N repo;
  do res <- (if status res =? 202
             then delay 1500;; call_stats N repo
             else ret res);
  match data res with
  | NotArray => ret None
  | ContributorArray cs => settle (find username cs)
  end.

(** [for (const result of results) { if (result.status !== "fulfilled" ||
    !result.value) continue; for (const week of result.value.weeks) { ... }
    }]: a throw in the inner loop leaves [fetchLoc]. *)
Fixpoint mergeResults (weeklyMap : gmap (option Z) Slot)
  (results : list (Outcome (option Contributor)))
  : Outcome (gmap (option Z) Slot) :=
  match results with
  | [] => Returned weeklyMap
  | Returned (Some value) :: rest =>
      match forWeeks weeklyMap (weeks value) with
      | (weeklyMap', None) => mergeResults weeklyMap' rest
      | (_, Some e) => Threw e
      end
  | _ :: rest => mergeResults weeklyMap rest
  end.

Definition fetchLoc (N : Network) (username : option string)
  (include_orgs : option string) : M LocData :=
  if falsy username then throw (MissingParamError ["username"])
  else
    let username := default "" username in
    do repos <- discover (listings N) username include_orgs;
    do results <-
      Parallel.allSettled (List.map (fetchOneRepo N username) repos);
    do weeklyMap <- settle (mergeResults ∅ results);
    settle (buildLocData weeklyMap).

End Parallel.

End Raw.

(** * The engine's bound on call arguments

    [Math.max(...xs, x0)] hands every element of [xs] to one call.  An engine
    accepts a bounded number of arguments in a call and raises [RangeError]
    beyond it; the bound is the engine's, not the program's, and is a
    parameter here.  The definitions follow the renderers up to the scale,
    as above: an error raised there is raised by [renderLocChart]. *)

Module Engine.

(** [Math.max(...xs, x0)] and [Math.min(...xs, x0)]: [length xs + 1]
    arguments. *)
Definition spread_max (arg_limit : Z) (xs : list Z) (x0 : Z) : Outcome Z :=
  if arg_limit <? Z.of_nat (length xs) + 1 then Threw RangeError
  else Returned (Math_max xs x0).

Definition spread_min (arg_limit : Z) (xs : list Z) (x0 : Z) : Outcome Z :=
  if arg_limit <? Z.of_nat (length xs) + 1 then Threw RangeError
  else Returned (Math_min xs x0).

(** From [const minTime = points[0].week] to [const valRange = ...]. *)
Definition computeScale (arg_limit : Z) (pts : list Point) : Outcome Scale :=
  match week_at pts 0 with
  | Threw e => Threw e
  | Returned minT =>
      match week_at pts (length pts - 1) with
      | Threw e => Threw e
      | Returned maxT =>
          let tr := or_one (maxT - minT) in
          match spread_max arg_limit (List.map value pts) 0 with
          | Threw e => Threw e
          | Returned maxV =>
              match spread_min arg_limit (List.map value pts) 0 with
              | Threw e => Threw e
              | Returned minV =>
                  let vr := or_one (maxV - minV) in
                  Returned (mkScale pts minT maxT tr maxV minV vr)
              end
          end
      end
  end.

Module Cumulative.

Definition renderLocChart (arg_limit : Z) (data : LocData)
  (options : Cumulative.Options) : Outcome Rendered :=
  let bg := default "0D1117" (Cumulative.bg_color options) in
  let text := default "E6EDF3" (Cumulative.text_color options) in
  if (length (weeklyData data) =? 0)%nat
  then Returned (NoDataImage (noDataSvg bg text))
  else
    let points := cumulate 0 (weeklyData data) in
    match computeScale arg_limit points with
    | Returned sc => Returned (ChartImage sc)
    | Threw e => Threw e
    end.

End Cumulative.

Module Windowed.

Definition renderLocChart (arg_limit : Z) (colors : Windowed.CardColors)
  (now : Z) (data : LocData) (options : Windowed.Options)
  : Outcome Rendered :=
  let bg := Windowed.bg_of colors in
  let text := strip_hash (Windowed.textColor colors) in
  if (length (weeklyData data) =? 0)%nat
  then Returned (NoDataImage (noDataSvg bg text))
  else
    let allPoints := cumulate 0 (weeklyData data) in
    let points := Windowed.visible now (Windowed.months options) allPoints in
    match computeScale arg_limit points with
    | Returned sc => Returned (ChartImage sc)
    | Threw e => Threw e
    end.

End Windowed.

Module Monthly.

(** From [const maxAdd = ...] to [const baselineY = ...]. *)
Definition scaleBars (arg_limit : Z) (md : list Monthly.MonthEntry)
  : Outcome Monthly.BarScale :=
  match spread_max arg_limit (List.map Monthly.m_additions md) 1 with
  | Threw e => Threw e
  | Returned _ =>
      match spread_max arg_limit (List.map Monthly.m_deletions md) 1 with
      | Threw e => Threw e
      | Returned _ => Returned (Monthly.scaleBars md)
      end
  end.

Definition renderLocChart (arg_limit : Z) (calendar : Z -> Z * Z)
  (colors : Windowed.CardColors) (data : LocData)
  (options : Windowed.Options) : Outcome Monthly.RenderedBars :=
  let bg := Windowed.bg_of colors in
  let text := strip_hash (Windowed.textColor colors) in
  if (length (weeklyData data) =? 0)%nat
  then Returned (Monthly.NoDataBars (noDataSvg bg text))
  else
    let md :=
      Monthly.visibleMonths calendar (Windowed.months options)
        (weeklyData data) in
    if (length md =? 0)%nat
    then Returned (Monthly.NoDataBars (noDataSvg bg text))
    else
      match scaleBars arg_limit md with
      | Returned sc => Returned (Monthly.BarsImage sc)
      | Threw e => Threw e
      end.

End Monthly.

End Engine.

(** * Vocabulary of the properties, and examples *)

Definition bump (s : Slot) (wk : Week) : Slot :=
  mkSlot (slot_a s + a wk) (slot_d s + d wk) (slot_c s + c wk).

Definition slot_or_zero (o : option Slot) : Slot := default (mkSlot 0 0 0) o.

(** The weeks a settled result feeds into the merge. *)
Definition weeks_of (result : Outcome (option Contributor)) : list Week :=
  match result with
  | Returned (Some value) => weeks value
  | _ => []
  end.

Definition Zsum (xs : list Z) : Z := fold_right Z.add 0 xs.

(** What [build_weeks] hands back, in terms of the map and the keys. *)
Definition record_of (m : gmap Z Slot) (k : Z) : WeeklyData :=
  let s := slot_or_zero (m !! k) in
  mkWeekly k (slot_a s) (slot_d s) (slot_c s).

Definition nonneg_week (wk : Week) : Prop :=
  0 <= a wk /\ 0 <= d wk /\ 0 <= c wk.

Definition slot_ok (s : Slot) : Prop :=
  0 <= slot_a s /\ 0 <= slot_d s /\ 0 <= slot_c s /\
  ~ (slot_a s = 0 /\ slot_d s = 0 /\ slot_c s = 0).

Definition slots_ok (m : gmap Z Slot) : Prop :=
  forall k s, m !! k = Some s -> slot_ok s.

(** The properties of a series the claims speak about. *)
Definition totals_match (ld : LocData) : Prop :=
  totalAdditions ld = Zsum (List.map additions (weeklyData ld)) /\
  totalDeletions ld = Zsum (List.map deletions (weeklyData ld)) /\
  totalCommits ld = Zsum (List.map commits (weeklyData ld)) /\
  netLines ld = totalAdditions ld - totalDeletions ld.

Definition strictly_ascending (ld : LocData) : Prop :=
  StronglySorted Z.lt (List.map week (weeklyData ld)).

Definition no_zero_record (ld : LocData) : Prop :=
  Forall (fun r => ~ (additions r = 0 /\ deletions r = 0 /\ commits r = 0))
    (weeklyData ld).

(** The series built from a finished [weeklyMap]. *)
Definition series_of (m : gmap Z Slot) : LocData :=
  let recs := List.map (record_of m) (sort_numeric (Object_keys m)) in
  mkLoc recs (Zsum (List.map additions recs))
    (Zsum (List.map deletions recs)) (Zsum (List.map commits recs))
    (Zsum (List.map additions recs) - Zsum (List.map deletions recs)).

(** A settled result holds nothing but what the world answered. *)
Definition from_world (W : World) (r : Outcome (option Contributor)) : Prop :=
  forall cb, r = Returned (Some cb) ->
    exists repo n st cs,
      repoStats W repo n = Returned (mkStats st (ContributorArray cs)) /\
      In cb cs.

Definition world_nonneg (W : World) : Prop :=
  forall repo n st cs cb wk,
    repoStats W repo n = Returned (mkStats st (ContributorArray cs)) ->
    In cb cs -> In wk (weeks cb) -> nonneg_week wk.

Definition ex_weeks1 : list Week :=
  [mkWeek 1700000000 10 2 1; mkWeek 1700604800 0 0 0;
   mkWeek 1701209600 5 5 2].

Definition ex_weeks2 : list Week :=
  [mkWeek 1701209600 1 0 1; mkWeek 1690000000 7 3 1].

(** Two repositories (one listed twice), a failing organisation listing, and
    a statistics endpoint that answers 202 once for the first repository. *)
Definition ex_world : World :=
  mkWorld
    (fun _ =>
       Returned
         (Some [mkRepo "octo" "one"; mkRepo "octo" "two"; mkRepo "octo" "one"]))
    (fun _ => Threw RequestError)
    (fun r n =>
       if String.eqb (name r) "one" then
         match n with
         | O => Returned (mkStats 202 NotArray)
         | _ =>
             Returned
               (mkStats 200
                  (ContributorArray
                     [mkContributor None [];
                      mkContributor (Some "Octo") ex_weeks1]))
         end
       else
         Returned
           (mkStats 200
              (ContributorArray [mkContributor (Some "octo") ex_weeks2]))).

(** A world whose statistics endpoint never gets past "still computing". *)
Definition ex_busy_world : World :=
  mkWorld
    (fun _ => Returned (Some [mkRepo "octo" "one"]))
    (fun _ => Returned None)
    (fun _ _ => Returned (mkStats 202 NotArray)).

(** A scale whose two ranges are what the code's [|| 1] makes of them. *)
Definition ranges_guarded (sc : Scale) : Prop :=
  timeRange sc
    = (if maxTime sc - minTime sc =? 0 then 1 else maxTime sc - minTime sc) /\
  valRange sc
    = (if maxVal sc - minVal sc =? 0 then 1 else maxVal sc - minVal sc) /\
  timeRange sc <> 0 /\ valRange sc <> 0.

(** What the cumulative renderers hand back for a series. *)
Definition cumulative_result (data : LocData) (bg text : string)
  (r : Rendered) : Prop :=
  match r with
  | NoDataImage svg => weeklyData data = [] /\ svg = noDataSvg bg text
  | ChartImage sc =>
      weeklyData data <> [] /\ points sc <> [] /\ ranges_guarded sc
  end.

(** What the bar renderer hands back for a series. *)
Definition bars_result (data : LocData) (bg text : string)
  (r : Monthly.RenderedBars) : Prop :=
  (weeklyData data = [] -> r = Monthly.NoDataBars (noDataSvg bg text)) /\
  match r with
  | Monthly.NoDataBars svg => svg = noDataSvg bg text
  | Monthly.BarsImage sc =>
      weeklyData data <> [] /\ Monthly.monthlyData sc <> [] /\
      1 <= Monthly.maxAdd sc /\ 1 <= Monthly.maxDel sc /\
      Monthly.maxAdd sc + Monthly.maxDel sc <> 0 /\
      Monthly.maxValue sc <> 0
  end.

Definition ex_series : LocData :=
  mkLoc
    [mkWeekly 1600000000 100 20 3; mkWeekly 1699400000 50 10 1;
     mkWeekly 1700000000 7 9 2]
    157 39 6 118.

Definition ex_colors : Windowed.CardColors :=
  Windowed.mkColors "#2f80ed" "#434d58" (inl "#fffefe") "#e4e2e2".

(** [Date.now()] of the example: 2023-11-20T00:00:00Z, in milliseconds. *)
Definition ex_now : Z := 1700438400000.

Definition net (r : WeeklyData) : Z := additions r - deletions r.
Definition point_net (p : Point) : Z := p_additions p - p_deletions p.

(** The claim as worded: the [i]-th visible point carries the sum of
    [additions - deletions] over the visible points up to and including
    it. *)
Definition sums_visible_only (vis : list Point) : Prop :=
  forall i p,
    nth_error vis i = Some p ->
    value p = Zsum (List.map point_net (firstn (S i) vis)).

(** The claim as worded, on the layout the renderer returns. *)
Definition baseline_from_true_peaks (sc : Monthly.BarScale) : Prop :=
  (Monthly.baselineY sc == Monthly.spec_baselineY (Monthly.monthlyData sc))%Q.

Definition ex_deletions_only : LocData :=
  mkLoc [mkWeekly 1700000000 0 1 1] 0 1 1 (-1).

Definition ex_months : list Monthly.MonthEntry :=
  [Monthly.mkMonth 2023 9 120 30; Monthly.mkMonth 2023 10 0 45].

Fixpoint last_char (s : string) : option ascii :=
  match s with
  | EmptyString => None
  | String ch EmptyString => Some ch
  | String _ s' => last_char s'
  end.

(** What each discovery source yields; a failing or empty source yields
    nothing. *)
Definition user_nodes (W : World) (username : string) : list RepoRef :=
  match userRepos W username with
  | Returned (Some nodes) => nodes
  | _ => []
  end.

Definition org_nodes (W : World) (org : string) : list RepoRef :=
  match orgRepos W org with
  | Returned (Some names) => List.map (mkRepo org) names
  | _ => []
  end.

(** The entries the statistics answers hold for week [k], over all settled
    results, and those among them that are not all zero. *)
Definition entries_of (k : Z) (rs : list (Outcome (option Contributor)))
  : list Week :=
  List.filter (fun wk => w wk =? k) (flat_map weeks_of rs).

Definition active (wks : list Week) : list Week :=
  List.filter (fun wk => negb (all_zero wk)) wks.

(** The log without its timer events. *)
Definition calls_only (log : list Event) : list Event :=
  List.filter (fun e => match e with Delay _ => false | _ => true end) log.

(** One entry's effect on the slot of week [k]. *)
Definition week_step (k : Z) (o : option Slot) (wk : Week) : option Slot :=
  if (w wk =? k) && negb (all_zero wk)
  then Some (bump (slot_or_zero o) wk) else o.

Definition sum_a (wks : list Week) : Z := Zsum (List.map a wks).
Definition sum_d (wks : list Week) : Z := Zsum (List.map d wks).
Definition sum_c (wks : list Week) : Z := Zsum (List.map c wks).

(** First character of a string, and its characters as a list. *)
Definition first_char (s : string) : option ascii :=
  match s with
  | EmptyString => None
  | String ch _ => Some ch
  end.

Fixpoint chars (s : string) : list ascii :=
  match s with
  | EmptyString => []
  | String ch s' => ch :: chars s'
  end.

(** [trim_start] on a list of characters. *)
Fixpoint ltrim (l : list ascii) : list ascii :=
  match l with
  | [] => []
  | ch :: l' => if is_space ch then ltrim l' else l
  end.

(** Two labels in a row keep the minimum distance. *)
Definition apart (l1 l2 : Z * Q) : Prop := (snd l1 + MIN_LABEL_PX <= snd l2)%Q.

(** The labels kept so far: in a row from left to right, each at its
    scaled position right of the plot's left edge, and [lastX] the position
    of the leftmost one. *)
Definition kept_well (toX : Z -> Q) (lastX : option Q)
  (picked : list (Z * Q)) : Prop :=
  Sorted apart picked /\
  Forall (fun l => snd l = toX (fst l) /\ (70 <= snd l)%Q) picked /\
  lastX = option_map snd (hd_error picked).

(** Calendar month of an entry, the key the code files it under, and the
    strict calendar order. *)
Definition month_of (e : Monthly.MonthEntry) : Z * Z :=
  (Monthly.year e, Monthly.month e).

Definition month_key (ym : Z * Z) : string :=
  toString (fst ym) +:+ "-" +:+ toString (snd ym).

Definition month_before (x y : Monthly.MonthEntry) : Prop :=
  Monthly.year x < Monthly.year y \/
  (Monthly.year x = Monthly.year y /\ Monthly.month x < Monthly.month y).

(** A [monthlyMap] as the loop keeps it: no key twice, every entry filed
    under the key of its own month. *)
Definition map_well (mp : list (string * Monthly.MonthEntry)) : Prop :=
  NoDup (List.map fst mp) /\
  Forall (fun ke => fst ke = month_key (month_of (snd ke))) mp.

(** A rectangle that lies inside the chart area and has a positive width
    and a non-negative height. *)
Definition inside_chart (r : Bars.Rect) : Prop :=
  (70 <= Bars.rx r /\ Bars.rx r + Bars.rw r <= 820 /\
   50 <= Bars.ry r /\ Bars.ry r + Bars.rh r <= 250 /\
   0 < Bars.rw r /\ 0 <= Bars.rh r)%Q.

(** A network whose statistics answer holds the user's entry without a
    [weeks] property: [[{ author: { login: "octo" } }]]. *)
Definition ex_no_weeks : Raw.Network :=
  Raw.mkNetwork
    (fun _ => Returned (Some [mkRepo "octo" "one"]))
    (fun _ => Returned None)
    (fun _ _ =>
       Returned
         (Raw.mkStats 200
            (Raw.ContributorArray
               [Some (Raw.mkContributor (Raw.AuthorLogin "octo") None)]))).

(** A network whose statistics answer holds one week without its [w]:
    [[{ author: { login: "octo" }, weeks: [{ a: 1, d: 0, c: 1 }] }]]. *)
Definition ex_no_week_key : Raw.Network :=
  Raw.mkNetwork
    (fun _ => Returned (Some [mkRepo "octo" "one"]))
    (fun _ => Returned None)
    (fun _ _ =>
       Returned
         (Raw.mkStats 200
            (Raw.ContributorArray
               [Some
                  (Raw.mkContributor (Raw.AuthorLogin "octo")
                     (Some [Some (Raw.mkWeek None (Some 1) (Some 0) (Some 1))]))]))).

(** The empty series. *)
Definition raw_empty_series : Raw.LocData :=
  Raw.mkLoc [] (Some 0) (Some 0) (Some 0) (Some 0).

(** What a settled result adds to [weeklyMap] when a throw in the merge loop
    is caught. *)
Definition merge_caught (m : gmap (option Z) Raw.Slot)
  (result : Outcome (option Raw.Contributor)) : gmap (option Z) Raw.Slot :=
  match result with
  | Returned (Some value) => fst (Raw.forWeeks m (Raw.weeks value))
  | _ => m
  end.

(** A contributor entry whose [weeks] is an array without [null]
    elements. *)
Definition weeks_iterable (cb : Raw.Contributor) : Prop :=
  exists wks,
    Raw.weeks cb = Some wks /\ Forall (fun entry => entry <> None) wks.

Definition result_iterable (r : Outcome (option Raw.Contributor)) : Prop :=
  forall cb, r = Returned (Some cb) -> weeks_iterable cb.

(** Every contributor entry the statistics endpoint answers with has such a
    [weeks]. *)
Definition network_weeks_iterable (N : Raw.Network) : Prop :=
  forall repo n st cs cb,
    Raw.repo_stats N repo n = Returned (Raw.mkStats st (Raw.ContributorArray cs)) ->
    In (Some cb) cs -> weeks_iterable cb.

Definition raw_from_network (N : Raw.Network)
  (r : Outcome (option Raw.Contributor)) : Prop :=
  forall cb, r = Returned (Some cb) ->
    exists repo n st cs,
      Raw.repo_stats N repo n
        = Returned (Raw.mkStats st (Raw.ContributorArray cs)) /\
      In (Some cb) cs.

(** What [fetchLoc] reads of the outcome of one statistics call: whether
    its status is 202, and the list it carries, if any.  A rejected call and
    an answer whose body is not a list read alike. *)
Definition reading (o : Outcome Raw.StatsRes)
  : bool * option (list (option Raw.Contributor)) :=
  match o with
  | Threw _ => (false, None)
  | Returned res =>
      (Raw.status res =? 202,
       match Raw.data res with
       | Raw.NotArray => None
       | Raw.ContributorArray cs => Some cs
       end)
  end.

(** Two networks with the same listings whose statistics calls read alike,
    call by call. *)
Definition same_readings (N1 N2 : Raw.Network) : Prop :=
  Raw.user_repos N1 = Raw.user_repos N2 /\
  Raw.org_repos N1 = Raw.org_repos N2 /\
  forall repo n,
    reading (Raw.repo_stats N1 repo n) = reading (Raw.repo_stats N2 repo n).

(** Well-formed statistics answers: the first repository answers 202 once,
    an entry without author precedes the user's, and the third repository
    is gone.  [on_gone] is what the call for the third repository yields. *)
Definition ex_stats (on_gone : Outcome Raw.StatsRes) (r : RepoRef) (n : nat)
  : Outcome Raw.StatsRes :=
  if String.eqb (name r) "one" then
    match n with
    | O => Returned (Raw.mkStats 202 Raw.NotArray)
    | _ =>
        Returned
          (Raw.mkStats 200
             (Raw.ContributorArray
                [Some (Raw.mkContributor Raw.NoAuthor (Some []));
                 Some
                   (Raw.mkContributor (Raw.AuthorLogin "Octo")
                      (Some
                         [Some (Raw.mkWeek (Some 1700000000) (Some 10)
                                  (Some 2) (Some 1));
                          Some (Raw.mkWeek (Some 1700604800) (Some 0)
                                  (Some 0) (Some 0))]))]))
    end
  else if String.eqb (name r) "two" then
    Returned
      (Raw.mkStats 200
         (Raw.ContributorArray
            [Some
               (Raw.mkContributor (Raw.AuthorLogin "octo")
                  (Some
                     [Some (Raw.mkWeek (Some 1700000000) (Some 1)
                              (Some 0) (Some 1))]))]))
  else on_gone.

Definition ex_listing : string -> Outcome UserReposRes :=
  fun _ =>
    Returned
      (Some [mkRepo "octo" "one"; mkRepo "octo" "two"; mkRepo "octo" "gone"]).

(** The calls as the concurrent revision makes them ([validateStatus: () =>
    true]): status 404 comes back as an answer. *)
Definition ex_network : Raw.Network :=
  Raw.mkNetwork ex_listing (fun _ => Threw RequestError)
    (ex_stats (Returned (Raw.mkStats 404 Raw.NotArray))).

(** The calls as the sequential revision makes them: status 404 rejects the
    call. *)
Definition ex_network_rejecting : Raw.Network :=
  Raw.mkNetwork ex_listing (fun _ => Threw RequestError)
    (ex_stats (Threw RequestError)).

(** A series of 130000 weekly records. *)
Definition ex_long_series : LocData :=
  mkLoc
    (List.map (fun i => mkWeekly (604800 * Z.of_nat i) 1 0 1)
       (seq 0 (Z.to_nat 130000)))
    130000 0 130000 130000.

(** A payload of the documented shape, seen as it arrives: every property
    present, no [null] element. *)
Definition embed_week (wk : Week) : Raw.Week :=
  Raw.mkWeek (Some (w wk)) (Some (a wk)) (Some (d wk)) (Some (c wk)).

Definition embed_contributor (cb : Contributor) : Raw.Contributor :=
  Raw.mkContributor
    match author cb with
    | Some login => Raw.AuthorLogin login
    | None => Raw.NoAuthor
    end
    (Some (List.map (fun wk => Some (embed_week wk)) (weeks cb))).

Definition embed_body (b : StatsBody) : Raw.StatsBody :=
  match b with
  | NotArray => Raw.NotArray
  | ContributorArray cs =>
      Raw.ContributorArray (List.map (fun cb => Some (embed_contributor cb)) cs)
  end.

(** The same outcome with another value. *)
Definition map_outcome {A B} (f : A -> B) (o : Outcome A) : Outcome B :=
  match o with
  | Returned x => Returned (f x)
  | Threw e => Threw e
  end.

Definition embed_stats (r : StatsRes) : Raw.StatsRes :=
  Raw.mkStats (status r) (embed_body (data r)).

Definition embed_network (W : World) : Raw.Network :=
  Raw.mkNetwork (userRepos W) (orgRepos W)
    (fun r n => map_outcome embed_stats (repoStats W r n)).

Definition embed_slot (s : Slot) : Raw.Slot :=
  Raw.mkSlot (Some (slot_a s)) (Some (slot_d s)) (Some (slot_c s)).

Definition embed_map (m : gmap Z Slot) : gmap (option Z) Raw.Slot :=
  kmap Some (embed_slot <$> m).

Definition embed_record (r : WeeklyData) : Raw.WeeklyData :=
  Raw.mkWeekly (week r) (Some (additions r)) (Some (deletions r))
    (Some (commits r)).

Definition embed_series (ld : LocData) : Raw.LocData :=
  Raw.mkLoc (List.map embed_record (weeklyData ld))
    (Some (totalAdditions ld)) (Some (totalDeletions ld))
    (Some (totalCommits ld)) (Some (netLines ld)).

Definition embed_totals (t : Totals) : Raw.Totals :=
  Raw.mkTotals (Some (tAdd t)) (Some (tDel t)) (Some (tCom t))
    (List.map embed_record (built t)).

(** * Properties *)

(** ** The merge step *)

Lemma addWeek_skip (m : gmap Z Slot) wk :
  all_zero wk = true -> addWeek m wk = m.
Proof. intros H. unfold addWeek. now rewrite H. Qed.

Lemma addWeek_lookup (m : gmap Z Slot) wk k :
  all_zero wk = false ->
  addWeek m wk !! k =
    if decide (w wk = k) then Some (bump (slot_or_zero (m !! w wk)) wk)
    else m !! k.
Proof.
  intros H. unfold addWeek. rewrite H.
  destruct (decide (w wk = k)) as [<-|Hne].
  - rewrite !lookup_alter_eq.
    destruct (m !! w wk) as [s|] eqn:E.
    + rewrite E. destruct s. reflexivity.
    + rewrite lookup_insert_eq. reflexivity.
  - rewrite !lookup_alter_ne by assumption.
    destruct (m !! w wk); [reflexivity|].
    now rewrite lookup_insert_ne.
Qed.

Lemma bump_comm s x y : bump (bump s x) y = bump (bump s y) x.
Proof. unfold bump; simpl. f_equal; lia. Qed.

Lemma addWeek_comm (m : gmap Z Slot) x y :
  addWeek (addWeek m x) y = addWeek (addWeek m y) x.
Proof.
  destruct (all_zero x) eqn:Hx.
  { now rewrite !(addWeek_skip _ x Hx). }
  destruct (all_zero y) eqn:Hy.
  { now rewrite !(addWeek_skip _ y Hy). }
  apply map_eq. intros k.
  rewrite !addWeek_lookup by assumption.
  destruct (decide (w y = k)) as [Ey|Ny], (decide (w x = k)) as [Ex|Nx];
    subst; try reflexivity.
  - rewrite Ex, !decide_True by congruence. simpl.
    now rewrite bump_comm.
  - rewrite !decide_False by congruence. reflexivity.
  - rewrite !decide_False by congruence. reflexivity.
Qed.

Lemma addWeeks_perm l1 l2 :
  Permutation l1 l2 -> forall m, addWeeks m l1 = addWeeks m l2.
Proof.
  unfold addWeeks.
  induction 1 as [|x l1 l2 _ IH|x y l|l1 l2 l3 _ IH1 _ IH2]; intros m; simpl.
  - reflexivity.
  - apply IH.
  - now rewrite addWeek_comm.
  - now rewrite IH1.
Qed.

Lemma merge_result_weeks m r : merge_result m r = addWeeks m (weeks_of r).
Proof. destruct r as [[v|]|e]; reflexivity. Qed.

Lemma merge_results_flat rs :
  forall m,
    fold_left merge_result rs m = addWeeks m (flat_map weeks_of rs).
Proof.
  induction rs as [|r rs IH]; intros m; simpl; [reflexivity|].
  rewrite IH, merge_result_weeks. unfold addWeeks.
  now rewrite fold_left_app.
Qed.

Lemma flat_map_perm {A B} (f : A -> list B) l1 l2 :
  Permutation l1 l2 -> Permutation (flat_map f l1) (flat_map f l2).
Proof.
  induction 1 as [|x l1 l2 _ IH|x y l|l1 l2 l3 _ IH1 _ IH2]; simpl.
  - constructor.
  - now apply Permutation_app_head.
  - rewrite !app_assoc. apply Permutation_app_tail, Permutation_app_comm.
  - now transitivity (flat_map f l2).
Qed.

Lemma merge_results_perm rs1 rs2 m :
  Permutation rs1 rs2 ->
  fold_left merge_result rs1 m = fold_left merge_result rs2 m.
Proof.
  intros H. rewrite !merge_results_flat.
  now apply addWeeks_perm, flat_map_perm.
Qed.

(** ** Building the series *)

Lemma build_weeks_spec (m : gmap Z Slot) ws :
  (forall k, In k ws -> is_Some (m !! k)) ->
  forall t,
    build_weeks m ws t =
      Returned
        (mkTotals
           (tAdd t + Zsum (List.map additions (List.map (record_of m) ws)))
           (tDel t + Zsum (List.map deletions (List.map (record_of m) ws)))
           (tCom t + Zsum (List.map commits (List.map (record_of m) ws)))
           (built t ++ List.map (record_of m) ws)).
Proof.
  induction ws as [|k ws IH]; intros Hin t; simpl.
  - destruct t; simpl. rewrite app_nil_r. f_equal. f_equal; lia.
  - destruct (Hin k (or_introl eq_refl)) as [s Hs].
    assert (Hrec : record_of m k = mkWeekly k (slot_a s) (slot_d s) (slot_c s)).
    { unfold record_of. now rewrite Hs. }
    unfold build_step. rewrite Hs.
    rewrite IH by (intros; apply Hin; now right).
    cbn [tAdd tDel tCom built List.map Zsum fold_right].
    rewrite Hrec. cbn [additions deletions commits].
    rewrite <- app_assoc. simpl. f_equal. f_equal; lia.
Qed.

Lemma keys_present (m : gmap Z Slot) k :
  In k (sort_numeric (Object_keys m)) -> is_Some (m !! k).
Proof.
  unfold sort_numeric, Object_keys. intros H.
  apply list_elem_of_In in H.
  rewrite merge_sort_Permutation in H.
  apply list_elem_of_fmap in H as [[k' s] [-> H]].
  apply elem_of_map_to_list in H. simpl. eauto.
Qed.

Lemma buildLocData_spec (m : gmap Z Slot) :
  let recs := List.map (record_of m) (sort_numeric (Object_keys m)) in
  buildLocData m =
    Returned
      (mkLoc recs (Zsum (List.map additions recs))
         (Zsum (List.map deletions recs)) (Zsum (List.map commits recs))
         (Zsum (List.map additions recs) - Zsum (List.map deletions recs))).
Proof.
  intros recs. unfold buildLocData.
  rewrite build_weeks_spec by apply keys_present. simpl.
  reflexivity.
Qed.

(** ** Invariants of the aggregate *)

Lemma week_of_records (m : gmap Z Slot) ks :
  List.map week (List.map (record_of m) ks) = ks.
Proof. induction ks; simpl; congruence. Qed.

Lemma strictly_sorted l :
  StronglySorted Z.le l -> NoDup l -> StronglySorted Z.lt l.
Proof.
  induction 1 as [|x l Hs IH Hx]; intros Hnd; constructor.
  - apply IH. now apply NoDup_cons_1_2 in Hnd.
  - apply NoDup_cons in Hnd as [Hnot _].
    rewrite Forall_forall in *. intros y Hy.
    assert (x <> y) by (intros ->; apply Hnot; now apply list_elem_of_In).
    specialize (Hx y Hy). lia.
Qed.

Lemma keys_strictly_sorted (m : gmap Z Slot) :
  StronglySorted Z.lt (sort_numeric (Object_keys m)).
Proof.
  unfold sort_numeric, Object_keys.
  apply strictly_sorted.
  - apply StronglySorted_merge_sort; apply _.
  - rewrite merge_sort_Permutation. apply NoDup_fst_map_to_list.
Qed.

Lemma addWeek_ok (m : gmap Z Slot) wk :
  nonneg_week wk -> slots_ok m -> slots_ok (addWeek m wk).
Proof.
  intros (Ha & Hd & Hc) Hm k s.
  destruct (all_zero wk) eqn:Hz.
  { rewrite addWeek_skip by assumption. apply Hm. }
  rewrite addWeek_lookup by assumption.
  destruct (decide (w wk = k)) as [_|_]; [|apply Hm].
  intros [= <-].
  assert (Hnz : ~ (a wk = 0 /\ d wk = 0 /\ c wk = 0)).
  { intros (E1 & E2 & E3). unfold all_zero in Hz.
    rewrite E1, E2, E3 in Hz. discriminate. }
  assert (Hs : let s := slot_or_zero (m !! w wk) in
               0 <= slot_a s /\ 0 <= slot_d s /\ 0 <= slot_c s).
  { destruct (m !! w wk) as [s|] eqn:E; simpl; [|lia].
    destruct (Hm _ _ E) as (? & ? & ? & _). auto. }
  simpl in Hs. unfold slot_ok, bump; simpl. lia.
Qed.

Lemma addWeeks_ok wks :
  Forall nonneg_week wks ->
  forall m, slots_ok m -> slots_ok (addWeeks m wks).
Proof.
  unfold addWeeks.
  induction 1 as [|wk wks Hwk _ IH]; intros m Hm; simpl; [assumption|].
  now apply IH, addWeek_ok.
Qed.

Lemma empty_ok : slots_ok ∅.
Proof. intros k s H. now rewrite lookup_empty in H. Qed.

Lemma buildLocData_series (m : gmap Z Slot) :
  buildLocData m = Returned (series_of m).
Proof. apply buildLocData_spec. Qed.

Lemma aggregate_series rs :
  aggregate rs = Returned (series_of (fold_left merge_result rs ∅)).
Proof. apply buildLocData_series. Qed.

Lemma series_totals (m : gmap Z Slot) : totals_match (series_of m).
Proof. unfold totals_match; simpl. tauto. Qed.

Lemma series_ascending (m : gmap Z Slot) :
  strictly_ascending (series_of m) /\
  NoDup (List.map week (weeklyData (series_of m))).
Proof.
  unfold strictly_ascending; simpl. rewrite week_of_records.
  split; [apply keys_strictly_sorted|].
  unfold sort_numeric, Object_keys.
  rewrite merge_sort_Permutation. apply NoDup_fst_map_to_list.
Qed.

Lemma series_no_zero (m : gmap Z Slot) :
  slots_ok m -> no_zero_record (series_of m).
Proof.
  intros Hok. unfold no_zero_record; simpl.
  rewrite Forall_forall. intros r Hr.
  apply list_elem_of_fmap in Hr as (k & -> & Hk).
  apply list_elem_of_In in Hk.
  destruct (keys_present m k Hk) as [s Hs].
  unfold record_of. rewrite Hs. simpl.
  destruct (Hok _ _ Hs) as (_ & _ & _ & Hnz). exact Hnz.
Qed.

Lemma merged_ok rs :
  Forall nonneg_week (flat_map weeks_of rs) ->
  slots_ok (fold_left merge_result rs ∅).
Proof.
  intros Hnn. rewrite merge_results_flat.
  apply addWeeks_ok; [assumption|apply empty_ok].
Qed.

(** ** Running the pipeline *)

Ltac run :=
  unfold try_catch, bind, ret, throw, emit, delay, settle, call_stats;
  simpl.

Lemma for_of_returns {A S} (body : S -> A -> M S) :
  (forall s x log, exists s' log', body s x log = (Returned s', log')) ->
  forall xs s log,
    exists s' log', for_of xs body s log = (Returned s', log').
Proof.
  intros Hbody. induction xs as [|x xs IH]; intros s log; simpl.
  - unfold ret. eauto.
  - unfold bind. destruct (Hbody s x log) as (s1 & log1 & ->). apply IH.
Qed.

Lemma fetchUserRepos_returns W u log :
  exists repos log', fetchUserRepos W u log = (Returned repos, log').
Proof.
  unfold fetchUserRepos. run.
  destruct (userRepos W u) as [[nodes|]|e]; eauto.
Qed.

Lemma fetchOrgRepos_returns W repos org log :
  exists repos' log', fetchOrgRepos W repos org log = (Returned repos', log').
Proof.
  unfold fetchOrgRepos. run.
  destruct (orgRepos W org) as [[nodes|]|e]; eauto.
Qed.

Lemma discover_returns W u orgs log :
  exists repos log', discover W u orgs log = (Returned repos, log').
Proof.
  unfold discover, bind.
  destruct (fetchUserRepos_returns W u log) as (r1 & l1 & ->).
  destruct (for_of_returns (fetchOrgRepos W) (fetchOrgRepos_returns W)
              (parse_orgs orgs) r1 l1) as (r2 & l2 & ->).
  unfold ret. eauto.
Qed.

Lemma from_world_nonneg W rs :
  world_nonneg W -> Forall (from_world W) rs ->
  Forall nonneg_week (flat_map weeks_of rs).
Proof.
  intros HW. induction 1 as [|r rs Hr _ IH]; simpl; [constructor|].
  apply Forall_app; split; [|assumption].
  destruct r as [[cb|]|e]; simpl; try constructor.
  destruct (Hr cb eq_refl) as (repo & n & st & cs & Hw & Hin).
  rewrite Forall_forall. intros wk Hwk. apply list_elem_of_In in Hwk.
  eapply HW; eauto.
Qed.

Lemma found_from_world W u repo n st cs :
  repoStats W repo n = Returned (mkStats st (ContributorArray cs)) ->
  from_world W (Returned (List.find (is_user u) cs)).
Proof.
  intros Hw cb [= Hf]. apply find_some in Hf as [Hin _].
  exists repo, n, st, cs. auto.
Qed.

Lemma fetchOneRepo_from_world W u repo log :
  from_world W (fst (Parallel.fetchOneRepo W u repo log)).
Proof.
  unfold Parallel.fetchOneRepo. run.
  destruct (repoStats W repo (stats_calls repo log)) as [[st1 b1]|e] eqn:E1;
    simpl; [|discriminate].
  destruct (st1 =? 202); simpl.
  - match goal with |- context [repoStats W repo ?n] =>
      destruct (repoStats W repo n) as [[st2 b2]|e] eqn:E2 end;
      simpl; [|discriminate].
    destruct b2; simpl; [discriminate|]. eapply found_from_world; eauto.
  - destruct b1; simpl; [discriminate|]. eapply found_from_world; eauto.
Qed.

Lemma settle_all_from_world W u repos :
  forall log,
    Forall (from_world W)
      (fst (Parallel.settle_all
              (List.map (Parallel.fetchOneRepo W u) repos) log)).
Proof.
  induction repos as [|repo repos IH]; intros log; simpl; [constructor|].
  pose proof (fetchOneRepo_from_world W u repo log) as H1.
  destruct (Parallel.fetchOneRepo W u repo log) as [o log1].
  specialize (IH log1).
  destruct (Parallel.settle_all _ log1) as [os log2].
  simpl in *. now constructor.
Qed.

Lemma repo_body_merge W u m repo log :
  exists r log',
    Sequential.repo_body W u m repo log = (Returned (merge_result m r), log')
    /\ from_world W r.
Proof.
  unfold Sequential.repo_body. run.
  destruct (repoStats W repo (stats_calls repo log)) as [[st1 b1]|e] eqn:E1;
    simpl.
  2:{ exists (Threw e). eexists. split; [reflexivity|discriminate]. }
  destruct (st1 =? 202); simpl.
  - match goal with |- context [repoStats W repo ?n] =>
      destruct (repoStats W repo n) as [[st2 b2]|e] eqn:E2 end; simpl.
    + destruct b2 as [|cs]; simpl.
      * exists (Returned None). eexists. split; [reflexivity|discriminate].
      * pose proof (found_from_world W u _ _ _ _ E2) as Hf.
        exists (Returned (List.find (is_user u) cs)).
        destruct (List.find (is_user u) cs); eexists;
          (split; [reflexivity|exact Hf]).
    + exists (Threw e). eexists. split; [reflexivity|discriminate].
  - destruct b1 as [|cs]; simpl.
    + exists (Returned None). eexists. split; [reflexivity|discriminate].
    + pose proof (found_from_world W u _ _ _ _ E1) as Hf.
      exists (Returned (List.find (is_user u) cs)).
      destruct (List.find (is_user u) cs); eexists;
        (split; [reflexivity|exact Hf]).
Qed.

Lemma repo_loop_merge W u repos :
  forall m log,
    exists rs log',
      for_of repos (Sequential.repo_body W u) m log
        = (Returned (fold_left merge_result rs m), log')
      /\ Forall (from_world W) rs.
Proof.
  induction repos as [|repo repos IH]; intros m log; simpl.
  - exists [], log. split; [reflexivity|constructor].
  - unfold bind.
    destruct (repo_body_merge W u m repo log) as (r & log1 & -> & Hr).
    destruct (IH (merge_result m r) log1) as (rs & log2 & -> & Hrs).
    exists (r :: rs), log2. split; [reflexivity|now constructor].
Qed.

(** Both revisions return the aggregate of the settled per-repository
    results, whatever the world answers. *)
Lemma sequential_aggregate W username orgs log :
  falsy username = false ->
  exists rs log',
    Sequential.fetchLoc W username orgs log = (aggregate rs, log') /\
    Forall (from_world W) rs.
Proof.
  intros Hu. unfold Sequential.fetchLoc. rewrite Hu. unfold bind.
  destruct (discover_returns W (default "" username) orgs log)
    as (repos & l1 & ->).
  destruct (repo_loop_merge W (default "" username) repos ∅ l1)
    as (rs & l2 & -> & Hrs).
  exists rs, l2. split; [reflexivity|assumption].
Qed.

Lemma parallel_aggregate W username orgs log :
  falsy username = false ->
  exists rs log',
    Parallel.fetchLoc W username orgs log = (aggregate rs, log') /\
    Forall (from_world W) rs.
Proof.
  intros Hu. unfold Parallel.fetchLoc. rewrite Hu. unfold bind.
  destruct (discover_returns W (default "" username) orgs log)
    as (repos & l1 & ->).
  unfold Parallel.allSettled.
  pose proof (settle_all_from_world W (default "" username) repos l1) as Hrs.
  destruct (Parallel.settle_all _ l1) as [rs l2]. simpl in Hrs.
  exists rs, l2. split; [reflexivity|assumption].
Qed.

(** ** Examples used as witnesses *)

Lemma ex_world_nonneg : world_nonneg ex_world.
Proof.
  intros repo n st cs cb wk Hw Hcb Hwk. simpl in Hw.
  destruct (String.eqb (name repo) "one"); [destruct n|];
    inversion Hw; subst; clear Hw; simpl in Hcb;
    repeat (destruct Hcb as [<-|Hcb]; simpl in Hwk);
    try contradiction;
    repeat (destruct Hwk as [<-|Hwk]);
    try contradiction; unfold nonneg_week; simpl; lia.
Qed.

(** ** The claims about the aggregation pipeline *)

(** C1. For every world (every sequence of per-repository contributor
    answers), the [LocData] that [fetchLoc] returns has [totalAdditions],
    [totalDeletions] and [totalCommits] equal to the sums of the
    corresponding field over [weeklyData], and [netLines] equal to
    [totalAdditions - totalDeletions]; this holds for the sequential and
    for the concurrent revision. *)
Theorem fetchLoc_totals_are_sums W username include_orgs log :
  falsy username = false ->
  (exists ld log',
     Sequential.fetchLoc W username include_orgs log = (Returned ld, log') /\
     totals_match ld) /\
  (exists ld log',
     Parallel.fetchLoc W username include_orgs log = (Returned ld, log') /\
     totals_match ld).
Proof.
  intros Hu. split.
  - destruct (sequential_aggregate W username include_orgs log Hu)
      as (rs & log' & -> & _).
    rewrite aggregate_series. eauto using series_totals.
  - destruct (parallel_aggregate W username include_orgs log Hu)
      as (rs & log' & -> & _).
    rewrite aggregate_series. eauto using series_totals.
Qed.

Lemma fetchLoc_totals_are_sums_witness :
  (exists ld log',
     Sequential.fetchLoc ex_world (Some "octo") (Some "a, b") []
       = (Returned ld, log') /\ totals_match ld) /\
  (exists ld log',
     Parallel.fetchLoc ex_world (Some "octo") (Some "a, b") []
       = (Returned ld, log') /\ totals_match ld).
Proof. apply fetchLoc_totals_are_sums. reflexivity. Defined.

(** C2. When every weekly counter the statistics endpoint reports is a
    non-negative integer, the [weeklyData] of the [LocData] returned by
    [fetchLoc] is strictly increasing by [week] (so no week occurs twice)
    and holds no record whose additions, deletions and commits are all
    zero. *)
Theorem fetchLoc_weeks_ascending_nonzero W username include_orgs log :
  falsy username = false ->
  world_nonneg W ->
  (exists ld log',
     Sequential.fetchLoc W username include_orgs log = (Returned ld, log') /\
     strictly_ascending ld /\ NoDup (List.map week (weeklyData ld)) /\
     no_zero_record ld) /\
  (exists ld log',
     Parallel.fetchLoc W username include_orgs log = (Returned ld, log') /\
     strictly_ascending ld /\ NoDup (List.map week (weeklyData ld)) /\
     no_zero_record ld).
Proof.
  intros Hu HW.
  assert (Hagg : forall rs, Forall (from_world W) rs ->
    exists ld, aggregate rs = Returned ld /\
      strictly_ascending ld /\ NoDup (List.map week (weeklyData ld)) /\
      no_zero_record ld).
  { intros rs Hrs. rewrite aggregate_series. eexists; split; [reflexivity|].
    destruct (series_ascending (fold_left merge_result rs ∅)) as [Hs Hn].
    repeat split; try assumption.
    apply series_no_zero, merged_ok. now apply (from_world_nonneg W). }
  split.
  - destruct (sequential_aggregate W username include_orgs log Hu)
      as (rs & log' & -> & Hrs).
    destruct (Hagg rs Hrs) as (ld & -> & H). eauto.
  - destruct (parallel_aggregate W username include_orgs log Hu)
      as (rs & log' & -> & Hrs).
    destruct (Hagg rs Hrs) as (ld & -> & H). eauto.
Qed.

Lemma fetchLoc_weeks_ascending_nonzero_witness :
  (exists ld log',
     Sequential.fetchLoc ex_world (Some "octo") None []
       = (Returned ld, log') /\
     strictly_ascending ld /\ NoDup (List.map week (weeklyData ld)) /\
     no_zero_record ld) /\
  (exists ld log',
     Parallel.fetchLoc ex_world (Some "octo") None []
       = (Returned ld, log') /\
     strictly_ascending ld /\ NoDup (List.map week (weeklyData ld)) /\
     no_zero_record ld).
Proof.
  apply fetchLoc_weeks_ascending_nonzero.
  - reflexivity.
  - exact ex_world_nonneg.
Defined.

(** C6. Merging is independent of the order of the per-repository results:
    for every list of settled results and every permutation of it,
    [aggregate] returns the same series (same [weeklyData], same totals);
    being a function of its input, it also returns the same series when run
    twice. *)
Theorem aggregate_order_independent rs1 rs2 :
  Permutation rs1 rs2 ->
  aggregate rs1 = aggregate rs2 /\
  exists ld, aggregate rs2 = Returned ld.
Proof.
  intros Hp. rewrite !aggregate_series. split; [|eauto].
  now rewrite (merge_results_perm rs1 rs2 ∅ Hp).
Qed.

Lemma aggregate_order_independent_witness :
  aggregate
    [Returned (Some (mkContributor (Some "octo") ex_weeks1));
     Threw RequestError;
     Returned (Some (mkContributor (Some "octo") ex_weeks2))]
  = aggregate
      [Threw RequestError;
       Returned (Some (mkContributor (Some "octo") ex_weeks1));
       Returned (Some (mkContributor (Some "octo") ex_weeks2))]
  /\ exists ld,
       aggregate
         [Threw RequestError;
          Returned (Some (mkContributor (Some "octo") ex_weeks1));
          Returned (Some (mkContributor (Some "octo") ex_weeks2))]
       = Returned ld.
Proof. apply aggregate_order_independent. apply perm_swap. Defined.

(** ** Retrying a repository whose statistics are still being computed *)

Lemma repo_eqb_refl r : repo_eqb r r = true.
Proof. unfold repo_eqb. now rewrite !String.eqb_refl. Qed.

Lemma stats_calls_call r log :
  stats_calls r (log ++ [CallRepoStats r]) = S (stats_calls r log).
Proof.
  unfold stats_calls. rewrite List.filter_app, length_app. simpl.
  rewrite repo_eqb_refl. simpl. lia.
Qed.

Lemma stats_calls_delay r log ms :
  stats_calls r (log ++ [Delay ms]) = stats_calls r log.
Proof.
  unfold stats_calls. rewrite List.filter_app, length_app. simpl. lia.
Qed.

(** C5. When the first statistics answer for a repository carries status
    202, the collector waits once for a fixed delay and asks again exactly
    once: the run adds one call, one delay and one more call to the log,
    nothing else.  When the second answer is not a list either, the
    repository adds nothing to [weeklyMap], and no error comes out: the
    concurrent task is fulfilled with [null], the sequential loop body
    returns the map unchanged. *)
Theorem computing_signal_retried_once W u repo log body1 :
  repoStats W repo (stats_calls repo log) = Returned (mkStats 202 body1) ->
  (exists o,
     Parallel.fetchOneRepo W u repo log
       = (o, log ++ [CallRepoStats repo; Delay 1500; CallRepoStats repo]) /\
     forall st,
       repoStats W repo (S (stats_calls repo log))
         = Returned (mkStats st NotArray) ->
       o = Returned None /\ forall m, merge_result m o = m) /\
  (forall m, exists m',
     Sequential.repo_body W u m repo log
       = (Returned m',
          log ++ [CallRepoStats repo; Delay 2000; CallRepoStats repo]) /\
     forall st,
       repoStats W repo (S (stats_calls repo log))
         = Returned (mkStats st NotArray) ->
       m' = m).
Proof.
  intros H1. split.
  - unfold Parallel.fetchOneRepo. run. rewrite H1. simpl.
    rewrite stats_calls_delay, stats_calls_call.
    rewrite <- !app_assoc. simpl.
    destruct (repoStats W repo (S (stats_calls repo log)))
      as [[st2 b2]|e] eqn:E2; simpl.
    + destruct b2 as [|cs]; simpl; eexists; (split; [reflexivity|]).
      * intros st _. split; reflexivity.
      * intros st [=].
    + eexists; split; [reflexivity|]. intros st [=].
  - intros m. unfold Sequential.repo_body. run. rewrite H1. simpl.
    rewrite stats_calls_delay, stats_calls_call.
    rewrite <- !app_assoc. simpl.
    destruct (repoStats W repo (S (stats_calls repo log)))
      as [[st2 b2]|e] eqn:E2; simpl.
    + destruct b2 as [|cs]; simpl.
      * eexists; split; [reflexivity|]. reflexivity.
      * destruct (List.find (is_user u) cs); simpl;
          eexists; (split; [reflexivity|]); intros st [=].
    + eexists; split; [reflexivity|]. reflexivity.
Qed.

Lemma computing_signal_retried_once_witness :
  (exists o,
     Parallel.fetchOneRepo ex_busy_world "octo" (mkRepo "octo" "one") []
       = (o, [] ++ [CallRepoStats (mkRepo "octo" "one"); Delay 1500;
                    CallRepoStats (mkRepo "octo" "one")]) /\
     forall st,
       repoStats ex_busy_world (mkRepo "octo" "one")
         (S (stats_calls (mkRepo "octo" "one") []))
         = Returned (mkStats st NotArray) ->
       o = Returned None /\ forall m, merge_result m o = m) /\
  (forall m, exists m',
     Sequential.repo_body ex_busy_world "octo" m (mkRepo "octo" "one") []
       = (Returned m',
          [] ++ [CallRepoStats (mkRepo "octo" "one"); Delay 2000;
                 CallRepoStats (mkRepo "octo" "one")]) /\
     forall st,
       repoStats ex_busy_world (mkRepo "octo" "one")
         (S (stats_calls (mkRepo "octo" "one") []))
         = Returned (mkStats st NotArray) ->
       m' = m).
Proof.
  apply (computing_signal_retried_once ex_busy_world "octo"
           (mkRepo "octo" "one") [] NotArray).
  reflexivity.
Defined.

(** ** The scale the renderers compute *)

Lemma or_one_nonzero x : or_one x <> 0.
Proof. unfold or_one. destruct (x =? 0) eqn:E; lia. Qed.

Lemma computeScale_returns pts :
  pts <> [] ->
  exists sc,
    computeScale pts = Returned sc /\ points sc = pts /\ ranges_guarded sc.
Proof.
  intros Hne. unfold computeScale, week_at.
  destruct pts as [|p0 pts']; [contradiction|].
  cbn [nth_error].
  destruct (nth_error (p0 :: pts') (length (p0 :: pts') - 1)) as [pl|] eqn:El.
  - eexists; split; [reflexivity|]. unfold ranges_guarded; simpl.
    repeat split; try reflexivity; apply or_one_nonzero.
  - apply nth_error_None in El. simpl in El. lia.
Qed.

Lemma visible_nonempty now months allPoints :
  allPoints <> [] -> Windowed.visible now months allPoints <> [].
Proof.
  intros Hne. unfold Windowed.visible.
  destruct (Windowed.months_set months) as [m|]; [|assumption].
  destruct (List.filter (Windowed.in_window now m) allPoints) eqn:E; simpl;
    [assumption|discriminate].
Qed.

Lemma weekly_empty_dec (data : LocData) :
  ((length (weeklyData data) =? 0)%nat = true /\ weeklyData data = []) \/
  ((length (weeklyData data) =? 0)%nat = false /\ weeklyData data <> []).
Proof. destruct (weeklyData data); simpl; [left|right]; now split. Qed.

Lemma cumulate_nonempty ws c0 : ws <> [] -> cumulate c0 ws <> [].
Proof. destruct ws; [contradiction|discriminate]. Qed.

Lemma cumulative_render_returns data options :
  exists r,
    Cumulative.renderLocChart data options = Returned r /\
    cumulative_result data
      (default "0D1117" (Cumulative.bg_color options))
      (default "E6EDF3" (Cumulative.text_color options)) r.
Proof.
  unfold Cumulative.renderLocChart.
  destruct (weekly_empty_dec data) as [[-> He]|[-> Hne]].
  - eexists; split; [reflexivity|]. now split.
  - destruct (computeScale_returns (cumulate 0 (weeklyData data)))
      as (sc & -> & Hp & Hg); [now apply cumulate_nonempty|].
    eexists; split; [reflexivity|]. simpl. rewrite Hp.
    repeat split; try assumption; try apply Hg.
    now apply cumulate_nonempty.
Qed.

Lemma windowed_render_returns colors now data options :
  exists r,
    Windowed.renderLocChart colors now data options = Returned r /\
    cumulative_result data (Windowed.bg_of colors)
      (strip_hash (Windowed.textColor colors)) r.
Proof.
  unfold Windowed.renderLocChart.
  destruct (weekly_empty_dec data) as [[-> He]|[-> Hne]].
  - eexists; split; [reflexivity|]. now split.
  - assert (Hv : Windowed.visible now (Windowed.months options)
                   (cumulate 0 (weeklyData data)) <> []).
    { now apply visible_nonempty, cumulate_nonempty. }
    destruct (computeScale_returns _ Hv) as (sc & -> & Hp & Hg).
    eexists; split; [reflexivity|]. simpl. rewrite Hp.
    repeat split; try assumption; apply Hg.
Qed.

Lemma Math_max_ge xs x0 : x0 <= Math_max xs x0.
Proof. unfold Math_max. induction xs; simpl; lia. Qed.

Lemma monthly_render_returns calendar colors data options :
  exists r,
    Monthly.renderLocChart calendar colors data options = Returned r /\
    bars_result data (Windowed.bg_of colors)
      (strip_hash (Windowed.textColor colors)) r.
Proof.
  unfold Monthly.renderLocChart.
  destruct (weekly_empty_dec data) as [[-> He]|[-> Hne]].
  - eexists; split; [reflexivity|]. now split.
  - destruct (Monthly.visibleMonths calendar (Windowed.months options)
                (weeklyData data)) as [|e md] eqn:E; simpl.
    + eexists; split; [reflexivity|]. split; [contradiction|reflexivity].
    + eexists; split; [reflexivity|]. split; [contradiction|].
      simpl.
      pose proof (Math_max_ge
        (Monthly.m_additions e :: List.map Monthly.m_additions md) 1) as Ha.
      pose proof (Math_max_ge
        (Monthly.m_deletions e :: List.map Monthly.m_deletions md) 1) as Hd.
      simpl in Ha, Hd.
      repeat split; try assumption; try discriminate; lia.
Qed.

Lemma noDataSvg_canvas bg text :
  String.prefix
    ("<svg width=" +:+ dq +:+ "850" +:+ dq +:+ " height=" +:+ dq +:+ "300"
     +:+ dq)
    (noDataSvg bg text) = true.
Proof. reflexivity. Qed.

(** ** The months window *)

Lemma cutoff_seconds now m :
  (Windowed.cutoff now m == inject_Z now / 1000 - inject_Z (m * 30 * 86400))%Q.
Proof. unfold Windowed.cutoff. rewrite !inject_Z_mult. reflexivity. Qed.

Lemma in_window_iff now m p :
  Windowed.in_window now m p = true <->
  (inject_Z now / 1000 - inject_Z (m * 30 * 86400) <= inject_Z (p_week p))%Q.
Proof.
  unfold Windowed.in_window. rewrite Qle_bool_iff, cutoff_seconds. reflexivity.
Qed.

Lemma months_set_pos m : 0 < m -> Windowed.months_set (Some m) = Some m.
Proof.
  intros H. unfold Windowed.months_set.
  destruct (m =? 0) eqn:E0; [lia|].
  destruct (m >? 0) eqn:E1; [reflexivity|lia].
Qed.

(** C7. With a months option [m > 0] the windowed cumulative renderer plots
    exactly the points whose week is at least [now - m * 30 * 86400]
    seconds ([now] being [Date.now() / 1000]), in their order; when no point
    passes, it plots the full series instead, so a non-empty series never
    yields an empty point set. *)
Theorem window_keeps_recent_points colors now m data hide title :
  0 < m ->
  weeklyData data <> [] ->
  let allPoints := cumulate 0 (weeklyData data) in
  let recent := List.filter (Windowed.in_window now m) allPoints in
  (forall p,
     In p recent <->
     In p allPoints /\
     (inject_Z now / 1000 - inject_Z (m * 30 * 86400)
      <= inject_Z (p_week p))%Q) /\
  exists sc,
    Windowed.renderLocChart colors now data
      (Windowed.mkOptions (Some m) hide title) = Returned (ChartImage sc) /\
    (recent <> [] -> points sc = recent) /\
    (recent = [] -> points sc = allPoints) /\
    points sc <> [].
Proof.
  intros Hm Hne allPoints recent. split.
  - intros p. unfold recent. rewrite List.filter_In, in_window_iff. reflexivity.
  - unfold Windowed.renderLocChart.
    destruct (weekly_empty_dec data) as [[_ He]|[-> _]]; [contradiction|].
    simpl Windowed.months.
    assert (Hall : allPoints <> []) by now apply cumulate_nonempty.
    assert (Hv : Windowed.visible now (Some m) allPoints
                 = match recent with [] => allPoints | _ => recent end).
    { unfold Windowed.visible. rewrite months_set_pos by assumption.
      fold recent. now destruct recent. }
    fold allPoints. rewrite Hv.
    destruct recent as [|p0 rest] eqn:Er.
    + destruct (computeScale_returns allPoints Hall) as (sc & -> & Hp & _).
      exists sc. rewrite Hp. repeat split; auto. intros H; contradiction.
    + destruct (computeScale_returns (p0 :: rest)) as (sc & -> & Hp & _);
        [discriminate|].
      exists sc. rewrite Hp. repeat split; auto; discriminate.
Qed.

Lemma window_keeps_recent_points_witness :
  let allPoints := cumulate 0 (weeklyData ex_series) in
  let recent := List.filter (Windowed.in_window ex_now 1) allPoints in
  (forall p,
     In p recent <->
     In p allPoints /\
     (inject_Z ex_now / 1000 - inject_Z (1 * 30 * 86400)
      <= inject_Z (p_week p))%Q) /\
  exists sc,
    Windowed.renderLocChart ex_colors ex_now ex_series
      (Windowed.mkOptions (Some 1) true None) = Returned (ChartImage sc) /\
    (recent <> [] -> points sc = recent) /\
    (recent = [] -> points sc = allPoints) /\
    points sc <> [].
Proof.
  apply (window_keeps_recent_points ex_colors ex_now 1 ex_series true None).
  - lia.
  - discriminate.
Defined.

(** ** The plotted running total *)

Lemma cumulate_weeks ws : forall c0,
  List.map p_week (cumulate c0 ws) = List.map week ws.
Proof. induction ws; intros c0; simpl; [reflexivity|]. now rewrite IHws. Qed.

Lemma cumulate_nets ws : forall c0,
  List.map point_net (cumulate c0 ws) = List.map net ws.
Proof.
  induction ws; intros c0; simpl; [reflexivity|].
  rewrite IHws. reflexivity.
Qed.

Lemma cumulate_value ws : forall c0 i p,
  nth_error (cumulate c0 ws) i = Some p ->
  value p = c0 + Zsum (List.map net (firstn (S i) ws)).
Proof.
  induction ws as [|r ws IH]; intros c0 i p H.
  - destruct i; discriminate.
  - destruct i as [|i]; simpl in H.
    + injection H as <-. simpl. unfold net. destruct ws; simpl; lia.
    + apply IH in H. rewrite H.
      change (firstn (S (S i)) (r :: ws)) with (r :: firstn (S i) ws).
      simpl. unfold net at 2. lia.
Qed.

Lemma cumulate_skipn k : forall ws c0,
  skipn k (cumulate c0 ws)
  = cumulate (c0 + Zsum (List.map net (firstn k ws))) (skipn k ws).
Proof.
  induction k as [|k IH]; intros ws c0; simpl.
  - now rewrite Z.add_0_r.
  - destruct ws as [|r ws]; simpl; [reflexivity|].
    rewrite IH. f_equal. unfold net at 2. lia.
Qed.

Lemma filter_all_true {A} (f : A -> bool) l :
  (forall x, In x l -> f x = true) -> List.filter f l = l.
Proof.
  induction l as [|x l IH]; intros H; simpl; [reflexivity|].
  rewrite (H x (or_introl eq_refl)). f_equal. apply IH. intros; apply H.
  now right.
Qed.

(** On a series in ascending order, a threshold filter keeps a suffix. *)
Lemma filter_keeps_suffix (f : Point -> bool) l :
  (forall x y, f x = true -> p_week x < p_week y -> f y = true) ->
  StronglySorted Z.lt (List.map p_week l) ->
  exists k, List.filter f l = skipn k l.
Proof.
  intros Hmono. induction l as [|x l IH]; intros Hs; simpl.
  - exists O. reflexivity.
  - simpl in Hs. apply StronglySorted_inv in Hs as [Hs Hx].
    destruct (f x) eqn:Efx.
    + exists O. simpl. f_equal. apply filter_all_true.
      intros y Hy. apply (Hmono x y Efx).
      rewrite Forall_forall in Hx. apply Hx.
      apply list_elem_of_In. now apply in_map.
    + destruct (IH Hs) as [k Hk]. exists (S k). exact Hk.
Qed.

Lemma in_window_mono now m x y :
  Windowed.in_window now m x = true -> p_week x < p_week y ->
  Windowed.in_window now m y = true.
Proof.
  rewrite !in_window_iff. intros Hx Hlt.
  eapply Qle_trans; [exact Hx|]. rewrite <- Zle_Qle. lia.
Qed.

Lemma visible_is_suffix now months ws :
  StronglySorted Z.lt (List.map week ws) ->
  exists k,
    Windowed.visible now months (cumulate 0 ws) = skipn k (cumulate 0 ws).
Proof.
  intros Hs. unfold Windowed.visible.
  destruct (Windowed.months_set months) as [m|]; [|now exists O].
  destruct (filter_keeps_suffix (Windowed.in_window now m) (cumulate 0 ws))
    as [k Hk].
  - apply in_window_mono.
  - now rewrite cumulate_weeks.
  - rewrite Hk. destruct (skipn k (cumulate 0 ws)) eqn:E; simpl.
    + now exists O.
    + exists k. now rewrite E.
Qed.

(** The counterexample to C8 as worded: with a one-month window on a
    three-week series whose first week lies outside the window, the first
    visible point is plotted at 120, not at the 40 its own week adds. *)
Lemma visible_sum_counterexample :
  exists sc,
    Windowed.renderLocChart ex_colors ex_now ex_series
      (Windowed.mkOptions (Some 1) true None) = Returned (ChartImage sc) /\
    List.map value (points sc) = [120; 118] /\
    ~ sums_visible_only (points sc).
Proof.
  eexists. split; [reflexivity|]. split; [reflexivity|].
  intros H. specialize (H O _ eq_refl). vm_compute in H. discriminate.
Qed.

(** C8, amended.  The running net-lines total is built over the full series
    and the window is cut out of it afterwards: on a series in ascending
    order the visible points are the full series without its first
    [hidden] points, and the [i]-th visible point is plotted at the net
    total of the hidden records plus the sum of [additions - deletions]
    over the visible points up to and including it.  When nothing is
    hidden this is the sum over the visible points alone. *)
Theorem visible_values_keep_baseline colors now data options :
  strictly_ascending data ->
  weeklyData data <> [] ->
  exists sc hidden,
    Windowed.renderLocChart colors now data options
      = Returned (ChartImage sc) /\
    points sc = skipn hidden (cumulate 0 (weeklyData data)) /\
    (forall i p,
       nth_error (points sc) i = Some p ->
       value p
       = Zsum (List.map net (firstn hidden (weeklyData data)))
         + Zsum (List.map point_net (firstn (S i) (points sc)))) /\
    (hidden = O -> sums_visible_only (points sc)).
Proof.
  intros Hs Hne. unfold Windowed.renderLocChart.
  destruct (weekly_empty_dec data) as [[_ He]|[-> _]]; [contradiction|].
  destruct (visible_is_suffix now (Windowed.months options)
              (weeklyData data) Hs) as [k Hk].
  destruct (computeScale_returns
              (Windowed.visible now (Windowed.months options)
                 (cumulate 0 (weeklyData data)))) as (sc & -> & Hp & _).
  { now apply visible_nonempty, cumulate_nonempty. }
  exists sc, k. split; [reflexivity|]. rewrite Hp, Hk.
  assert (Hval : forall i p,
    nth_error (skipn k (cumulate 0 (weeklyData data))) i = Some p ->
    value p
    = Zsum (List.map net (firstn k (weeklyData data)))
      + Zsum (List.map point_net
                (firstn (S i) (skipn k (cumulate 0 (weeklyData data)))))).
  { intros i p Hi. rewrite cumulate_skipn in Hi |- *.
    apply cumulate_value in Hi. rewrite Hi.
    rewrite <- (firstn_map point_net), cumulate_nets, firstn_map. lia. }
  split; [reflexivity|]. split; [exact Hval|].
  intros -> i p Hi. rewrite (Hval i p Hi). simpl. lia.
Qed.

Lemma ex_series_ascending : strictly_ascending ex_series.
Proof. unfold strictly_ascending; simpl. repeat constructor; lia. Qed.

Lemma visible_values_keep_baseline_witness :
  exists sc hidden,
    Windowed.renderLocChart ex_colors ex_now ex_series
      (Windowed.mkOptions (Some 1) true None) = Returned (ChartImage sc) /\
    points sc = skipn hidden (cumulate 0 (weeklyData ex_series)) /\
    (forall i p,
       nth_error (points sc) i = Some p ->
       value p
       = Zsum (List.map net (firstn hidden (weeklyData ex_series)))
         + Zsum (List.map point_net (firstn (S i) (points sc)))) /\
    (hidden = O -> sums_visible_only (points sc)).
Proof.
  apply visible_values_keep_baseline.
  - exact ex_series_ascending.
  - discriminate.
Defined.

(** ** The baseline of the bar chart *)

Lemma floored_peak x rest :
  Math_max (x :: rest) 1 = Z.max 1 (Monthly.peak (x :: rest)).
Proof.
  unfold Math_max, Monthly.peak. simpl. revert x.
  induction rest as [|y rest IH]; intros x; simpl; [lia|].
  specialize (IH x). lia.
Qed.

(** The counterexample to C9 as worded: one visible month with no addition
    and one deleted line.  The code floors both peaks at 1, so the baseline
    sits in the middle of the chart area (150); the formula over the true
    peaks puts it at the top (50). *)
Lemma baseline_counterexample :
  exists sc,
    Monthly.renderLocChart Monthly.utc_calendar ex_colors ex_deletions_only
      (Windowed.mkOptions None true None) = Returned (Monthly.BarsImage sc) /\
    (Monthly.baselineY sc == 150)%Q /\
    (Monthly.spec_baselineY (Monthly.monthlyData sc) == 50)%Q /\
    ~ baseline_from_true_peaks sc.
Proof.
  eexists. split; [reflexivity|].
  split; [reflexivity|]. split; [reflexivity|].
  unfold baseline_from_true_peaks. vm_compute. discriminate.
Qed.

(** C9, amended.  For every non-empty visible month set the baseline is
    [padding.top + chartH * (A / (A + D))] where [A] and [D] are the peak
    monthly additions and deletions, each raised to at least 1; it is the
    formula over the true peaks whenever both peaks are at least 1. *)
Theorem baseline_uses_floored_peaks (md : list Monthly.MonthEntry) :
  md <> [] ->
  let A := Z.max 1 (Monthly.peak (List.map Monthly.m_additions md)) in
  let D := Z.max 1 (Monthly.peak (List.map Monthly.m_deletions md)) in
  Monthly.maxAdd (Monthly.scaleBars md) = A /\
  Monthly.maxDel (Monthly.scaleBars md) = D /\
  (Monthly.baselineY (Monthly.scaleBars md)
   == inject_Z (top padding)
      + inject_Z chartH * (inject_Z A / (inject_Z A + inject_Z D)))%Q /\
  (1 <= Monthly.peak (List.map Monthly.m_additions md) ->
   1 <= Monthly.peak (List.map Monthly.m_deletions md) ->
   baseline_from_true_peaks (Monthly.scaleBars md)).
Proof.
  intros Hne A D. destruct md as [|e md]; [contradiction|].
  assert (HA : Monthly.maxAdd (Monthly.scaleBars (e :: md)) = A).
  { unfold A. simpl. apply floored_peak. }
  assert (HD : Monthly.maxDel (Monthly.scaleBars (e :: md)) = D).
  { unfold D. simpl. apply floored_peak. }
  split; [exact HA|]. split; [exact HD|].
  assert (HB : (Monthly.baselineY (Monthly.scaleBars (e :: md))
                == inject_Z (top padding)
                   + inject_Z chartH
                     * (inject_Z A / (inject_Z A + inject_Z D)))%Q).
  { change (Monthly.baselineY (Monthly.scaleBars (e :: md)))
      with (inject_Z (top padding)
            + inject_Z chartH
              * (inject_Z (Monthly.maxAdd (Monthly.scaleBars (e :: md)))
                 / (inject_Z (Monthly.maxAdd (Monthly.scaleBars (e :: md)))
                    + inject_Z
                        (Monthly.maxDel (Monthly.scaleBars (e :: md))))))%Q.
    rewrite HA, HD. reflexivity. }
  split; [exact HB|].
  intros H1 H2. unfold baseline_from_true_peaks. rewrite HB.
  unfold Monthly.spec_baselineY. cbn [Monthly.monthlyData Monthly.scaleBars].
  unfold A, D. rewrite !Z.max_r by assumption. reflexivity.
Qed.

Lemma baseline_uses_floored_peaks_witness :
  let A := Z.max 1 (Monthly.peak (List.map Monthly.m_additions ex_months)) in
  let D := Z.max 1 (Monthly.peak (List.map Monthly.m_deletions ex_months)) in
  Monthly.maxAdd (Monthly.scaleBars ex_months) = A /\
  Monthly.maxDel (Monthly.scaleBars ex_months) = D /\
  (Monthly.baselineY (Monthly.scaleBars ex_months)
   == inject_Z (top padding)
      + inject_Z chartH * (inject_Z A / (inject_Z A + inject_Z D)))%Q /\
  (1 <= Monthly.peak (List.map Monthly.m_additions ex_months) ->
   1 <= Monthly.peak (List.map Monthly.m_deletions ex_months) ->
   baseline_from_true_peaks (Monthly.scaleBars ex_months)).
Proof. apply baseline_uses_floored_peaks. discriminate. Defined.

(** ** The compact number formatters *)

Lemma last_char_cons ch s :
  s <> EmptyString -> last_char (String ch s) = last_char s.
Proof. destruct s; [contradiction|reflexivity]. Qed.

Lemma last_char_app s t :
  t <> EmptyString -> last_char (s +:+ t) = last_char t.
Proof.
  intros Ht. induction s as [|ch s IH]; simpl; [reflexivity|].
  destruct (s +:+ t) eqn:E; [|exact IH].
  destruct s; simpl in E; [contradiction|discriminate].
Qed.

Lemma digits_aux_last fuel : forall n acc,
  acc <> EmptyString -> last_char (digits_aux fuel n acc) = last_char acc.
Proof.
  induction fuel as [|fuel IH]; intros n acc Hacc; simpl; [reflexivity|].
  destruct (n / 10 =? 0).
  - now apply last_char_cons.
  - rewrite IH by discriminate. now apply last_char_cons.
Qed.

Lemma digits_last n : last_char (digits n) = Some (digit_char (n mod 10)).
Proof.
  unfold digits. simpl. destruct (n / 10 =? 0); [reflexivity|].
  now rewrite digits_aux_last by discriminate.
Qed.

Lemma digits_nonempty n : digits n <> EmptyString.
Proof.
  intros H. pose proof (digits_last n) as Hl. rewrite H in Hl. discriminate.
Qed.

Lemma toString_last n :
  last_char (toString n) = Some (digit_char (Z.abs n mod 10)).
Proof.
  unfold toString. destruct (Z.ltb_spec n 0) as [Hn|Hn].
  - rewrite last_char_app by apply digits_nonempty.
    rewrite digits_last. now rewrite <- Z.abs_neq by lia.
  - rewrite digits_last. now rewrite Z.abs_eq by lia.
Qed.

Lemma digit_char_code k :
  0 <= k < 10 -> nat_of_ascii (digit_char k) = (48 + Z.to_nat k)%nat.
Proof. intros H. unfold digit_char. apply nat_ascii_embedding. lia. Qed.

Lemma digit_not_suffix k :
  0 <= k < 10 -> digit_char k <> "M"%char /\ digit_char k <> "K"%char.
Proof.
  intros H. pose proof (digit_char_code k H) as Hc.
  split; intros E; rewrite E in Hc.
  - change (nat_of_ascii "M") with 77%nat in Hc. lia.
  - change (nat_of_ascii "K") with 75%nat in Hc. lia.
Qed.

Lemma plain_no_suffix n :
  last_char (toString n) <> Some "M"%char /\
  last_char (toString n) <> Some "K"%char.
Proof.
  rewrite toString_last.
  destruct (digit_not_suffix (Z.abs n mod 10)) as [HM HK].
  { apply Z.mod_pos_bound. lia. }
  split; intros [= E]; auto.
Qed.

Lemma formatNum_cases n :
  (1000000 <= n /\
   formatNum n = toFixed1 (inject_Z n / 1000000) +:+ "M") \/
  (1000 <= n < 1000000 /\
   formatNum n = toFixed1 (inject_Z n / 1000) +:+ "K") \/
  (n < 1000 /\ formatNum n = toString n).
Proof.
  unfold formatNum.
  destruct (n >=? 1000000) eqn:E1; [left; split; [lia|reflexivity]|].
  destruct (n >=? 1000) eqn:E2; right; [left|right]; (split; [lia|reflexivity]).
Qed.

Lemma monthly_formatNum_cases n :
  (1000000 <= Z.abs n /\
   Monthly.formatNum n = toFixed1 (inject_Z n / 1000000) +:+ "M") \/
  (1000 <= Z.abs n < 1000000 /\
   Monthly.formatNum n = toFixed1 (inject_Z n / 1000) +:+ "K") \/
  (Z.abs n < 1000 /\ Monthly.formatNum n = toString n).
Proof.
  unfold Monthly.formatNum. cbv zeta.
  destruct (Z.abs n >=? 1000000) eqn:E1; [left; split; [lia|reflexivity]|].
  destruct (Z.abs n >=? 1000) eqn:E2; right; [left|right];
    (split; [lia|reflexivity]).
Qed.

(** C10. The cumulative renderers' [formatNum] ends in [M] exactly for
    values of at least 1000000 and in [K] exactly for values from 1000 up
    to 999999; every value below 1000, hence every negative value whatever
    its magnitude, is printed as its plain decimal string
    ([-1500000] as [-1500000]).  The bar chart's [formatNum] decides by the
    absolute value and so prints [-1500000] as [-1.5M]. *)
Theorem formatNum_negative_values :
  (forall n, last_char (formatNum n) = Some "M"%char <-> 1000000 <= n) /\
  (forall n,
     last_char (formatNum n) = Some "K"%char <-> 1000 <= n < 1000000) /\
  (forall n, n < 1000 -> formatNum n = toString n) /\
  formatNum (-1500000) = "-1500000" /\
  (forall n,
     last_char (Monthly.formatNum n) = Some "M"%char
     <-> 1000000 <= Z.abs n) /\
  (forall n,
     last_char (Monthly.formatNum n) = Some "K"%char
     <-> 1000 <= Z.abs n < 1000000) /\
  Monthly.formatNum (-1500000) = "-1.5M".
Proof.
  assert (HM : forall s, last_char (s +:+ "M") = Some "M"%char).
  { intros s. now rewrite last_char_app. }
  assert (HK : forall s, last_char (s +:+ "K") = Some "K"%char).
  { intros s. now rewrite last_char_app. }
  split; [|split; [|split; [|split; [|split; [|split]]]]].
  - intros n. pose proof (plain_no_suffix n) as [P1 P2].
    destruct (formatNum_cases n) as [[H ->]|[[H ->]|[H ->]]].
    + rewrite HM. tauto.
    + rewrite HK. split; [discriminate|lia].
    + split; [intros E; contradiction|lia].
  - intros n. pose proof (plain_no_suffix n) as [P1 P2].
    destruct (formatNum_cases n) as [[H ->]|[[H ->]|[H ->]]].
    + rewrite HM. split; [discriminate|lia].
    + rewrite HK. tauto.
    + split; [intros E; contradiction|lia].
  - intros n H. destruct (formatNum_cases n) as [[H1 _]|[[H1 _]|[_ E]]];
      [lia|lia|exact E].
  - reflexivity.
  - intros n. pose proof (plain_no_suffix n) as [P1 P2].
    destruct (monthly_formatNum_cases n) as [[H ->]|[[H ->]|[H ->]]].
    + rewrite HM. tauto.
    + rewrite HK. split; [discriminate|lia].
    + split; [intros E; contradiction|lia].
  - intros n. pose proof (plain_no_suffix n) as [P1 P2].
    destruct (monthly_formatNum_cases n) as [[H ->]|[[H ->]|[H ->]]].
    + rewrite HM. split; [discriminate|lia].
    + rewrite HK. tauto.
    + split; [intros E; contradiction|lia].
  - reflexivity.
Qed.

(** * Further properties of the pipeline *)

(** ** Deduplication *)

Lemma dedupe_fresh repos : forall seen r,
  In r (dedupe seen repos) -> (repo_key r ∉ seen) /\ In r repos.
Proof.
  induction repos as [|x rest IH]; intros seen r Hin; simpl in *.
  - contradiction.
  - destruct (decide (repo_key x ∈ seen)) as [Hx|Hx].
    + apply IH in Hin as [? ?]. auto.
    + destruct Hin as [<-|Hin]; [auto|].
      apply IH in Hin as [Hk ?]. split; [set_solver|auto].
Qed.

Lemma dedupe_keys_nodup repos : forall seen,
  NoDup (List.map repo_key (dedupe seen repos)).
Proof.
  induction repos as [|x rest IH]; intros seen; simpl.
  - constructor.
  - destruct (decide (repo_key x ∈ seen)) as [Hx|Hx]; [apply IH|].
    simpl. constructor; [|apply IH].
    intros Hin. apply list_elem_of_In, in_map_iff in Hin as (r & Hk & Hr).
    apply dedupe_fresh in Hr as [Hr _]. rewrite Hk in Hr. set_solver.
Qed.

Lemma dedupe_sublist repos : forall seen, sublist (dedupe seen repos) repos.
Proof.
  induction repos as [|x rest IH]; intros seen; simpl.
  - constructor.
  - destruct (decide (repo_key x ∈ seen)).
    + apply sublist_cons, IH.
    + apply sublist_skip, IH.
Qed.

Lemma dedupe_first repos : forall seen r,
  In r (dedupe seen repos) <->
  (repo_key r ∉ seen) /\
  List.find (fun x => String.eqb (repo_key x) (repo_key r)) repos = Some r.
Proof.
  induction repos as [|x rest IH]; intros seen r; simpl.
  - split; [contradiction|intros [_ [=]]].
  - destruct (String.eqb_spec (repo_key x) (repo_key r)) as [E|E];
      destruct (decide (repo_key x ∈ seen)) as [Hx|Hx]; simpl.
    + rewrite IH. split.
      * intros [Hr _]. rewrite <- E in Hr. contradiction.
      * intros [Hr _]. rewrite <- E in Hr. contradiction.
    + rewrite IH. split.
      * intros [<-|[Hr _]]; [auto|]. rewrite <- E in Hr. set_solver.
      * intros [_ [= ->]]. now left.
    + apply IH.
    + rewrite IH. split.
      * intros [->|[Hr Hf]]; [contradiction|]. split; [set_solver|auto].
      * intros [Hr Hf]. right. split; [|auto].
        assert (repo_key r <> repo_key x) by congruence. set_solver.
Qed.

(** X1. Deduplication keeps, for every [owner/name] key, exactly the first
    repository that carries it: the result is a sub-list of the input in the
    input's order, no two kept repositories share a key, and a repository is
    kept if and only if it is the first one of the input with its key. *)
Theorem dedupe_keeps_first_of_each_key (repos : list RepoRef) :
  sublist (dedupe ∅ repos) repos /\
  NoDup (List.map repo_key (dedupe ∅ repos)) /\
  forall r,
    In r (dedupe ∅ repos) <->
    List.find (fun x => String.eqb (repo_key x) (repo_key r)) repos = Some r.
Proof.
  split; [apply dedupe_sublist|]. split; [apply dedupe_keys_nodup|].
  intros r. rewrite dedupe_first. split; [tauto|]. split; [set_solver|auto].
Qed.

(** ** Discovery *)

Lemma org_loop W orgs : forall repos log,
  for_of orgs (fetchOrgRepos W) repos log
  = (Returned (repos ++ flat_map (org_nodes W) orgs),
     log ++ List.map CallOrgRepos orgs).
Proof.
  induction orgs as [|org orgs IH]; intros repos log; simpl.
  - unfold ret. now rewrite !app_nil_r.
  - unfold bind at 1.
    assert (Hone : fetchOrgRepos W repos org log
                   = (Returned (repos ++ org_nodes W org),
                      log ++ [CallOrgRepos org])).
    { unfold fetchOrgRepos, org_nodes. run.
      destruct (orgRepos W org) as [[names|]|e]; simpl;
        now rewrite ?app_nil_r. }
    rewrite Hone, IH. now rewrite <- !app_assoc.
Qed.

(** X2. Discovery asks once for the user's repositories and once for each
    parsed organisation, in that order, and returns the deduplicated
    concatenation of what the sources that answered hold: a source that
    throws or answers without data contributes nothing and takes nothing
    away from the others. *)
Theorem discover_isolates_failures W username include_orgs log :
  discover W username include_orgs log
  = (Returned
       (dedupe ∅
          (user_nodes W username
           ++ flat_map (org_nodes W) (parse_orgs include_orgs))),
     log ++ CallUserRepos username
         :: List.map CallOrgRepos (parse_orgs include_orgs)).
Proof.
  unfold discover. unfold bind at 1.
  assert (Huser : fetchUserRepos W username log
                  = (Returned (user_nodes W username),
                     log ++ [CallUserRepos username])).
  { unfold fetchUserRepos, user_nodes. run.
    now destruct (userRepos W username) as [[nodes|]|e]. }
  rewrite Huser. unfold bind. rewrite org_loop. unfold ret.
  now rewrite <- app_assoc.
Qed.

(** ** How often the statistics of a repository are fetched *)

Lemma discover_log W username include_orgs log :
  exists repos,
    discover W username include_orgs log
    = (Returned repos,
       log ++ CallUserRepos username
           :: List.map CallOrgRepos (parse_orgs include_orgs)) /\
    NoDup (List.map repo_key repos).
Proof.
  eexists. split; [|apply dedupe_keys_nodup].
  unfold discover. unfold bind at 1.
  assert (Huser : fetchUserRepos W username log
                  = (Returned (user_nodes W username),
                     log ++ [CallUserRepos username])).
  { unfold fetchUserRepos, user_nodes. run.
    now destruct (userRepos W username) as [[nodes|]|e]. }
  rewrite Huser. unfold bind. rewrite org_loop. unfold ret.
  rewrite <- app_assoc. reflexivity.
Qed.

Lemma stats_calls_app r l1 l2 :
  stats_calls r (l1 ++ l2) = (stats_calls r l1 + stats_calls r l2)%nat.
Proof. unfold stats_calls. now rewrite List.filter_app, length_app. Qed.

Lemma stats_calls_other r repo :
  repo_eqb r repo = false ->
  (stats_calls r [CallRepoStats repo] = 0
   /\ stats_calls r [CallRepoStats repo; Delay 2000; CallRepoStats repo] = 0
   /\ stats_calls r [CallRepoStats repo; Delay 1500; CallRepoStats repo] = 0)%nat.
Proof. intros H. unfold stats_calls; simpl. now rewrite H. Qed.

Lemma stats_calls_le2 r (seg : list Event) repo ms :
  seg = [CallRepoStats repo] \/
  seg = [CallRepoStats repo; Delay ms; CallRepoStats repo] ->
  (stats_calls r seg <= if repo_eqb r repo then 2 else 0)%nat.
Proof.
  intros [-> | ->]; unfold stats_calls; simpl;
    destruct (repo_eqb r repo); simpl; lia.
Qed.

(** The events one repository adds to the log. *)
Lemma repo_body_events W u m repo log :
  exists seg,
    snd (Sequential.repo_body W u m repo log) = log ++ seg /\
    (seg = [CallRepoStats repo] \/
     seg = [CallRepoStats repo; Delay 2000; CallRepoStats repo]).
Proof.
  unfold Sequential.repo_body. run.
  destruct (repoStats W repo (stats_calls repo log)) as [[st1 b1]|e]; simpl.
  - destruct (st1 =? 202); simpl.
    + exists [CallRepoStats repo; Delay 2000; CallRepoStats repo].
      split; [|now right]. rewrite <- !app_assoc. simpl.
      match goal with |- context [repoStats W repo ?n] =>
        destruct (repoStats W repo n) as [[st2 [|cs]]|e] end; simpl;
        try reflexivity.
      now destruct (List.find (is_user u) cs).
    + exists [CallRepoStats repo]. split; [|now left].
      destruct b1 as [|cs]; simpl; try reflexivity.
      now destruct (List.find (is_user u) cs).
  - exists [CallRepoStats repo]. split; [reflexivity|now left].
Qed.

Lemma fetchOneRepo_events W u repo log :
  exists seg,
    snd (Parallel.fetchOneRepo W u repo log) = log ++ seg /\
    (seg = [CallRepoStats repo] \/
     seg = [CallRepoStats repo; Delay 1500; CallRepoStats repo]).
Proof.
  unfold Parallel.fetchOneRepo. run.
  destruct (repoStats W repo (stats_calls repo log)) as [[st1 b1]|e]; simpl.
  - destruct (st1 =? 202); simpl.
    + exists [CallRepoStats repo; Delay 1500; CallRepoStats repo].
      split; [|now right]. rewrite <- !app_assoc. simpl.
      match goal with |- context [repoStats W repo ?n] =>
        destruct (repoStats W repo n) as [[st2 [|cs]]|e] end; reflexivity.
    + exists [CallRepoStats repo]. split; [|now left].
      now destruct b1.
  - exists [CallRepoStats repo]. split; [reflexivity|now left].
Qed.

(** How many of [repos] are the repository [r]. *)
Lemma asked_le r (repos : list RepoRef) :
  NoDup (List.map repo_key repos) ->
  (length (List.filter (repo_eqb r) repos) <= 1)%nat.
Proof.
  induction repos as [|x rest IH]; intros Hnd; simpl; [lia|].
  apply NoDup_cons in Hnd as [Hx Hnd]. specialize (IH Hnd).
  destruct (repo_eqb r x) eqn:E; [|exact IH]. simpl.
  destruct (List.filter (repo_eqb r) rest) as [|y ys] eqn:Ef; [simpl; lia|].
  exfalso. apply Hx.
  assert (Hy : In y (List.filter (repo_eqb r) rest)) by (rewrite Ef; now left).
  apply List.filter_In in Hy as [Hy Ey].
  apply list_elem_of_In, in_map_iff. exists y. split; [|exact Hy].
  unfold repo_eqb in E, Ey.
  apply andb_true_iff in E as [E1 E2]. apply andb_true_iff in Ey as [F1 F2].
  apply String.eqb_eq in E1, E2, F1, F2. unfold repo_key. congruence.
Qed.

Lemma sequential_loop_calls W u r repos : forall m log,
  (stats_calls r (snd (for_of repos (Sequential.repo_body W u) m log))
   <= stats_calls r log + 2 * length (List.filter (repo_eqb r) repos))%nat.
Proof.
  induction repos as [|repo repos IH]; intros m log; simpl; [lia|].
  unfold bind.
  destruct (repo_body_events W u m repo log) as (seg & Hlog & Hseg).
  destruct (repo_body_merge W u m repo log) as (o & log1 & Hrun & _).
  rewrite Hrun in Hlog |- *. simpl in Hlog. subst log1.
  specialize (IH (merge_result m o) (log ++ seg)).
  rewrite stats_calls_app in IH.
  pose proof (stats_calls_le2 r seg repo 2000 Hseg) as Hle.
  destruct (repo_eqb r repo); cbn [length] in *; lia.
Qed.

Lemma parallel_tasks_calls W u r repos : forall log,
  (stats_calls r
     (snd (Parallel.settle_all
             (List.map (Parallel.fetchOneRepo W u) repos) log))
   <= stats_calls r log + 2 * length (List.filter (repo_eqb r) repos))%nat.
Proof.
  induction repos as [|repo repos IH]; intros log; simpl; [lia|].
  destruct (fetchOneRepo_events W u repo log) as (seg & Hlog & Hseg).
  destruct (Parallel.fetchOneRepo W u repo log) as [o log1].
  simpl in Hlog. subst log1.
  specialize (IH (log ++ seg)).
  destruct (Parallel.settle_all _ (log ++ seg)) as [os log2]. simpl in *.
  rewrite stats_calls_app in IH.
  pose proof (stats_calls_le2 r seg repo 1500 Hseg) as Hle.
  destruct (repo_eqb r repo); cbn [length] in *; lia.
Qed.

Lemma discover_no_stats_calls r username include_orgs :
  stats_calls r
    (CallUserRepos username
     :: List.map CallOrgRepos (parse_orgs include_orgs)) = 0%nat.
Proof.
  unfold stats_calls. simpl.
  induction (parse_orgs include_orgs); simpl; auto.
Qed.

(** X3. In a run of [fetchLoc] the statistics fetch is invoked at most
    twice for any one repository, whatever the fetches yield: at most two
    [axios(...)] calls per repository in the concurrent revision, at most
    two [retryer(repoStatsFetcher, ...)] calls per repository in the
    sequential one. *)
Theorem stats_asked_at_most_twice W username include_orgs (r : RepoRef) :
  (stats_calls r (snd (Sequential.fetchLoc W username include_orgs [])) <= 2
   /\
   stats_calls r (snd (Parallel.fetchLoc W username include_orgs [])) <= 2)%nat.
Proof.
  unfold Sequential.fetchLoc, Parallel.fetchLoc.
  destruct (falsy username); [unfold throw; cbn; lia|].
  set (u := default "" username).
  unfold bind.
  destruct (discover_log W u include_orgs []) as (repos & -> & Hnd).
  set (log1 := [] ++ _).
  assert (H0 : stats_calls r log1 = 0%nat)
    by apply discover_no_stats_calls.
  assert (H1 : (length (List.filter (repo_eqb r) repos) <= 1)%nat)
    by apply asked_le, Hnd.
  split.
  - pose proof (sequential_loop_calls W u r repos ∅ log1) as Hs.
    destruct (repo_loop_merge W u repos ∅ log1) as (rs & log2 & E & _).
    rewrite E in Hs |- *. simpl in *. unfold settle. simpl. lia.
  - pose proof (parallel_tasks_calls W u r repos log1) as Hp.
    unfold Parallel.allSettled.
    destruct (Parallel.settle_all _ log1) as [os log2].
    simpl in *. unfold settle. simpl. lia.
Qed.

(** ** The two revisions agree *)

Lemma stats_calls_calls_only r log :
  stats_calls r log = stats_calls r (calls_only log).
Proof.
  unfold stats_calls, calls_only.
  induction log as [|e log IH]; simpl; [reflexivity|].
  destruct e; simpl; try destruct (repo_eqb r repo); simpl; auto.
Qed.

Lemma calls_only_app l1 l2 :
  calls_only (l1 ++ l2) = calls_only l1 ++ calls_only l2.
Proof. unfold calls_only. apply List.filter_app. Qed.

Lemma same_calls r l1 l2 :
  calls_only l1 = calls_only l2 -> stats_calls r l1 = stats_calls r l2.
Proof.
  intros H. now rewrite (stats_calls_calls_only r l1),
    (stats_calls_calls_only r l2), H.
Qed.

(** ** What a week of the series holds *)

Lemma addWeek_step (m : gmap Z Slot) wk k :
  addWeek m wk !! k = week_step k (m !! k) wk.
Proof.
  unfold week_step. destruct (all_zero wk) eqn:Hz.
  - rewrite addWeek_skip by assumption. now rewrite andb_false_r.
  - rewrite addWeek_lookup by assumption. rewrite andb_true_r.
    destruct (decide (w wk = k)) as [->|Hne].
    + now rewrite Z.eqb_refl.
    + apply Z.eqb_neq in Hne. now rewrite Hne.
Qed.

Lemma addWeeks_step wks : forall (m : gmap Z Slot) k,
  addWeeks m wks !! k = fold_left (week_step k) wks (m !! k).
Proof.
  unfold addWeeks. induction wks as [|wk wks IH]; intros m k; simpl.
  - reflexivity.
  - now rewrite IH, addWeek_step.
Qed.

Lemma inactive_sums es :
  active es = [] -> sum_a es = 0 /\ sum_d es = 0 /\ sum_c es = 0.
Proof.
  unfold active, sum_a, sum_d, sum_c.
  induction es as [|e es IH]; simpl; [auto|].
  destruct (all_zero e) eqn:Hz; simpl; [|discriminate].
  intros H. destruct (IH H) as (Sa & Sd & Sc).
  unfold all_zero in Hz.
  apply andb_true_iff in Hz as [Hz Hc]. apply andb_true_iff in Hz as [Ha Hd].
  apply Z.eqb_eq in Ha, Hd, Hc. lia.
Qed.

(** The slot after a run of entries, in closed form. *)
Lemma week_steps_closed k wks : forall o,
  fold_left (week_step k) wks o
  = match active (List.filter (fun wk => w wk =? k) wks), o with
    | [], _ => o
    | _ :: _, _ =>
        let s := slot_or_zero o in
        let es := List.filter (fun wk => w wk =? k) wks in
        Some (mkSlot (slot_a s + sum_a es) (slot_d s + sum_d es)
                (slot_c s + sum_c es))
    end.
Proof.
  unfold active, sum_a, sum_d, sum_c.
  induction wks as [|wk wks IH]; intros o; [reflexivity|].
  cbn [fold_left]. rewrite IH. unfold week_step. cbn [List.filter].
  destruct (w wk =? k) eqn:Ek; [|reflexivity].
  cbn [andb List.filter List.map Zsum fold_right].
  destruct (all_zero wk) eqn:Hz; cbn [negb].
  - unfold all_zero in Hz.
    apply andb_true_iff in Hz as [Hz Hc]. apply andb_true_iff in Hz as [Ha Hd].
    apply Z.eqb_eq in Ha, Hd, Hc. rewrite Ha, Hd, Hc.
    destruct (List.filter _ (List.filter _ wks)); reflexivity.
  - destruct (List.filter _ (List.filter _ wks)) eqn:Ea.
    + destruct (inactive_sums _ Ea) as (Sa & Sd & Sc).
      unfold sum_a, sum_d, sum_c, Zsum in Sa, Sd, Sc.
      unfold bump. rewrite Sa, Sd, Sc. f_equal. f_equal; lia.
    + unfold bump, id, Zsum. simpl. f_equal. f_equal; lia.
Qed.

Lemma series_record_iff (m : gmap Z Slot) r :
  In r (weeklyData (series_of m)) <->
  m !! week r = Some (mkSlot (additions r) (deletions r) (commits r)).
Proof.
  simpl. rewrite in_map_iff. split.
  - intros (k & <- & Hk). apply keys_present in Hk as [s Hs].
    unfold record_of. rewrite Hs. simpl. now destruct s.
  - intros Hm. exists (week r). split.
    + unfold record_of. rewrite Hm. simpl. now destruct r.
    + unfold sort_numeric, Object_keys. apply list_elem_of_In.
      rewrite merge_sort_Permutation. apply list_elem_of_fmap.
      exists (week r, mkSlot (additions r) (deletions r) (commits r)).
      split; [reflexivity|]. now apply elem_of_map_to_list.
Qed.

(** X5. The series holds a record for week [k] exactly when some settled
    result has an entry for [k] that is not all zero, and that record
    carries the sums of additions, deletions and commits over all entries
    for [k] of all results; a week that is all zero everywhere never
    appears. *)
Theorem aggregate_sums_per_week rs (r : WeeklyData) :
  exists ld,
    aggregate rs = Returned ld /\
    (In r (weeklyData ld) <->
     active (entries_of (week r) rs) <> [] /\
     additions r = sum_a (entries_of (week r) rs) /\
     deletions r = sum_d (entries_of (week r) rs) /\
     commits r = sum_c (entries_of (week r) rs)).
Proof.
  rewrite aggregate_series. eexists; split; [reflexivity|].
  rewrite series_record_iff, merge_results_flat, addWeeks_step.
  rewrite lookup_empty, week_steps_closed. unfold entries_of.
  destruct (active _) as [|e es]; simpl.
  - split; [discriminate|]. intros [H _]. contradiction.
  - split.
    + intros [= <- <- <-]. split; [discriminate|]. repeat split; lia.
    + intros (_ & -> & -> & ->). reflexivity.
Qed.

(** ** Parsing the organisation list *)

Lemma chars_append s t : chars (s +:+ t) = chars s ++ chars t.
Proof.
  induction s as [|ch s IH]; [reflexivity|].
  change (ch :: chars (s +:+ t) = ch :: (chars s ++ chars t)).
  now rewrite IH.
Qed.

Lemma chars_rev_string s : forall acc,
  chars (rev_string acc s) = rev (chars s) ++ chars acc.
Proof.
  induction s as [|ch s IH]; intros acc; simpl; [reflexivity|].
  rewrite IH. simpl. now rewrite <- app_assoc.
Qed.

Lemma chars_trim_start s : chars (trim_start s) = ltrim (chars s).
Proof.
  induction s as [|ch s IH]; simpl; [reflexivity|].
  now destruct (is_space ch).
Qed.

Lemma chars_trim s : chars (trim s) = rev (ltrim (rev (ltrim (chars s)))).
Proof.
  unfold trim.
  rewrite chars_rev_string, chars_trim_start, chars_rev_string,
    chars_trim_start.
  simpl. now rewrite !app_nil_r.
Qed.

Lemma ltrim_suffix l : exists pre, l = pre ++ ltrim l.
Proof.
  induction l as [|ch l [pre IH]]; simpl.
  - now exists [].
  - destruct (is_space ch).
    + exists (ch :: pre). simpl. now f_equal.
    + now exists [].
Qed.

Lemma ltrim_head l ch : hd_error (ltrim l) = Some ch -> is_space ch = false.
Proof.
  induction l as [|x l IH]; simpl; [discriminate|].
  destruct (is_space x) eqn:E; [exact IH|].
  simpl. now intros [= <-].
Qed.

Lemma hd_rev_suffix (pre l : list ascii) ch :
  hd_error (rev l) = Some ch -> hd_error (rev (pre ++ l)) = Some ch.
Proof.
  rewrite rev_app_distr. destruct (rev l); simpl; [discriminate|auto].
Qed.

Lemma first_char_chars s : first_char s = hd_error (chars s).
Proof. now destruct s. Qed.

Lemma last_char_chars s : last_char s = hd_error (rev (chars s)).
Proof.
  induction s as [|ch s IH]; [reflexivity|].
  destruct s as [|ch' s']; [reflexivity|].
  change (last_char (String ch (String ch' s')))
    with (last_char (String ch' s')).
  rewrite IH. simpl chars. simpl rev.
  destruct (rev (chars s') ++ [ch']) eqn:E; [|reflexivity].
  now destruct (rev (chars s')).
Qed.

Lemma trim_edges s :
  (forall ch, first_char (trim s) = Some ch -> is_space ch = false) /\
  (forall ch, last_char (trim s) = Some ch -> is_space ch = false).
Proof.
  rewrite first_char_chars, last_char_chars, chars_trim, rev_involutive.
  split; intros ch H.
  - destruct (ltrim_suffix (rev (ltrim (chars s)))) as [pre Hpre].
    apply (hd_rev_suffix pre) in H. rewrite <- Hpre, rev_involutive in H.
    now apply ltrim_head in H.
  - now apply ltrim_head in H.
Qed.

Lemma trim_chars s ch : In ch (chars (trim s)) -> In ch (chars s).
Proof.
  rewrite chars_trim, <- in_rev. intros H.
  destruct (ltrim_suffix (rev (ltrim (chars s)))) as [pre1 H1].
  assert (H2 : In ch (rev (ltrim (chars s)))).
  { rewrite H1. apply in_or_app. now right. }
  apply in_rev in H2.
  destruct (ltrim_suffix (chars s)) as [pre2 H3].
  rewrite H3. apply in_or_app. now right.
Qed.

Lemma split_comma_parts s : forall cur part,
  ~ In ","%char (chars cur) ->
  In part (split_comma_aux cur s) -> ~ In ","%char (chars part).
Proof.
  induction s as [|ch s IH]; intros cur part Hcur; simpl.
  - intros [<-|[]]. exact Hcur.
  - destruct (Ascii.eqb_spec ch ","%char) as [->|Hne].
    + intros [<-|Hin]; [exact Hcur|]. apply (IH EmptyString); auto.
    + apply IH. rewrite chars_append. simpl.
      intros Hin. apply in_app_or in Hin as [Hin|[Hin|[]]]; auto.
Qed.

(** X6. Every organisation name that [fetchLoc] takes from the
    comma-separated [include_orgs] is non-empty, holds no comma and neither
    starts nor ends with white space; an absent [include_orgs] gives no
    organisation. *)
Theorem parsed_orgs_are_clean include_orgs org :
  In org (parse_orgs include_orgs) ->
  include_orgs <> None /\
  org <> "" /\
  ~ In ","%char (chars org) /\
  (forall ch, first_char org = Some ch -> is_space ch = false) /\
  (forall ch, last_char org = Some ch -> is_space ch = false).
Proof.
  unfold parse_orgs. destruct include_orgs as [s|]; [|contradiction].
  destruct (non_empty s); [|contradiction].
  intros Hin. apply List.filter_In in Hin as [Hin Hne].
  apply in_map_iff in Hin as (part & <- & Hpart).
  split; [discriminate|]. split.
  { intros E. rewrite E in Hne. discriminate. }
  split.
  { intros Hc. apply trim_chars in Hc.
    revert Hc. apply (split_comma_parts s EmptyString part); auto. }
  apply trim_edges.
Qed.

Lemma parsed_orgs_are_clean_witness :
  Some " acme , ,widgets" <> None /\
  "acme" <> "" /\
  ~ In ","%char (chars "acme") /\
  (forall ch, first_char "acme" = Some ch -> is_space ch = false) /\
  (forall ch, last_char "acme" = Some ch -> is_space ch = false).
Proof.
  apply (parsed_orgs_are_clean (Some " acme , ,widgets") "acme").
  vm_compute. auto.
Defined.

(** * Further properties of the renderers *)

(** ** Where the cumulative chart puts its points *)

Lemma computeScale_fields pts sc :
  computeScale pts = Returned sc ->
  points sc = pts /\
  maxVal sc = Math_max (List.map value pts) 0 /\
  minVal sc = Math_min (List.map value pts) 0 /\
  valRange sc = or_one (maxVal sc - minVal sc) /\
  timeRange sc = or_one (maxTime sc - minTime sc) /\
  (exists p, nth_error pts 0 = Some p /\ minTime sc = p_week p) /\
  (exists p, nth_error pts (length pts - 1) = Some p /\ maxTime sc = p_week p).
Proof.
  unfold computeScale, week_at.
  destruct (nth_error pts 0) as [p0|] eqn:E0; [|discriminate].
  destruct (nth_error pts (length pts - 1)) as [pl|] eqn:El; [|discriminate].
  intros [= <-]. simpl.
  do 5 (split; [reflexivity|]). split; eexists; split; eauto.
Qed.

Lemma Math_max_bounds xs x0 :
  x0 <= Math_max xs x0 /\ forall x, In x xs -> x <= Math_max xs x0.
Proof.
  unfold Math_max. induction xs as [|y xs [IH0 IH]]; simpl.
  - split; [lia|contradiction].
  - split; [lia|]. intros x [->|Hx]; [lia|]. specialize (IH x Hx). lia.
Qed.

Lemma Math_min_bounds xs x0 :
  Math_min xs x0 <= x0 /\ forall x, In x xs -> Math_min xs x0 <= x.
Proof.
  unfold Math_min. induction xs as [|y xs [IH0 IH]]; simpl.
  - split; [lia|contradiction].
  - split; [lia|]. intros x [->|Hx]; [lia|]. specialize (IH x Hx). lia.
Qed.

(** A fraction of two integers, the numerator between 0 and the positive
    denominator. *)
Lemma unit_fraction n dn :
  0 <= n <= dn -> 0 < dn ->
  (0 <= inject_Z n / inject_Z dn <= 1)%Q.
Proof.
  intros [Hn Hd] Hpos.
  assert (Hq : (0 < inject_Z dn)%Q) by (now rewrite (Zlt_Qlt 0 dn) in Hpos).
  split.
  - apply Qle_shift_div_l; [exact Hq|]. rewrite Qmult_0_l.
    now rewrite (Zle_Qle 0 n) in Hn.
  - apply Qle_shift_div_r; [exact Hq|]. rewrite Qmult_1_l.
    now rewrite <- Zle_Qle.
Qed.

Lemma toY_within sc v :
  minVal sc <= v <= maxVal sc ->
  minVal sc <= 0 <= maxVal sc ->
  valRange sc = or_one (maxVal sc - minVal sc) ->
  (50 <= toY sc v <= 250)%Q.
Proof.
  intros Hv H0 Hr. unfold toY.
  assert (Hf : (0 <= inject_Z (v - minVal sc) / inject_Z (valRange sc) <= 1)%Q).
  { apply unit_fraction; rewrite Hr; unfold or_one;
      destruct (maxVal sc - minVal sc =? 0) eqn:E; lia. }
  set (q := (inject_Z (v - minVal sc) / inject_Z (valRange sc))%Q) in *.
  change (inject_Z (top padding)) with 50%Q.
  change (inject_Z chartH) with 200%Q.
  destruct Hf. split; lra.
Qed.

(** X7. In every cumulative renderer, each plotted point and the zero line
    lie inside the chart area vertically: between its top edge (y = 50) and
    its bottom edge (y = 250), whatever the values are. *)
Theorem points_inside_vertically pts sc :
  computeScale pts = Returned sc ->
  (forall p, In p (points sc) -> (50 <= toY sc (value p) <= 250)%Q) /\
  (50 <= toY sc 0 <= 250)%Q.
Proof.
  intros H. apply computeScale_fields in H as (Hp & Hmax & Hmin & Hr & _).
  destruct (Math_max_bounds (List.map value pts) 0) as [Hx0 Hx].
  destruct (Math_min_bounds (List.map value pts) 0) as [Hn0 Hn].
  rewrite <- Hmax in Hx0, Hx. rewrite <- Hmin in Hn0, Hn.
  split.
  - intros p Hin. rewrite Hp in Hin.
    apply toY_within; auto.
    split; [apply Hn|apply Hx]; now apply in_map.
  - apply toY_within; auto; lia.
Qed.

Lemma points_inside_vertically_witness :
  (forall p,
     In p (points (mkScale (cumulate 0 (weeklyData ex_series))
                     1600000000 1700000000 100000000 120 0 120)) ->
     (50 <= toY (mkScale (cumulate 0 (weeklyData ex_series))
               1600000000 1700000000 100000000 120 0 120) (value p)
      <= 250)%Q) /\
  (50 <= toY (mkScale (cumulate 0 (weeklyData ex_series))
            1600000000 1700000000 100000000 120 0 120) 0 <= 250)%Q.
Proof.
  apply (points_inside_vertically (cumulate 0 (weeklyData ex_series))).
  reflexivity.
Defined.

Lemma sorted_ends (l : list Z) x :
  StronglySorted Z.le l -> In x l ->
  (exists a, nth_error l 0 = Some a /\ a <= x) /\
  (exists b, nth_error l (length l - 1) = Some b /\ x <= b).
Proof.
  intros Hs. revert x.
  induction Hs as [|y l Hs IH Hy]; intros x Hin; [contradiction|].
  rewrite Forall_forall in Hy.
  split.
  - exists y. split; [reflexivity|].
    destruct Hin as [->|Hin]; [lia|]. apply Hy. now apply list_elem_of_In.
  - destruct l as [|z l'].
    + exists y. split; [reflexivity|]. destruct Hin as [->|[]]. lia.
    + replace (length (y :: z :: l') - 1)%nat with (S (length (z :: l') - 1))
        by (simpl; lia).
      cbn [nth_error].
      destruct Hin as [->|Hin].
      * destruct (IH z (or_introl eq_refl)) as [_ (b & Hb & Hzb)].
        exists b. split; [exact Hb|].
        assert (x <= z) by (apply Hy; left). lia.
      * destruct (IH x Hin) as [_ Hb]. exact Hb.
Qed.

(** X8. On points in ascending week order the linear time scale puts every
    plotted point inside the chart area horizontally, between its left edge
    (x = 70) and its right edge (x = 820). *)
Theorem points_inside_horizontally pts sc :
  computeScale pts = Returned sc ->
  StronglySorted Z.le (List.map p_week pts) ->
  forall p, In p (points sc) ->
    (70 <= Windowed.toX sc (p_week p) <= 820)%Q.
Proof.
  intros H Hs p Hin.
  apply computeScale_fields in H
    as (Hp & _ & _ & _ & Hr & (p0 & H0 & Hmin) & (pl & Hl & Hmax)).
  rewrite Hp in Hin.
  destruct (sorted_ends _ (p_week p) Hs (in_map p_week _ _ Hin))
    as [(a0 & Ha & Hle0) (b & Hb & Hlel)].
  rewrite nth_error_map, H0 in Ha. injection Ha as <-.
  rewrite length_map, nth_error_map, Hl in Hb. injection Hb as <-.
  unfold Windowed.toX.
  assert (Hf : (0 <= inject_Z (p_week p - minTime sc)
                     / inject_Z (timeRange sc) <= 1)%Q).
  { apply unit_fraction; rewrite Hr, Hmin, Hmax; unfold or_one;
      destruct (p_week pl - p_week p0 =? 0) eqn:E; lia. }
  set (q := (inject_Z (p_week p - minTime sc) / inject_Z (timeRange sc))%Q)
    in *.
  change (inject_Z (left padding)) with 70%Q.
  change (inject_Z chartW) with 750%Q.
  destruct Hf. split; lra.
Qed.

Lemma points_inside_horizontally_witness :
  StronglySorted Z.le
    (List.map p_week (cumulate 0 (weeklyData ex_series))) /\
  forall p,
    In p (points (mkScale (cumulate 0 (weeklyData ex_series))
                    1600000000 1700000000 100000000 120 0 120)) ->
    (70 <= Windowed.toX
             (mkScale (cumulate 0 (weeklyData ex_series))
                1600000000 1700000000 100000000 120 0 120) (p_week p)
     <= 820)%Q.
Proof.
  assert (Hs : StronglySorted Z.le
                 (List.map p_week (cumulate 0 (weeklyData ex_series)))).
  { simpl. repeat constructor; lia. }
  split; [exact Hs|].
  apply (points_inside_horizontally (cumulate 0 (weeklyData ex_series))).
  - reflexivity.
  - exact Hs.
Defined.

(** ** The horizontal grid *)

Lemma toY_at_value sc v : (toY_at sc (inject_Z v) == toY sc v)%Q.
Proof.
  unfold toY_at, toY. unfold Z.sub. rewrite inject_Z_plus, inject_Z_opp.
  reflexivity.
Qed.

Lemma tick_row sc (yTicks i : nat) :
  valRange sc <> 0 -> yTicks <> O ->
  (toY_at sc
     (inject_Z (minVal sc)
      + (inject_Z (valRange sc) / inject_Z (Z.of_nat yTicks))
        * inject_Z (Z.of_nat i))
   == 250 - 200 * (inject_Z (Z.of_nat i) / inject_Z (Z.of_nat yTicks)))%Q.
Proof.
  intros Hr Ht. unfold toY_at.
  change (inject_Z (top padding)) with 50%Q.
  change (inject_Z chartH) with 200%Q.
  assert (Hr' : ~ (inject_Z (valRange sc) == 0)%Q).
  { change 0%Q with (inject_Z 0). rewrite inject_Z_injective. exact Hr. }
  assert (Ht' : ~ (inject_Z (Z.of_nat yTicks) == 0)%Q).
  { change 0%Q with (inject_Z 0). rewrite inject_Z_injective. lia. }
  field. split; assumption.
Qed.

(** X9. The horizontal grid lines of a cumulative chart do not depend on
    the data: with [yTicks] ticks the [i]-th line is drawn at
    y = 250 - 200 * i / yTicks, from the bottom edge of the chart area to
    its top edge; the first tick is labelled with the lowest value and the
    last one with the lowest value plus the value range. *)
Theorem grid_rows_are_fixed pts sc (yTicks : nat) :
  computeScale pts = Returned sc ->
  yTicks <> O ->
  length (yLabels yTicks sc) = S yTicks /\
  forall i, (i <= yTicks)%nat ->
    exists val y,
      nth_error (yLabels yTicks sc) i = Some (val, y) /\
      (y == 250 - 200 * (inject_Z (Z.of_nat i) / inject_Z (Z.of_nat yTicks)))%Q
      /\ (i = O -> val == inject_Z (minVal sc))%Q
      /\ (i = yTicks -> val == inject_Z (minVal sc + valRange sc))%Q.
Proof.
  intros H Ht.
  apply computeScale_fields in H as (_ & _ & _ & Hr & _).
  assert (Hnz : valRange sc <> 0) by (rewrite Hr; apply or_one_nonzero).
  unfold yLabels. split.
  { rewrite length_map, length_seq. lia. }
  intros i Hi. rewrite nth_error_map, nth_error_seq.
  destruct (Nat.ltb_spec i (yTicks + 1)) as [_|Hge]; [|lia].
  simpl. eexists _, _. split; [reflexivity|].
  split; [now apply tick_row|]. split.
  - intros ->. simpl. field.
    change 0%Q with (inject_Z 0). rewrite inject_Z_injective. lia.
  - intros ->. rewrite inject_Z_plus. field.
    change 0%Q with (inject_Z 0). rewrite inject_Z_injective. lia.
Qed.

Lemma grid_rows_are_fixed_witness :
  length (yLabels 4 (mkScale (cumulate 0 (weeklyData ex_series))
                       1600000000 1700000000 100000000 120 0 120)) = 5%nat /\
  forall i, (i <= 4)%nat ->
    exists val y,
      nth_error (yLabels 4 (mkScale (cumulate 0 (weeklyData ex_series))
                              1600000000 1700000000 100000000 120 0 120)) i
        = Some (val, y) /\
      (y == 250 - 200 * (inject_Z (Z.of_nat i) / inject_Z (Z.of_nat 4)))%Q
      /\ (i = O -> val == inject_Z 0)%Q
      /\ (i = 4%nat -> val == inject_Z (0 + 120))%Q.
Proof.
  apply (grid_rows_are_fixed (cumulate 0 (weeklyData ex_series))).
  - reflexivity.
  - discriminate.
Defined.

(** ** The chart ends at the net total *)

Lemma cumulate_last ws : forall c0 p,
  last (cumulate c0 ws) = Some p ->
  value p = c0 + Zsum (List.map net ws).
Proof.
  induction ws as [|r ws IH]; intros c0 p; [discriminate|].
  cbn [cumulate]. rewrite last_cons.
  destruct (last (cumulate (c0 + (additions r - deletions r)) ws))
    as [q|] eqn:E.
  - intros [= <-]. apply IH in E. rewrite E. simpl. unfold net. lia.
  - intros [= <-]. apply last_None in E.
    destruct ws; [|discriminate]. simpl. unfold net. lia.
Qed.

Lemma Zsum_net ws :
  Zsum (List.map net ws)
  = Zsum (List.map additions ws) - Zsum (List.map deletions ws).
Proof. induction ws; simpl; unfold net in *; lia. Qed.

Lemma last_skipn {A} (l : list A) k :
  skipn k l <> [] -> last (skipn k l) = last l.
Proof.
  revert k. induction l as [|x l IH]; intros k H.
  - now rewrite skipn_nil in H.
  - destruct k as [|k]; [reflexivity|]. simpl in H |- *.
    rewrite (IH k H), last_cons.
    destruct (last l) eqn:E; [reflexivity|].
    apply last_None in E. subst l. now rewrite skipn_nil in H.
Qed.

(** X10. The cumulative curve ends at the net total shown in the header:
    for a series whose totals match its weeks, the last plotted point of the
    unwindowed chart carries [netLines], and on an ascending series so does
    the last plotted point of every windowed view. *)
Theorem curve_ends_at_netLines colors now data options options' :
  totals_match data ->
  weeklyData data <> [] ->
  (exists sc p,
     Cumulative.renderLocChart data options' = Returned (ChartImage sc) /\
     last (points sc) = Some p /\ value p = netLines data) /\
  (strictly_ascending data ->
   exists sc p,
     Windowed.renderLocChart colors now data options
       = Returned (ChartImage sc) /\
     last (points sc) = Some p /\ value p = netLines data).
Proof.
  intros (Ha & Hd & _ & Hn) Hne.
  assert (Hlast : forall p,
            last (cumulate 0 (weeklyData data)) = Some p ->
            value p = netLines data).
  { intros p Hp. apply cumulate_last in Hp.
    rewrite Hp, Zsum_net, Hn, Ha, Hd. lia. }
  assert (Hsome : forall l : list Point, l <> [] -> exists p, last l = Some p).
  { intros l Hl. destruct (last l) eqn:E; [eauto|].
    apply last_None in E. contradiction. }
  split.
  - unfold Cumulative.renderLocChart.
    destruct (weekly_empty_dec data) as [[_ He]|[-> _]]; [contradiction|].
    destruct (computeScale_returns (cumulate 0 (weeklyData data)))
      as (sc & -> & Hp & _); [now apply cumulate_nonempty|].
    destruct (Hsome (cumulate 0 (weeklyData data))) as [p Hpl];
      [now apply cumulate_nonempty|].
    exists sc, p. rewrite Hp. auto.
  - intros Hs. unfold Windowed.renderLocChart.
    destruct (weekly_empty_dec data) as [[_ He]|[-> _]]; [contradiction|].
    destruct (visible_is_suffix now (Windowed.months options)
                (weeklyData data) Hs) as [k Hk].
    assert (Hv : Windowed.visible now (Windowed.months options)
                   (cumulate 0 (weeklyData data)) <> []).
    { now apply visible_nonempty, cumulate_nonempty. }
    destruct (computeScale_returns _ Hv) as (sc & -> & Hp & _).
    rewrite Hk in Hp, Hv.
    destruct (Hsome (points sc)) as [p Hpl]; [now rewrite Hp|].
    exists sc, p. split; [reflexivity|]. split; [exact Hpl|].
    apply Hlast. rewrite Hp in Hpl. now rewrite last_skipn in Hpl.
Qed.

Lemma ex_series_totals : totals_match ex_series.
Proof. repeat split. Qed.

Lemma curve_ends_at_netLines_witness :
  (exists sc p,
     Cumulative.renderLocChart ex_series
       (Cumulative.mkOptions None None None None None None None None)
       = Returned (ChartImage sc) /\
     last (points sc) = Some p /\ value p = netLines ex_series) /\
  (strictly_ascending ex_series ->
   exists sc p,
     Windowed.renderLocChart ex_colors ex_now ex_series
       (Windowed.mkOptions (Some 1) true None)
       = Returned (ChartImage sc) /\
     last (points sc) = Some p /\ value p = netLines ex_series).
Proof.
  apply curve_ends_at_netLines.
  - exact ex_series_totals.
  - discriminate.
Defined.

(** ** Choosing the labels of the time axis *)

Section LabelFacts.

Variable toX : Z -> Q.

Lemma label_fits_true lastX x :
  label_fits lastX x = true ->
  (70 <= x)%Q /\ forall last, lastX = Some last -> (x + MIN_LABEL_PX <= last)%Q.
Proof.
  unfold label_fits. intros H. apply andb_true_iff in H as [Hgap Hleft].
  apply Qle_bool_iff in Hleft. split; [exact Hleft|].
  intros last ->. apply Qle_bool_iff in Hgap. lra.
Qed.

Lemma pick_labels_kept from_right : forall lastX picked,
  kept_well toX lastX picked ->
  exists added,
    pick_labels toX from_right lastX picked = added ++ picked /\
    sublist (List.map fst added) (rev from_right) /\
    Sorted apart (added ++ picked) /\
    Forall (fun l => snd l = toX (fst l) /\ (70 <= snd l)%Q) (added ++ picked).
Proof.
  induction from_right as [|t rest IH]; intros lastX picked (Hs & Hf & Hl);
    simpl.
  - exists []. simpl. repeat split; auto; constructor.
  - destruct (label_fits lastX (toX t)) eqn:E.
    + apply label_fits_true in E as [Hleft Hgap].
      destruct (IH (Some (toX t)) ((t, toX t) :: picked)) as (added & -> & Hsub & Hs' & Hf').
      { split; [|split; [|reflexivity]].
        - constructor; [exact Hs|].
          destruct picked as [|[t0 x0] picked']; constructor.
          simpl in Hl. unfold apart. simpl. now apply Hgap.
        - constructor; [split; [reflexivity|exact Hleft]|exact Hf]. }
      exists (added ++ [(t, toX t)]). rewrite <- !app_assoc. simpl.
      repeat split; auto.
      rewrite map_app. simpl. now apply sublist_app.
    + destruct (IH lastX picked) as (added & -> & Hsub & Hs' & Hf');
        [split; auto|].
      exists added. repeat split; auto.
      now apply sublist_inserts_r.
Qed.

Lemma apart_trans a b c0 : apart a b -> apart b c0 -> apart a c0.
Proof. unfold apart, MIN_LABEL_PX. intros. lra. Qed.

Lemma sorted_apart_strong l : Sorted apart l -> StronglySorted apart l.
Proof.
  induction 1 as [|x l Hs IH Hx]; constructor; [exact IH|].
  clear Hs. induction IH as [|y l' _ IH' Hy]; constructor.
  - now inversion Hx.
  - inversion Hx; subst. apply IH'.
    destruct l' as [|z l'']; constructor.
    apply (apart_trans x y z); [assumption|].
    rewrite Forall_forall in Hy. apply Hy. left.
Qed.

(** X11. The greedy choice of time-axis labels never lets two labels come
    closer than 85 pixels, whatever the candidates and the time scale: of
    any two chosen labels the right one is at least 85 to the right of the
    left one.  Every chosen label sits at its scaled position, not left of
    the plot's left edge (x = 70); the chosen weeks are a sub-list of the
    candidates; and the last candidate, which stands for the newest data, is
    always chosen when it is not left of that edge. *)
Theorem labels_never_collide (candidates : list Z) :
  StronglySorted apart (pickLabels toX candidates) /\
  Forall (fun l => snd l = toX (fst l) /\ (70 <= snd l)%Q)
    (pickLabels toX candidates) /\
  sublist (List.map fst (pickLabels toX candidates)) candidates /\
  forall t, last candidates = Some t -> (70 <= toX t)%Q ->
    last (pickLabels toX candidates) = Some (t, toX t).
Proof.
  unfold pickLabels.
  destruct (pick_labels_kept (rev candidates) None [])
    as (added & E & Hsub & Hs & Hf).
  { split; [constructor|]. split; [constructor|reflexivity]. }
  rewrite E, app_nil_r in *. rewrite rev_involutive in Hsub.
  split; [now apply sorted_apart_strong|]. split; [exact Hf|].
  split; [exact Hsub|].
  intros t Ht Hleft. apply last_Some in Ht as [front ->].
  rewrite rev_app_distr in E. simpl in E.
  assert (Hfit : label_fits None (toX t) = true).
  { unfold label_fits. simpl. now apply Qle_bool_iff. }
  rewrite Hfit in E.
  destruct (pick_labels_kept (rev front) (Some (toX t)) [(t, toX t)])
    as (added' & E' & _).
  { split; [repeat constructor|]. split; [|reflexivity].
    repeat constructor. exact Hleft. }
  rewrite E' in E. rewrite <- E. apply last_snoc.
Qed.

End LabelFacts.

(** ** Sampling the markers *)

Lemma filter_index_app {A} keep (xs ys : list A) : forall i0,
  filter_index keep i0 (xs ++ ys)
  = filter_index keep i0 xs ++ filter_index keep (i0 + length xs) ys.
Proof.
  induction xs as [|x xs IH]; intros i0; simpl.
  - now rewrite Nat.add_0_r.
  - rewrite IH, Nat.add_succ_r. now destruct (keep i0).
Qed.

Lemma filter_index_ext {A} keep keep' (xs : list A) : forall i0,
  (forall i, (i0 <= i < i0 + length xs)%nat -> keep i = keep' i) ->
  filter_index keep i0 xs = filter_index keep' i0 xs.
Proof.
  induction xs as [|x xs IH]; intros i0 H; simpl; [reflexivity|].
  rewrite (H i0) by (simpl; lia).
  rewrite (IH (S i0)) by (intros i Hi; apply H; simpl; lia).
  reflexivity.
Qed.

Lemma filter_index_sublist {A} keep (xs : list A) : forall i0,
  sublist (filter_index keep i0 xs) xs.
Proof.
  induction xs as [|x xs IH]; intros i0; simpl; [constructor|].
  destruct (keep i0); [apply sublist_skip|apply sublist_cons]; apply IH.
Qed.

(** Multiples of [s] among the indices from [i0] on. *)
Lemma count_multiples {A} (s : nat) (xs : list A) : forall i0,
  (1 <= s)%nat ->
  (length (filter_index (fun i => (i mod s =? 0)%nat) i0 xs)
   + (i0 + s - 1) / s
   = (i0 + length xs + s - 1) / s)%nat.
Proof.
  induction xs as [|x xs IH]; intros i0 Hs; simpl.
  - now rewrite Nat.add_0_r.
  - specialize (IH (S i0) Hs).
    replace (i0 + S (length xs) + s - 1)%nat
      with (S i0 + length xs + s - 1)%nat by lia.
    rewrite <- IH.
    assert (Hstep : ((S i0 + s - 1) / s
                     = (i0 + s - 1) / s + (if (i0 mod s =? 0)%nat then 1 else 0))%nat).
    { pose proof (Nat.div_mod i0 s ltac:(lia)) as Hd.
      pose proof (Nat.mod_upper_bound i0 s ltac:(lia)) as Hb.
      set (q := (i0 / s)%nat) in *. set (r := (i0 mod s)%nat) in *.
      destruct (Nat.eqb_spec r 0) as [E|E].
      - rewrite <- (Nat.div_unique (S i0 + s - 1) s (q + 1) 0) by nia.
        rewrite <- (Nat.div_unique (i0 + s - 1) s q (s - 1)) by nia. lia.
      - rewrite <- (Nat.div_unique (S i0 + s - 1) s (q + 1) r) by nia.
        rewrite <- (Nat.div_unique (i0 + s - 1) s (q + 1) (r - 1)) by nia.
        lia. }
    rewrite Hstep. destruct (i0 mod s =? 0)%nat; simpl; lia.
Qed.

Lemma dotPoints_split count (front : list Point) p :
  dotPoints count (front ++ [p])
  = filter_index
      (fun i => (i mod dotStep count (length (front ++ [p])) =? 0)%nat)
      0 front ++ [p].
Proof.
  unfold dotPoints. rewrite filter_index_app. f_equal.
  - apply filter_index_ext. intros i Hi.
    rewrite length_app in *. simpl in *.
    destruct (Nat.eqb_spec i (length front + 1 - 1)) as [E|E]; [lia|].
    now rewrite orb_false_r.
  - simpl. rewrite length_app. simpl.
    replace (length front + 1 - 1)%nat with (length front) by lia.
    now rewrite Nat.eqb_refl, orb_true_r.
Qed.

Lemma dots_count count (front : list Point) p :
  let n := S (length front) in
  let s := dotStep count n in
  length (dotPoints count (front ++ [p])) = S ((n + s - 2) / s).
Proof.
  intros n s. rewrite dotPoints_split, length_app. simpl.
  assert (Hs : (1 <= s)%nat) by (unfold s, dotStep; lia).
  pose proof (count_multiples s front 0 Hs) as Hc.
  replace (length (front ++ [p])) with n
    by (rewrite length_app; simpl; unfold n; lia).
  fold s. rewrite (Nat.div_small (0 + s - 1) s) in Hc by lia.
  replace (n + s - 2)%nat with (0 + length front + s - 1)%nat
    by (unfold n; lia).
  cbn [Nat.add] in *. lia.
Qed.

Lemma filter_index_step_one {A} (xs : list A) : forall i0,
  filter_index (fun i => (i mod 1 =? 0)%nat) i0 xs = xs.
Proof.
  induction xs as [|x xs IH]; intros i0; [reflexivity|].
  cbn [filter_index]. rewrite Nat.mod_1_r. cbn [Nat.eqb]. now rewrite IH.
Qed.

(** X12. The markers are a sub-list of the plotted points that always
    starts with the first point and ends with the last one.  With a sample
    count of at least 2 (the code uses 12 and 8) a series of at least
    [count] points gets between [count] and [2 * count - 1] markers, and a
    shorter series gets one marker per point. *)
Theorem markers_sample_evenly (count : nat) (pts : list Point) :
  (2 <= count)%nat ->
  sublist (dotPoints count pts) pts /\
  hd_error (dotPoints count pts) = hd_error pts /\
  last (dotPoints count pts) = last pts /\
  (Nat.min (length pts) count <= length (dotPoints count pts)
   <= 2 * count - 1)%nat /\
  ((length pts < count)%nat -> dotPoints count pts = pts).
Proof.
  intros Hc. split; [apply filter_index_sublist|]. split.
  { destruct pts as [|p pts]; [reflexivity|].
    unfold dotPoints. cbn [filter_index].
    now rewrite Nat.Div0.mod_0_l. }
  destruct (last pts) as [pl|] eqn:El.
  2:{ apply last_None in El. subst pts. simpl. repeat split; auto; lia. }
  apply last_Some in El as [front ->].
  split; [rewrite dotPoints_split; now rewrite !last_snoc|].
  pose proof (dots_count count front pl) as Hn. cbv zeta in Hn.
  rewrite length_app. simpl length.
  replace (length front + 1)%nat with (S (length front)) by lia.
  set (n := S (length front)) in *.
  split.
  - rewrite Hn. unfold dotStep.
    destruct (Nat.le_gt_cases count n) as [Hge|Hlt].
    + pose proof (Nat.div_mod n count ltac:(lia)) as Hd.
      pose proof (Nat.mod_upper_bound n count ltac:(lia)) as Hb.
      set (s := (n / count)%nat) in *. set (r := (n mod count)%nat) in *.
      assert (Hs : (1 <= s)%nat) by nia.
      rewrite Nat.max_r by lia. rewrite Nat.min_r by lia.
      pose proof (Nat.div_mod (n + s - 2) s ltac:(lia)) as Hd2.
      pose proof (Nat.mod_upper_bound (n + s - 2) s ltac:(lia)) as Hb2.
      set (q := ((n + s - 2) / s)%nat) in *.
      set (r2 := ((n + s - 2) mod s)%nat) in *.
      split; nia.
    + rewrite (Nat.div_small n count) by lia. simpl Nat.max.
      rewrite Nat.div_1_r. unfold n in *. lia.
  - intros Hlt. rewrite dotPoints_split. unfold dotStep.
    rewrite length_app. simpl length.
    rewrite (Nat.div_small (length front + 1) count) by (unfold n in *; lia).
    simpl Nat.max.
    f_equal. apply filter_index_step_one.
Qed.

Lemma markers_sample_evenly_witness :
  sublist (dotPoints 12 (cumulate 0 (weeklyData ex_series)))
    (cumulate 0 (weeklyData ex_series)) /\
  hd_error (dotPoints 12 (cumulate 0 (weeklyData ex_series)))
  = hd_error (cumulate 0 (weeklyData ex_series)) /\
  last (dotPoints 12 (cumulate 0 (weeklyData ex_series)))
  = last (cumulate 0 (weeklyData ex_series)) /\
  (Nat.min (length (cumulate 0 (weeklyData ex_series))) 12
   <= length (dotPoints 12 (cumulate 0 (weeklyData ex_series)))
   <= 2 * 12 - 1)%nat /\
  ((length (cumulate 0 (weeklyData ex_series)) < 12)%nat ->
   dotPoints 12 (cumulate 0 (weeklyData ex_series))
   = cumulate 0 (weeklyData ex_series)).
Proof. apply markers_sample_evenly. lia. Defined.

(** ** Monthly buckets *)

Lemma Zsum_perm l1 l2 : Permutation l1 l2 -> Zsum l1 = Zsum l2.
Proof.
  unfold Zsum. induction 1; simpl; lia.
Qed.

Lemma map_set_sum (f : Monthly.MonthEntry -> Z) mp : forall key v,
  Zsum (List.map (fun ke => f (snd ke)) (Monthly.map_set key v mp))
  = Zsum (List.map (fun ke => f (snd ke)) mp) + f v
    - match Monthly.map_get key mp with Some e => f e | None => 0 end.
Proof.
  induction mp as [|[k e] mp IH]; intros key v; simpl; [lia|].
  destruct (String.eqb k key); simpl; [lia|]. rewrite IH. lia.
Qed.

Lemma bucket_sums calendar mp wk :
  Zsum (List.map (fun ke => Monthly.m_additions (snd ke))
          (Monthly.bucket calendar mp wk))
  = Zsum (List.map (fun ke => Monthly.m_additions (snd ke)) mp)
    + additions wk /\
  Zsum (List.map (fun ke => Monthly.m_deletions (snd ke))
          (Monthly.bucket calendar mp wk))
  = Zsum (List.map (fun ke => Monthly.m_deletions (snd ke)) mp)
    + deletions wk.
Proof.
  unfold Monthly.bucket. destruct (calendar (week wk)) as [y m].
  rewrite !map_set_sum.
  destruct (Monthly.map_get _ mp); simpl; lia.
Qed.

Lemma buckets_sums calendar ws : forall mp,
  Zsum (List.map (fun ke => Monthly.m_additions (snd ke))
          (fold_left (Monthly.bucket calendar) ws mp))
  = Zsum (List.map (fun ke => Monthly.m_additions (snd ke)) mp)
    + Zsum (List.map additions ws) /\
  Zsum (List.map (fun ke => Monthly.m_deletions (snd ke))
          (fold_left (Monthly.bucket calendar) ws mp))
  = Zsum (List.map (fun ke => Monthly.m_deletions (snd ke)) mp)
    + Zsum (List.map deletions ws).
Proof.
  induction ws as [|wk ws IH]; intros mp; simpl; [lia|].
  destruct (IH (Monthly.bucket calendar mp wk)) as [-> ->].
  destruct (bucket_sums calendar mp wk) as [-> ->]. lia.
Qed.

(** X13. Re-bucketing loses nothing: without a months option, the monthly
    additions of the bar chart add up to the additions of all weeks and the
    monthly deletions to the deletions of all weeks, for every calendar. *)
Theorem monthly_buckets_conserve_totals calendar (ws : list WeeklyData) :
  Zsum (List.map Monthly.m_additions (Monthly.visibleMonths calendar None ws))
  = Zsum (List.map additions ws) /\
  Zsum (List.map Monthly.m_deletions (Monthly.visibleMonths calendar None ws))
  = Zsum (List.map deletions ws).
Proof.
  unfold Monthly.visibleMonths. simpl.
  destruct (buckets_sums calendar ws []) as [Ha Hd].
  change (Zsum (List.map _ [])) with 0 in Ha, Hd.
  rewrite Z.add_0_l in Ha, Hd. rewrite <- Ha, <- Hd.
  split; apply Zsum_perm; rewrite merge_sort_Permutation;
    now rewrite List.map_map.
Qed.

Lemma map_get_in key mp e :
  Monthly.map_get key mp = Some e -> In (key, e) mp.
Proof.
  induction mp as [|[k v] mp IH]; simpl; [discriminate|].
  destruct (String.eqb_spec k key) as [->|_].
  - intros [= ->]. now left.
  - intros H. right. auto.
Qed.

Lemma map_set_keys key v mp :
  List.map fst (Monthly.map_set key v mp)
  = if existsb (String.eqb key) (List.map fst mp)
    then List.map fst mp else List.map fst mp ++ [key].
Proof.
  induction mp as [|[k v0] mp IH]; simpl; [reflexivity|].
  rewrite (String.eqb_sym key k).
  destruct (String.eqb k key); simpl; [reflexivity|].
  rewrite IH. now destruct (existsb _ _).
Qed.

Lemma map_set_entries key v mp ke :
  In ke (Monthly.map_set key v mp) -> ke = (key, v) \/ In ke mp.
Proof.
  induction mp as [|[k v0] mp IH]; simpl.
  - intros [<-|[]]. now left.
  - destruct (String.eqb_spec k key) as [->|_]; simpl.
    + intros [<-|H]; auto.
    + intros [<-|H]; auto. destruct (IH H); auto.
Qed.

Lemma bucket_well calendar mp wk :
  map_well mp -> map_well (Monthly.bucket calendar mp wk).
Proof.
  intros [Hnd Hkeys]. unfold Monthly.bucket.
  destruct (calendar (week wk)) as [y m].
  set (key := toString y +:+ "-" +:+ toString m).
  split.
  - rewrite map_set_keys.
    destruct (existsb (String.eqb key) (List.map fst mp)) eqn:E; [exact Hnd|].
    apply NoDup_app. split; [exact Hnd|]. split; [|repeat constructor; set_solver].
    intros k Hk Hk'. apply list_elem_of_In in Hk.
    assert (k = key) by set_solver. subst k.
    assert (existsb (String.eqb key) (List.map fst mp) = true); [|congruence].
    apply existsb_exists. exists key. split; [exact Hk|apply String.eqb_refl].
  - rewrite Forall_forall in *. intros ke Hin. apply list_elem_of_In in Hin.
    apply map_set_entries in Hin as [->|Hin];
      [|apply Hkeys; now apply list_elem_of_In].
    simpl. destruct (Monthly.map_get key mp) as [e|] eqn:E; simpl.
    + apply map_get_in in E.
      apply (Hkeys (key, e)). now apply list_elem_of_In.
    + reflexivity.
Qed.

Lemma buckets_well calendar ws : forall mp,
  map_well mp -> map_well (fold_left (Monthly.bucket calendar) ws mp).
Proof.
  induction ws as [|wk ws IH]; intros mp H; simpl; [exact H|].
  now apply IH, bucket_well.
Qed.

Lemma map_well_months mp :
  map_well mp -> NoDup (List.map month_of (List.map snd mp)).
Proof.
  intros [Hnd Hkeys].
  apply (NoDup_fmap_1 month_key).
  replace (month_key <$> List.map month_of (List.map snd mp))
    with (List.map fst mp); [exact Hnd|].
  clear Hnd. induction Hkeys as [|ke mp Hk _ IH]; simpl; [reflexivity|].
  now rewrite Hk, IH.
Qed.

Lemma month_leb_iff x y :
  Monthly.month_le x y <->
  month_before x y \/ month_of x = month_of y.
Proof.
  unfold Monthly.month_le, Monthly.month_leb, month_before, month_of.
  destruct (Z.eqb_spec (Monthly.year x - Monthly.year y) 0) as [E|E].
  - rewrite Z.leb_le. split.
    + intros H.
      destruct (Z.eq_dec (Monthly.month x) (Monthly.month y)) as [Em|Em].
      * right. f_equal; lia.
      * left. right. lia.
    + intros [[H|[_ H]]|[= _ H]]; lia.
  - rewrite Z.leb_le. split.
    + intros H. left. left. lia.
    + intros [[H|[H _]]|[= H _]]; lia.
Qed.

#[local] Existing Instance Monthly.month_le_dec.

#[local] Instance month_le_total : Total Monthly.month_le.
Proof.
  intros x y. rewrite !month_leb_iff. unfold month_before, month_of.
  destruct (Z.lt_trichotomy (Monthly.year x) (Monthly.year y)) as [H|[H|H]];
    [auto|  |auto].
  destruct (Z.lt_trichotomy (Monthly.month x) (Monthly.month y)) as [G|[G|G]];
    [auto| |auto].
  left. right. congruence.
Qed.

#[local] Instance month_le_trans : Transitive Monthly.month_le.
Proof.
  intros x y z. rewrite !month_leb_iff. unfold month_before, month_of.
  intros [[H|[H1 H2]]|[= H1 H2]] [[G|[G1 G2]]|[= G1 G2]];
    try (left; lia); try (right; f_equal; lia).
Qed.

Lemma strictly_by_month l :
  StronglySorted Monthly.month_le l -> NoDup (List.map month_of l) ->
  StronglySorted month_before l.
Proof.
  induction 1 as [|x l Hs IH Hx]; intros Hnd; constructor.
  - apply IH. simpl in Hnd. now apply NoDup_cons_1_2 in Hnd.
  - simpl in Hnd. apply NoDup_cons in Hnd as [Hnot _].
    rewrite Forall_forall in *. intros y Hy.
    destruct (proj1 (month_leb_iff x y) (Hx y Hy)) as [H|H]; [exact H|].
    exfalso. apply Hnot. rewrite H. apply list_elem_of_fmap. eauto.
Qed.

Lemma StronglySorted_skipn {A} (R : A -> A -> Prop) l : forall k,
  StronglySorted R l -> StronglySorted R (skipn k l).
Proof.
  induction l as [|x l IH]; intros k H.
  - now rewrite skipn_nil.
  - destruct k as [|k]; [exact H|]. simpl. apply IH.
    now apply StronglySorted_inv in H.
Qed.

(** X14. The months of the bar chart come in strict calendar order, each
    calendar month at most once, for every calendar; with a months option
    [n > 0] they are the last months of the full list and at most [n] of
    them. *)
Theorem visible_months_in_calendar_order calendar months
  (ws : list WeeklyData) :
  StronglySorted month_before (Monthly.visibleMonths calendar months ws) /\
  (forall n, months = Some n -> 0 < n ->
     (length (Monthly.visibleMonths calendar months ws) <= Z.to_nat n)%nat /\
     exists hidden,
       Monthly.visibleMonths calendar months ws
       = skipn hidden (Monthly.visibleMonths calendar None ws)).
Proof.
  unfold Monthly.visibleMonths.
  set (mp := fold_left (Monthly.bucket calendar) ws []).
  assert (Hwell : map_well mp).
  { apply buckets_well. split; constructor. }
  assert (Hsorted : StronglySorted month_before
                      (merge_sort Monthly.month_le (List.map snd mp))).
  { apply strictly_by_month.
    - apply StronglySorted_merge_sort; apply _.
    - assert (Hp : List.map month_of
                     (merge_sort Monthly.month_le (List.map snd mp))
                   ≡ₚ List.map month_of (List.map snd mp)).
      { apply Permutation_map, merge_sort_Permutation. }
      rewrite Hp. now apply map_well_months. }
  split.
  - destruct (Windowed.months_set months); [|exact Hsorted].
    now apply StronglySorted_skipn.
  - intros n -> Hn. rewrite months_set_pos by assumption. simpl.
    unfold Monthly.slice_last. split; [|eauto].
    rewrite length_skipn. lia.
Qed.

(** ** The bars stay inside the chart *)

Lemma nat_Q_pos (n : nat) : (0 < n)%nat -> (0 < inject_Z (Z.of_nat n))%Q.
Proof. intros H. rewrite <- (Zlt_Qlt 0). lia. Qed.

Lemma barGroupW_total (n : nat) :
  (0 < n)%nat ->
  (0 < Bars.barGroupW n)%Q /\
  (inject_Z (Z.of_nat n) * Bars.barGroupW n == 750)%Q.
Proof.
  intros Hn. pose proof (nat_Q_pos n Hn) as Hq. unfold Bars.barGroupW.
  change (inject_Z chartW) with 750%Q. split.
  - apply Qlt_shift_div_l; [exact Hq|]. lra.
  - field. lra.
Qed.

Lemma barW_bounds (n : nat) :
  (0 < n)%nat -> (0 < Bars.barW n <= Bars.barGroupW n)%Q.
Proof.
  intros Hn. destruct (barGroupW_total n Hn) as [Hg _].
  unfold Bars.barW.
  destruct (Qle_bool (Bars.barGroupW n * (6 # 10)) 40) eqn:E.
  - split; lra.
  - assert (~ (Bars.barGroupW n * (6 # 10) <= 40)%Q).
    { rewrite <- Qle_bool_iff, E. discriminate. }
    split; lra.
Qed.

Lemma bar_x_bounds (n i : nat) :
  (i < n)%nat ->
  (70 <= Bars.bar_x n i /\ Bars.bar_x n i + Bars.barW n <= 820)%Q.
Proof.
  intros Hi. assert (Hn : (0 < n)%nat) by lia.
  destruct (barGroupW_total n Hn) as [Hg Htot].
  destruct (barW_bounds n Hn) as [Hw0 Hw].
  unfold Bars.bar_x, Bars.gap.
  change (inject_Z (left padding)) with 70%Q.
  assert (Hi0 : (0 <= inject_Z (Z.of_nat i))%Q)
    by (rewrite <- (Zle_Qle 0); lia).
  assert (Hi1 : (inject_Z (Z.of_nat i) + 1 <= inject_Z (Z.of_nat n))%Q).
  { change 1%Q with (inject_Z 1). rewrite <- inject_Z_plus, <- Zle_Qle. lia. }
  set (g := Bars.barGroupW n) in *. set (bw := Bars.barW n) in *.
  set (qi := inject_Z (Z.of_nat i)) in *.
  set (qn := inject_Z (Z.of_nat n)) in *.
  assert (Hprod : (0 <= qi * g)%Q) by (apply Qmult_le_0_compat; lra).
  assert (Hup : ((qi + 1) * g <= qn * g)%Q).
  { apply Qmult_le_compat_r; lra. }
  assert (E : ((g - bw) / 2 == (g - bw) * (1 # 2))%Q) by field.
  rewrite E. split; nra.
Qed.

Lemma scaleBars_ratio md :
  let sc := Monthly.scaleBars md in
  (0 <= Monthly.addRatio sc <= 1)%Q /\
  (Monthly.baselineY sc == 50 + 200 * Monthly.addRatio sc)%Q /\
  0 < Monthly.maxValue sc /\
  (forall m, In m md ->
     Monthly.m_additions m <= Monthly.maxValue sc /\
     Monthly.m_deletions m <= Monthly.maxValue sc).
Proof.
  intros sc. unfold sc, Monthly.scaleBars. cbn [Monthly.addRatio
    Monthly.baselineY Monthly.maxValue].
  destruct (Math_max_bounds (List.map Monthly.m_additions md) 1) as [Ha0 Ha].
  destruct (Math_max_bounds (List.map Monthly.m_deletions md) 1) as [Hd0 Hd].
  set (A := Math_max (List.map Monthly.m_additions md) 1) in *.
  set (D := Math_max (List.map Monthly.m_deletions md) 1) in *.
  split; [|split; [reflexivity|split; [lia|]]].
  - rewrite <- inject_Z_plus. apply unit_fraction; lia.
  - intros m Hm. split.
    + specialize (Ha _ (in_map Monthly.m_additions _ _ Hm)). lia.
    + specialize (Hd _ (in_map Monthly.m_deletions _ _ Hm)). lia.
Qed.

Lemma bar_rects_inside md n i m :
  In m md -> (i < n)%nat ->
  Forall inside_chart (Bars.bar_rects (Monthly.scaleBars md) n i m).
Proof.
  intros Hm Hi.
  destruct (scaleBars_ratio md) as (Hr & Hb & Hmax & Hle).
  destruct (Hle m Hm) as [Hadd Hdel].
  destruct (bar_x_bounds n i Hi) as [Hx0 Hx1].
  destruct (barW_bounds n ltac:(lia)) as [Hw0 _].
  set (sc := Monthly.scaleBars md) in *.
  unfold Bars.bar_rects. apply Forall_app. split.
  - destruct (Z.gtb_spec (Monthly.m_additions m) 0) as [Hpos|_];
      [|constructor].
    constructor; [|constructor].
    assert (Hf : (0 <= inject_Z (Monthly.m_additions m)
                       / inject_Z (Monthly.maxValue sc) <= 1)%Q)
      by (apply unit_fraction; lia).
    unfold inside_chart, Bars.addH. cbn [Bars.rx Bars.ry Bars.rw Bars.rh].
    change (inject_Z chartH) with 200%Q.
    set (q := (inject_Z (Monthly.m_additions m)
               / inject_Z (Monthly.maxValue sc))%Q) in *.
    set (ratio := Monthly.addRatio sc) in *.
    assert (Hqr : (0 <= q * ratio <= ratio)%Q) by (split; nra).
    rewrite Hb. repeat split; nra.
  - destruct (Z.gtb_spec (Monthly.m_deletions m) 0) as [Hpos|_];
      [|constructor].
    constructor; [|constructor].
    assert (Hf : (0 <= inject_Z (Monthly.m_deletions m)
                       / inject_Z (Monthly.maxValue sc) <= 1)%Q)
      by (apply unit_fraction; lia).
    unfold inside_chart, Bars.delH. cbn [Bars.rx Bars.ry Bars.rw Bars.rh].
    change (inject_Z chartH) with 200%Q.
    set (q := (inject_Z (Monthly.m_deletions m)
               / inject_Z (Monthly.maxValue sc))%Q) in *.
    set (ratio := Monthly.addRatio sc) in *.
    assert (Hqr : (0 <= q * (1 - ratio) <= 1 - ratio)%Q) by (split; nra).
    rewrite Hb. repeat split; nra.
Qed.

Lemma bars_from_inside md n : forall rest i,
  (forall m, In m rest -> In m md) ->
  (i + length rest <= n)%nat ->
  Forall inside_chart (Bars.bars_from (Monthly.scaleBars md) n i rest).
Proof.
  induction rest as [|m rest IH]; intros i Hsub Hlen; simpl; [constructor|].
  simpl in Hlen. apply Forall_app. split.
  - apply bar_rects_inside; [apply Hsub; now left|lia].
  - apply IH; [intros; apply Hsub; now right|lia].
Qed.

(** X15. Every bar of the monthly chart lies inside the chart area, between
    x = 70 and x = 820 and between y = 50 and y = 250, with a positive
    width and a non-negative height; addition bars rise from the baseline and
    deletion bars hang from it without leaving the area, for all visible
    months. *)
Theorem bars_stay_inside_chart (md : list Monthly.MonthEntry) :
  Forall inside_chart (Bars.bars (Monthly.scaleBars md)).
Proof.
  unfold Bars.bars. cbn [Monthly.monthlyData Monthly.scaleBars].
  apply bars_from_inside; [auto|lia].
Qed.

(** ** The smoothed line *)

Lemma segment_target tension pts i :
  (i + 1 < length pts)%nat ->
  exists cmd p,
    Spline.segment tension pts i = Returned cmd /\
    nth_error pts (i + 1) = Some p /\ Spline.target cmd = p.
Proof.
  intros Hi. unfold Spline.segment, Spline.pt_at.
  assert (Hsome : forall j, (j < length pts)%nat ->
            exists p, nth_error pts j = Some p).
  { intros j Hj. destruct (nth_error pts j) eqn:E; [eauto|].
    apply nth_error_None in E. lia. }
  destruct (Hsome (Z.to_nat (Z.max (Z.of_nat i - 1) 0))) as [p0 ->]; [lia|].
  destruct (Hsome i) as [p1 ->]; [lia|].
  destruct (Hsome (i + 1)%nat) as [p2 E2]; [lia|]. rewrite E2.
  destruct (Hsome (Nat.min (i + 2) (length pts - 1))) as [p3 ->]; [lia|].
  eexists _, p2. split; [reflexivity|]. split; reflexivity.
Qed.

Lemma segments_targets tension pts : forall len i0,
  (i0 + len < length pts)%nat ->
  exists cmds,
    Spline.segments tension pts (seq i0 len) = Returned cmds /\
    List.map Spline.target cmds = firstn len (skipn (S i0) pts).
Proof.
  induction len as [|len IH]; intros i0 Hlen; simpl.
  - exists []. split; [reflexivity|]. now rewrite firstn_O.
  - destruct (segment_target tension pts i0) as (cmd & p & -> & Hp & Ht);
      [lia|].
    destruct (IH (S i0)) as (cmds & -> & Hts); [lia|].
    exists (cmd :: cmds). split; [reflexivity|]. simpl.
    rewrite Ht, Hts. rewrite Nat.add_1_r in Hp.
    clear - Hp. revert pts Hp. generalize (S i0) as k.
    induction k as [|k IHk]; intros [|x pts] Hp; try discriminate.
    + injection Hp as ->. reflexivity.
    + simpl in Hp. apply IHk in Hp. exact Hp.
Qed.

(** X16. [catmullRomPath] never reads a point that is not there: it returns
    for every list of points.  For fewer than two points the path is empty;
    otherwise the path visits every point in order, starting with a move
    to the first point, so the smoothed line passes through all plotted
    points. *)
Theorem spline_passes_through_points (pts : list Spline.Pt) (tension : Q) :
  exists cmds,
    Spline.catmullRomCmds pts tension = Returned cmds /\
    Spline.catmullRomPath pts tension
      = Returned (Spline.join_space (List.map Spline.cmd_text cmds)) /\
    ((length pts < 2)%nat -> cmds = []) /\
    ((2 <= length pts)%nat ->
     List.map Spline.target cmds = pts /\
     exists p rest, cmds = Spline.MoveTo p :: rest).
Proof.
  unfold Spline.catmullRomPath, Spline.catmullRomCmds.
  destruct (Nat.ltb_spec (length pts) 2) as [Hlt|Hge].
  { eexists. split; [reflexivity|]. split; [reflexivity|].
    split; [reflexivity|lia]. }
  destruct (Nat.eqb_spec (length pts) 2) as [E2|Hne].
  - destruct pts as [|p0 [|p1 [|p2 pts]]]; try discriminate. simpl.
    eexists. split; [reflexivity|]. split; [reflexivity|].
    split; [intros; simpl in *; lia|]. intros _. split; [reflexivity|eauto].
  - destruct pts as [|p0 pts]; [simpl in Hge; lia|].
    cbn [Spline.pt_at nth_error].
    destruct (segments_targets tension (p0 :: pts) (length (p0 :: pts) - 1) 0)
      as (cmds & -> & Hts); [simpl; lia|].
    eexists. split; [reflexivity|]. split; [reflexivity|].
    split; [intros; simpl in *; lia|]. intros _. split; [|eauto].
    simpl. rewrite Hts. simpl. rewrite Nat.sub_0_r. now rewrite firstn_all.
Qed.

(** ** Light and dark backgrounds *)

Lemma hex_digit_plain ch v :
  Theme.hex_value ch = Some v ->
  is_space ch = false /\ Ascii.eqb ch "-" = false /\
  Ascii.eqb ch "+" = false /\ Ascii.eqb ch "#" = false /\
  Ascii.eqb ch "x" = false /\ Ascii.eqb ch "X" = false /\ 0 <= v < 16.
Proof.
  destruct ch as [[] [] [] [] [] [] [] []]; vm_compute;
    try discriminate; intros [= <-]; repeat split; discriminate.
Qed.

Lemma parse_pair c1 c2 v1 v2 :
  Theme.hex_value c1 = Some v1 -> Theme.hex_value c2 = Some v2 ->
  Theme.parseInt16 (String c1 (String c2 EmptyString)) = Some (16 * v1 + v2).
Proof.
  intros H1 H2.
  destruct (hex_digit_plain c1 v1 H1) as (Hs & Hm & Hp & _).
  destruct (hex_digit_plain c2 v2 H2) as (_ & _ & _ & _ & Hx & HX & _).
  unfold Theme.parseInt16. cbn [trim_start]. rewrite Hs, Hm, Hp.
  unfold Theme.strip_0x. rewrite Hx, HX, andb_false_r.
  cbn [Theme.hex_prefix]. rewrite H1, H2. simpl default.
  f_equal; lia.
Qed.

Lemma below_128 s :
  negb (Qle_bool 128 (inject_Z s / 1000)) = true <-> s < 128000.
Proof.
  rewrite negb_true_iff, <- not_true_iff_false, Qle_bool_iff.
  unfold Qle, Qdiv, Qmult, Qinv. simpl. lia.
Qed.

(** X17. For a background written as six hexadecimal digits, with or
    without a leading [#], [isDarkBg] holds exactly when the weighted sum
    299 r + 587 g + 114 b of its three channels is below 128000; a gradient
    background always gets the light preset. *)
Theorem dark_background_by_luminance c1 c2 c3 c4 c5 c6 v1 v2 v3 v4 v5 v6 :
  Theme.hex_value c1 = Some v1 -> Theme.hex_value c2 = Some v2 ->
  Theme.hex_value c3 = Some v3 -> Theme.hex_value c4 = Some v4 ->
  Theme.hex_value c5 = Some v5 -> Theme.hex_value c6 = Some v6 ->
  let hex :=
    String c1 (String c2 (String c3 (String c4 (String c5
      (String c6 EmptyString))))) in
  let r := 16 * v1 + v2 in
  let g := 16 * v3 + v4 in
  let b := 16 * v5 + v6 in
  (Theme.isDarkBg hex = true <-> 299 * r + 587 * g + 114 * b < 128000) /\
  Theme.isDarkBg ("#" +:+ hex) = Theme.isDarkBg hex /\
  (0 <= r <= 255 /\ 0 <= g <= 255 /\ 0 <= b <= 255) /\
  forall colors stops,
    Windowed.bgColor colors = inr stops -> Theme.preset_of colors = Theme.light.
Proof.
  intros H1 H2 H3 H4 H5 H6 hex r g b.
  destruct (hex_digit_plain c1 v1 H1) as (_ & _ & _ & Hh & _ & _ & B1).
  destruct (hex_digit_plain c2 v2 H2) as (_ & _ & _ & _ & _ & _ & B2).
  destruct (hex_digit_plain c3 v3 H3) as (_ & _ & _ & _ & _ & _ & B3).
  destruct (hex_digit_plain c4 v4 H4) as (_ & _ & _ & _ & _ & _ & B4).
  destruct (hex_digit_plain c5 v5 H5) as (_ & _ & _ & _ & _ & _ & B5).
  destruct (hex_digit_plain c6 v6 H6) as (_ & _ & _ & _ & _ & _ & B6).
  assert (Hdark : Theme.isDarkBg hex
                  = negb (Qle_bool 128
                            (inject_Z (r * 299 + g * 587 + b * 114) / 1000))).
  { unfold Theme.isDarkBg, hex. cbn [strip_hash]. rewrite Hh.
    cbn [substring].
    now rewrite (parse_pair c1 c2 v1 v2), (parse_pair c3 c4 v3 v4),
      (parse_pair c5 c6 v5 v6). }
  split; [|split; [|split]].
  - rewrite Hdark, below_128. lia.
  - assert (Hs : strip_hash hex = hex).
    { unfold hex. cbn [strip_hash]. now rewrite Hh. }
    unfold Theme.isDarkBg.
    change (strip_hash ("#" +:+ hex)) with hex. now rewrite Hs.
  - unfold r, g, b. lia.
  - intros colors stops Hg. unfold Theme.preset_of, Windowed.bg_of.
    now rewrite Hg.
Qed.

Lemma dark_background_by_luminance_witness :
  (Theme.isDarkBg "0D1117" = true <->
   299 * (16 * 0 + 13) + 587 * (16 * 1 + 1) + 114 * (16 * 1 + 7) < 128000) /\
  Theme.isDarkBg ("#" +:+ "0D1117") = Theme.isDarkBg "0D1117" /\
  (0 <= 16 * 0 + 13 <= 255 /\ 0 <= 16 * 1 + 1 <= 255 /\
   0 <= 16 * 1 + 7 <= 255) /\
  forall colors stops,
    Windowed.bgColor colors = inr stops -> Theme.preset_of colors = Theme.light.
Proof.
  apply (dark_background_by_luminance "0" "D" "1" "1" "1" "7" 0 13 1 1 1 7);
    reflexivity.
Defined.

(** * Payloads as they arrive *)

(** ** What can come out of [fetchLoc] *)

Lemma raw_mergeWeeks_error wks : forall m,
  snd (Raw.mergeWeeks m wks) = None \/
  snd (Raw.mergeWeeks m wks) = Some TypeError.
Proof.
  induction wks as [|[wk|] wks IH]; intros m; simpl; auto.
Qed.

Lemma raw_forWeeks_error m weeks :
  snd (Raw.forWeeks m weeks) = None \/
  snd (Raw.forWeeks m weeks) = Some TypeError.
Proof. destruct weeks; simpl; [apply raw_mergeWeeks_error|auto]. Qed.

Lemma raw_mergeResults_cases rs : forall m,
  (exists m', Raw.Parallel.mergeResults m rs = Returned m') \/
  Raw.Parallel.mergeResults m rs = Threw TypeError.
Proof.
  induction rs as [|[[cb|]|e] rs IH]; intros m; simpl; eauto.
  destruct (raw_forWeeks_error m (Raw.weeks cb)) as [E|E];
    destruct (Raw.forWeeks m (Raw.weeks cb)) as [m' o]; simpl in E; subst;
    auto.
Qed.

Lemma raw_build_weeks_cases m ws : forall t,
  (exists t', Raw.build_weeks m ws t = Returned t') \/
  Raw.build_weeks m ws t = Threw TypeError.
Proof.
  induction ws as [|[k|] ws IH]; intros t; simpl; eauto.
  unfold Raw.build_step. destruct (m !! Some k); auto.
Qed.

Lemma raw_buildLocData_cases m :
  (exists ld, Raw.buildLocData m = Returned ld) \/
  Raw.buildLocData m = Threw TypeError.
Proof.
  unfold Raw.buildLocData.
  destruct (raw_build_weeks_cases m (Raw.sort_numeric (Raw.Object_keys m))
              (Raw.mkTotals (Some 0) (Some 0) (Some 0) []))
    as [(t & ->) | ->]; eauto.
Qed.

Lemma raw_find_in u cs : forall cb,
  Raw.find u cs = Returned (Some cb) -> In (Some cb) cs.
Proof.
  induction cs as [|c cs IH]; intros cb; simpl; [discriminate|].
  destruct (Raw.is_user u c) as [[|]|e]; [| |discriminate].
  - intros [= ->]. now left.
  - intros H. right. now apply IH.
Qed.

(** The loop body of the sequential revision returns whatever happens. *)
Lemma raw_repo_body_returns N u m repo log :
  exists m' log', Raw.Sequential.repo_body N u m repo log = (Returned m', log').
Proof.
  unfold Raw.Sequential.repo_body, Raw.call_stats. run.
  destruct (Raw.repo_stats N repo (stats_calls repo log)) as [[st1 b1]|e];
    simpl; eauto.
  destruct (st1 =? 202); simpl.
  - match goal with |- context [Raw.repo_stats N repo ?n] =>
      destruct (Raw.repo_stats N repo n) as [[st2 [|cs]]|e] end; simpl; eauto.
    destruct (Raw.find u cs) as [[cb|]|e]; simpl; eauto.
  - destruct b1 as [|cs]; simpl; eauto.
    destruct (Raw.find u cs) as [[cb|]|e]; simpl; eauto.
Qed.

Lemma raw_loop_returns N u repos : forall m log,
  exists m' log',
    for_of repos (Raw.Sequential.repo_body N u) m log = (Returned m', log').
Proof.
  induction repos as [|repo repos IH]; intros m log; simpl.
  - unfold ret. eauto.
  - unfold bind.
    destruct (raw_repo_body_returns N u m repo log) as (m1 & l1 & ->).
    apply IH.
Qed.

Lemma raw_sequential_cases N username orgs log :
  falsy username = false ->
  exists log',
    (exists ld,
       Raw.Sequential.fetchLoc N username orgs log = (Returned ld, log')) \/
    Raw.Sequential.fetchLoc N username orgs log = (Threw TypeError, log').
Proof.
  intros Hu. unfold Raw.Sequential.fetchLoc. rewrite Hu. unfold bind.
  destruct (discover_returns (Raw.listings N) (default "" username) orgs log)
    as (repos & l1 & ->).
  destruct (raw_loop_returns N (default "" username) repos ∅ l1)
    as (m & l2 & ->).
  exists l2. unfold settle.
  destruct (raw_buildLocData_cases m) as [(ld & ->) | ->]; eauto.
Qed.

Lemma raw_parallel_cases N username orgs log :
  falsy username = false ->
  exists log',
    (exists ld,
       Raw.Parallel.fetchLoc N username orgs log = (Returned ld, log')) \/
    Raw.Parallel.fetchLoc N username orgs log = (Threw TypeError, log').
Proof.
  intros Hu. unfold Raw.Parallel.fetchLoc. rewrite Hu. unfold bind.
  destruct (discover_returns (Raw.listings N) (default "" username) orgs log)
    as (repos & l1 & ->).
  unfold Parallel.allSettled.
  destruct (Parallel.settle_all _ l1) as [rs l2].
  exists l2. unfold settle.
  destruct (raw_mergeResults_cases rs ∅) as [(m & ->) | ->]; [|auto].
  destruct (raw_buildLocData_cases m) as [(ld & ->) | ->]; eauto.
Qed.

(** C3. [fetchLoc] throws [MissingParamError] exactly when [username] is
    absent or empty, and then the log is untouched: no network call was
    made (the handler answers such a request itself).  It is not the only
    fatal condition.  When the statistics answer holds the user's entry
    without a [weeks] property, the concurrent revision, which merges after
    [Promise.allSettled] and outside every [try], throws a [TypeError],
    while the sequential revision, which merges inside the per-repository
    [try], returns the empty series.  When a week of the user's entry has
    no [w], both revisions throw a [TypeError] from step 3, where
    [weeklyMap[NaN]] is undefined. *)
Theorem malformed_payload_is_fatal :
  (forall N username include_orgs log,
     falsy username = true ->
     Raw.Sequential.fetchLoc N username include_orgs log
       = (Threw (MissingParamError ["username"]), log) /\
     Raw.Parallel.fetchLoc N username include_orgs log
       = (Threw (MissingParamError ["username"]), log)) /\
  (forall W username include_orgs options log,
     falsy username = true ->
     handler W username include_orgs options log
       = (Returned (ErrorCard "Missing required parameter: username"), log)) /\
  (forall N username include_orgs log params,
     falsy username = false ->
     fst (Raw.Sequential.fetchLoc N username include_orgs log)
       <> Threw (MissingParamError params) /\
     fst (Raw.Parallel.fetchLoc N username include_orgs log)
       <> Threw (MissingParamError params)) /\
  Raw.Parallel.fetchLoc ex_no_weeks (Some "octo") None []
    = (Threw TypeError,
       [CallUserRepos "octo"; CallRepoStats (mkRepo "octo" "one")]) /\
  Raw.Sequential.fetchLoc ex_no_weeks (Some "octo") None []
    = (Returned raw_empty_series,
       [CallUserRepos "octo"; CallRepoStats (mkRepo "octo" "one")]) /\
  Raw.Parallel.fetchLoc ex_no_week_key (Some "octo") None []
    = (Threw TypeError,
       [CallUserRepos "octo"; CallRepoStats (mkRepo "octo" "one")]) /\
  Raw.Sequential.fetchLoc ex_no_week_key (Some "octo") None []
    = (Threw TypeError,
       [CallUserRepos "octo"; CallRepoStats (mkRepo "octo" "one")]).
Proof.
  split; [|split; [|split; [|split; [|split; [|split]]]]].
  - intros N username include_orgs log Hu.
    unfold Raw.Sequential.fetchLoc, Raw.Parallel.fetchLoc. rewrite Hu.
    split; reflexivity.
  - intros W username include_orgs options log Hu.
    unfold handler. now rewrite Hu.
  - intros N username include_orgs log params Hu. split.
    + destruct (raw_sequential_cases N username include_orgs log Hu)
        as (l & [(ld & ->)| ->]); discriminate.
    + destruct (raw_parallel_cases N username include_orgs log Hu)
        as (l & [(ld & ->)| ->]); discriminate.
  - vm_compute. reflexivity.
  - vm_compute. reflexivity.
  - vm_compute. reflexivity.
  - vm_compute. reflexivity.
Qed.

(** ** Where the two revisions part *)

Lemma raw_mergeWeeks_iterable wks :
  Forall (fun entry => entry <> None) wks ->
  forall m, snd (Raw.mergeWeeks m wks) = None.
Proof.
  induction 1 as [|[wk|] wks Hx _ IH]; intros m; simpl; auto.
  contradiction.
Qed.

Lemma raw_forWeeks_iterable cb m :
  weeks_iterable cb -> snd (Raw.forWeeks m (Raw.weeks cb)) = None.
Proof.
  intros (wks & -> & Hw). simpl. now apply raw_mergeWeeks_iterable.
Qed.

Lemma raw_mergeResults_iterable rs :
  Forall result_iterable rs ->
  forall m,
    Raw.Parallel.mergeResults m rs = Returned (fold_left merge_caught rs m).
Proof.
  induction 1 as [|r rs Hr _ IH]; intros m; simpl; [reflexivity|].
  destruct r as [[cb|]|e]; simpl; try apply IH.
  pose proof (raw_forWeeks_iterable cb m (Hr cb eq_refl)) as E.
  destruct (Raw.forWeeks m (Raw.weeks cb)) as [m' o]. simpl in E. subst o.
  apply IH.
Qed.

Lemma raw_found_from_network N u repo n st cs :
  Raw.repo_stats N repo n = Returned (Raw.mkStats st (Raw.ContributorArray cs)) ->
  raw_from_network N (Raw.find u cs).
Proof.
  intros Hw cb Hf. apply raw_find_in in Hf. exists repo, n, st, cs. auto.
Qed.

Lemma reading_thrown (o : Outcome Raw.StatsRes) e :
  reading (Threw e) = reading o ->
  match o with
  | Returned res =>
      (Raw.status res =? 202) = false /\ Raw.data res = Raw.NotArray
  | Threw _ => True
  end.
Proof.
  destruct o as [[st b]|e']; simpl; [|auto].
  intros [= <- Hb]. split; [reflexivity|]. now destruct b.
Qed.

Lemma reading_returned st1 b1 st2 b2 :
  reading (Returned (Raw.mkStats st1 b1))
  = reading (Returned (Raw.mkStats st2 b2)) ->
  (st1 =? 202) = (st2 =? 202) /\ b1 = b2.
Proof.
  simpl. intros [= H1 H2]. split; [exact H1|].
  destruct b1, b2; congruence.
Qed.

(** What both revisions make of the answer they go on with. *)
Lemma same_reading_same_merge N2 u m repo n o1 o2 l1 l2 :
  o2 = Raw.repo_stats N2 repo n ->
  reading o1 = reading o2 ->
  exists o,
    try_catch
      (do res <- settle o1;
       match Raw.data res with
       | Raw.NotArray => ret m
       | Raw.ContributorArray cs =>
           do contributor <- settle (Raw.find u cs);
           match contributor with
           | None => ret m
           | Some contributor =>
               ret (fst (Raw.forWeeks m (Raw.weeks contributor)))
           end
       end)
      (fun _ => ret m) l1
    = (Returned (merge_caught m o), l1) /\
    (do res <- settle o2;
     match Raw.data res with
     | Raw.NotArray => ret None
     | Raw.ContributorArray cs => settle (Raw.find u cs)
     end) l2
    = (o, l2) /\
    raw_from_network N2 o.
Proof.
  intros E2 Hr. run.
  destruct o1 as [[st1 b1]|e1], o2 as [[st2 b2]|e2].
  - apply reading_returned in Hr as [_ ->]. simpl.
    destruct b2 as [|cs]; simpl.
    + exists (Returned None). repeat split; discriminate.
    + pose proof (raw_found_from_network N2 u repo n st2 cs (eq_sym E2)) as Hf.
      exists (Raw.find u cs).
      destruct (Raw.find u cs) as [[cb|]|e]; simpl; repeat split; assumption.
  - symmetry in Hr. apply reading_thrown in Hr as [_ Hb].
    simpl in Hb. subst b1. simpl.
    exists (Threw e2). repeat split; discriminate.
  - apply reading_thrown in Hr as [_ Hb]. simpl in Hb. subst b2. simpl.
    exists (Returned None). repeat split; discriminate.
  - simpl. exists (Threw e2). repeat split; discriminate.
Qed.

(** On logs that hold the same calls and on calls that read alike, the loop
    body of the sequential revision merges, with every throw caught, what
    the task of the concurrent revision settles with. *)
Lemma raw_body_matches_task N1 N2 u m repo l1 l2 :
  same_readings N1 N2 ->
  calls_only l1 = calls_only l2 ->
  exists o l1' l2',
    Raw.Sequential.repo_body N1 u m repo l1 = (Returned (merge_caught m o), l1')
    /\ Raw.Parallel.fetchOneRepo N2 u repo l2 = (o, l2')
    /\ calls_only l1' = calls_only l2'
    /\ raw_from_network N2 o.
Proof.
  intros (_ & _ & HN) Hc.
  assert (Hc1 : calls_only (l1 ++ [CallRepoStats repo])
                = calls_only (l2 ++ [CallRepoStats repo])).
  { now rewrite !calls_only_app, Hc. }
  assert (Hc2 : calls_only ((l1 ++ [CallRepoStats repo]) ++ [Delay 2000])
                = calls_only ((l2 ++ [CallRepoStats repo]) ++ [Delay 1500])).
  { rewrite !(calls_only_app (_ ++ _)), Hc1. reflexivity. }
  assert (Hc3 : calls_only
                  (((l1 ++ [CallRepoStats repo]) ++ [Delay 2000])
                   ++ [CallRepoStats repo])
                = calls_only
                    (((l2 ++ [CallRepoStats repo]) ++ [Delay 1500])
                     ++ [CallRepoStats repo])).
  { rewrite !(calls_only_app (_ ++ _) [CallRepoStats repo]), Hc2.
    reflexivity. }
  pose proof (HN repo (stats_calls repo l2)) as R1.
  pose proof (HN repo (stats_calls repo
                         ((l2 ++ [CallRepoStats repo]) ++ [Delay 1500])))
    as R2.
  unfold Raw.Sequential.repo_body, Raw.Parallel.fetchOneRepo, Raw.call_stats.
  unfold try_catch at 1. unfold bind at 1 2. unfold bind at 3 4.
  rewrite (same_calls repo l1 l2 Hc).
  destruct (Raw.repo_stats N1 repo (stats_calls repo l2)) as [[st1 b1]|e1] eqn:E1,
           (Raw.repo_stats N2 repo (stats_calls repo l2)) as [[st2 b2]|e2] eqn:E2.
  - pose proof (reading_returned _ _ _ _ R1) as [Hst ->].
    cbn [Raw.status]. rewrite Hst.
    destruct (st2 =? 202).
    + unfold bind at 1 3. unfold delay, emit.
      rewrite (same_calls repo _ _ Hc2).
      destruct (same_reading_same_merge N2 u m repo _ _ _
                  (((l1 ++ [CallRepoStats repo]) ++ [Delay 2000])
                   ++ [CallRepoStats repo])
                  (((l2 ++ [CallRepoStats repo]) ++ [Delay 1500])
                   ++ [CallRepoStats repo])
                  eq_refl R2) as (o & Hs & Hp & Ho).
      exists o. do 2 eexists.
      split; [exact Hs|]. split; [exact Hp|]. split; assumption.
    + destruct (same_reading_same_merge N2 u m repo (stats_calls repo l2)
                  (Returned (Raw.mkStats st2 b2))
                  (Returned (Raw.mkStats st2 b2))
                  (l1 ++ [CallRepoStats repo]) (l2 ++ [CallRepoStats repo])
                  (eq_sym E2) eq_refl) as (o & Hs & Hp & Ho).
      exists o. do 2 eexists.
      split; [exact Hs|]. split; [exact Hp|]. split; assumption.
  - symmetry in R1. apply reading_thrown in R1 as [Hst Hb].
    cbn [Raw.status Raw.data] in *. rewrite Hst. subst b1.
    exists (Threw e2). do 2 eexists.
    repeat split; try reflexivity; try assumption. discriminate.
  - apply reading_thrown in R1 as [Hst Hb].
    cbn [Raw.status Raw.data] in *. rewrite Hst. subst b2.
    exists (Returned None). do 2 eexists.
    repeat split; try reflexivity; try assumption. discriminate.
  - exists (Threw e2). do 2 eexists.
    repeat split; try reflexivity; try assumption. discriminate.
Qed.

Lemma raw_loop_matches_tasks N1 N2 u repos :
  same_readings N1 N2 ->
  forall m l1 l2,
    calls_only l1 = calls_only l2 ->
    exists l1',
      for_of repos (Raw.Sequential.repo_body N1 u) m l1
      = (Returned
           (fold_left merge_caught
              (fst (Parallel.settle_all
                      (List.map (Raw.Parallel.fetchOneRepo N2 u) repos) l2))
              m),
         l1') /\
      Forall (raw_from_network N2)
        (fst (Parallel.settle_all
                (List.map (Raw.Parallel.fetchOneRepo N2 u) repos) l2)).
Proof.
  intros HN.
  induction repos as [|repo repos IH]; intros m l1 l2 Hc; simpl.
  - unfold ret. eauto.
  - unfold bind.
    destruct (raw_body_matches_task N1 N2 u m repo l1 l2 HN Hc)
      as (o & l1' & l2' & -> & -> & Hc' & Ho).
    destruct (IH (merge_caught m o) l1' l2' Hc') as (l1'' & -> & Hos).
    destruct (Parallel.settle_all _ l2') as [os l2'']. simpl in *.
    eexists. split; [reflexivity|]. now constructor.
Qed.

Lemma network_results_iterable N rs :
  network_weeks_iterable N ->
  Forall (raw_from_network N) rs -> Forall result_iterable rs.
Proof.
  intros HN Hrs. eapply Forall_impl; [exact Hrs|]. intros r Hr cb E.
  destruct (Hr cb E) as (repo & n & st & cs & Hw & Hin). eapply HN; eauto.
Qed.

(** X4. When the statistics calls of the two revisions read alike, call by
    call (the same status-202 signal and the same list; a rejected call and
    an answer without a list count alike), and every contributor entry has
    a [weeks] array without [null] elements, the sequential and the
    concurrent revision of [fetchLoc] come to the same end: the same series,
    or the same error. *)
Theorem revisions_agree N1 N2 username include_orgs log :
  same_readings N1 N2 ->
  network_weeks_iterable N2 ->
  fst (Raw.Sequential.fetchLoc N1 username include_orgs log)
  = fst (Raw.Parallel.fetchLoc N2 username include_orgs log).
Proof.
  intros HN Hit. unfold Raw.Sequential.fetchLoc, Raw.Parallel.fetchLoc.
  destruct (falsy username); [reflexivity|].
  unfold bind.
  assert (El : Raw.listings N1 = Raw.listings N2).
  { destruct HN as (Eu & Eo & _). unfold Raw.listings. now rewrite Eu, Eo. }
  rewrite El.
  destruct (discover_returns (Raw.listings N2) (default "" username)
              include_orgs log) as (repos & log1 & ->).
  destruct (raw_loop_matches_tasks N1 N2 (default "" username) repos HN
              ∅ log1 log1 eq_refl) as (l1' & -> & Hos).
  unfold Parallel.allSettled.
  destruct (Parallel.settle_all _ log1) as [os l2']. simpl in *.
  rewrite (raw_mergeResults_iterable os
             (network_results_iterable N2 os Hit Hos)).
  reflexivity.
Qed.

Lemma ex_network_iterable : network_weeks_iterable ex_network.
Proof.
  intros repo n st cs cb Hw Hcb. simpl in Hw. unfold ex_stats in Hw.
  destruct (String.eqb (name repo) "one");
    [destruct n|destruct (String.eqb (name repo) "two")];
    inversion Hw; subst; clear Hw; simpl in Hcb;
    repeat (destruct Hcb as [[= <-]|Hcb]); try contradiction;
    eexists; (split; [reflexivity|]); repeat constructor; discriminate.
Qed.

Lemma ex_networks_read_alike : same_readings ex_network_rejecting ex_network.
Proof.
  split; [reflexivity|]. split; [reflexivity|].
  intros repo n. simpl. unfold ex_stats.
  destruct (String.eqb (name repo) "one"); [reflexivity|].
  destruct (String.eqb (name repo) "two"); reflexivity.
Qed.

Lemma revisions_agree_witness :
  fst (Raw.Sequential.fetchLoc ex_network_rejecting (Some "octo") None [])
  = fst (Raw.Parallel.fetchLoc ex_network (Some "octo") None []).
Proof.
  apply (revisions_agree ex_network_rejecting ex_network).
  - exact ex_networks_read_alike.
  - exact ex_network_iterable.
Defined.

(** * The engine's bound on call arguments *)

Lemma cumulate_length ws : forall c0, length (cumulate c0 ws) = length ws.
Proof. induction ws as [|wk ws IH]; intros c0; simpl; auto. Qed.

Lemma spread_max_over arg_limit xs x0 :
  arg_limit <= Z.of_nat (length xs) ->
  Engine.spread_max arg_limit xs x0 = Threw RangeError.
Proof.
  intros H. unfold Engine.spread_max.
  destruct (arg_limit <? Z.of_nat (length xs) + 1) eqn:E; [reflexivity|lia].
Qed.

Lemma spread_below arg_limit xs x0 :
  Z.of_nat (length xs) < arg_limit ->
  Engine.spread_max arg_limit xs x0 = Returned (Math_max xs x0) /\
  Engine.spread_min arg_limit xs x0 = Returned (Math_min xs x0).
Proof.
  intros H. unfold Engine.spread_max, Engine.spread_min.
  destruct (arg_limit <? Z.of_nat (length xs) + 1) eqn:E; [lia|auto].
Qed.

Lemma engine_computeScale_over arg_limit pts :
  pts <> [] ->
  arg_limit <= Z.of_nat (length pts) ->
  Engine.computeScale arg_limit pts = Threw RangeError.
Proof.
  intros Hne Hlen. unfold Engine.computeScale.
  destruct (computeScale_returns pts Hne) as (sc & Hsc & _).
  unfold computeScale in Hsc.
  destruct (week_at pts 0); [|discriminate].
  destruct (week_at pts (length pts - 1)); [|discriminate].
  rewrite spread_max_over; [reflexivity|]. now rewrite length_map.
Qed.

(** Below the bound the engine plays no part: the renderers are the ones
    embedded without it. *)
Lemma engine_computeScale_below arg_limit pts :
  Z.of_nat (length pts) < arg_limit ->
  Engine.computeScale arg_limit pts = computeScale pts.
Proof.
  intros Hlen. unfold Engine.computeScale, computeScale.
  destruct (week_at pts 0); [|reflexivity].
  destruct (week_at pts (length pts - 1)); [|reflexivity].
  destruct (spread_below arg_limit (List.map value pts) 0) as [-> ->];
    [now rewrite length_map|reflexivity].
Qed.

Lemma visible_length now months allPoints :
  (length (Windowed.visible now months allPoints) <= length allPoints)%nat.
Proof.
  unfold Windowed.visible.
  destruct (Windowed.months_set months) as [m|]; [|lia].
  destruct (length (List.filter (Windowed.in_window now m) allPoints) =? 0)%nat;
    [lia|apply List.filter_length_le].
Qed.

Lemma engine_agrees_below_bound arg_limit data :
  Z.of_nat (length (weeklyData data)) < arg_limit ->
  (forall options,
     Engine.Cumulative.renderLocChart arg_limit data options
     = Cumulative.renderLocChart data options) /\
  (forall colors now options,
     Engine.Windowed.renderLocChart arg_limit colors now data options
     = Windowed.renderLocChart colors now data options).
Proof.
  intros Hlen. split; intros.
  - unfold Engine.Cumulative.renderLocChart, Cumulative.renderLocChart.
    rewrite engine_computeScale_below; [reflexivity|].
    now rewrite cumulate_length.
  - unfold Engine.Windowed.renderLocChart, Windowed.renderLocChart.
    rewrite engine_computeScale_below; [reflexivity|].
    pose proof (visible_length now (Windowed.months options)
                  (cumulate 0 (weeklyData data))) as Hv.
    rewrite cumulate_length in Hv. lia.
Qed.

(** Below the bound the cumulative renderers hand back the fixed no-data
    image for an empty series and otherwise a scale whose two ranges are
    not zero; the bar renderer does so while the visible months stay below
    the bound. *)
Lemma short_series_scale arg_limit data :
  Z.of_nat (length (weeklyData data)) < arg_limit ->
  (forall options, exists r,
     Engine.Cumulative.renderLocChart arg_limit data options = Returned r /\
     cumulative_result data
       (default "0D1117" (Cumulative.bg_color options))
       (default "E6EDF3" (Cumulative.text_color options)) r) /\
  (forall colors now options, exists r,
     Engine.Windowed.renderLocChart arg_limit colors now data options
       = Returned r /\
     cumulative_result data (Windowed.bg_of colors)
       (strip_hash (Windowed.textColor colors)) r) /\
  (forall calendar colors options,
     Z.of_nat
       (length
          (Monthly.visibleMonths calendar (Windowed.months options)
             (weeklyData data))) < arg_limit ->
     exists r,
       Engine.Monthly.renderLocChart arg_limit calendar colors data options
         = Returned r /\
       bars_result data (Windowed.bg_of colors)
         (strip_hash (Windowed.textColor colors)) r).
Proof.
  intros Hlen.
  destruct (engine_agrees_below_bound arg_limit data Hlen) as [Ec Ew].
  split; [|split].
  - intros options. rewrite Ec. apply cumulative_render_returns.
  - intros colors now options. rewrite Ew. apply windowed_render_returns.
  - intros calendar colors options Hm.
    destruct (monthly_render_returns calendar colors data options)
      as (r & Hr & Hres).
    exists r. split; [|exact Hres]. rewrite <- Hr.
    unfold Engine.Monthly.renderLocChart, Monthly.renderLocChart.
    destruct (length (weeklyData data) =? 0)%nat; [reflexivity|].
    destruct (length (Monthly.visibleMonths calendar _ _) =? 0)%nat;
      [reflexivity|].
    unfold Engine.Monthly.scaleBars.
    destruct (spread_below arg_limit
                (List.map Monthly.m_additions
                   (Monthly.visibleMonths calendar (Windowed.months options)
                      (weeklyData data))) 1) as [-> _];
      [now rewrite length_map|].
    destruct (spread_below arg_limit
                (List.map Monthly.m_deletions
                   (Monthly.visibleMonths calendar (Windowed.months options)
                      (weeklyData data))) 1) as [-> _];
      [now rewrite length_map|].
    reflexivity.
Qed.

(** C4. The renderers raise on a long series.  [Math.max(...points.map((p)
    => p.value), 0)] passes one argument per plotted point; once the series
    has at least as many records as the engine accepts arguments in a call,
    the cumulative renderers raise a [RangeError] from that line (the
    windowed ones whenever that many points are visible), and so does the
    bar renderer once the visible months are that many. *)
Theorem long_series_raises_RangeError arg_limit data :
  weeklyData data <> [] ->
  arg_limit <= Z.of_nat (length (weeklyData data)) ->
  (forall options,
     Engine.Cumulative.renderLocChart arg_limit data options
     = Threw RangeError) /\
  (forall colors now hide title,
     Engine.Windowed.renderLocChart arg_limit colors now data
       (Windowed.mkOptions None hide title)
     = Threw RangeError) /\
  (forall colors now options,
     arg_limit
       <= Z.of_nat
            (length
               (Windowed.visible now (Windowed.months options)
                  (cumulate 0 (weeklyData data)))) ->
     Engine.Windowed.renderLocChart arg_limit colors now data options
     = Threw RangeError) /\
  (forall calendar colors options,
     arg_limit
       <= Z.of_nat
            (length
               (Monthly.visibleMonths calendar (Windowed.months options)
                  (weeklyData data))) ->
     Engine.Monthly.renderLocChart arg_limit calendar colors data options
     = Threw RangeError \/
     Monthly.visibleMonths calendar (Windowed.months options)
       (weeklyData data) = []).
Proof.
  intros Hne Hlen.
  assert (E0 : (length (weeklyData data) =? 0)%nat = false).
  { destruct (weeklyData data); [contradiction|reflexivity]. }
  assert (Hw : forall colors now options,
             arg_limit
               <= Z.of_nat
                    (length
                       (Windowed.visible now (Windowed.months options)
                          (cumulate 0 (weeklyData data)))) ->
             Engine.Windowed.renderLocChart arg_limit colors now data options
             = Threw RangeError).
  { intros colors now options Hv.
    unfold Engine.Windowed.renderLocChart. rewrite E0.
    rewrite engine_computeScale_over; [reflexivity| |exact Hv].
    now apply visible_nonempty, cumulate_nonempty. }
  split; [|split; [|split]].
  - intros options. unfold Engine.Cumulative.renderLocChart. rewrite E0.
    rewrite engine_computeScale_over; [reflexivity| |].
    + now apply cumulate_nonempty.
    + now rewrite cumulate_length.
  - intros colors now hide title. apply Hw.
    change (Windowed.visible now
              (Windowed.months (Windowed.mkOptions None hide title))
              (cumulate 0 (weeklyData data)))
      with (cumulate 0 (weeklyData data)).
    now rewrite cumulate_length.
  - exact Hw.
  - intros calendar colors options Hm.
    unfold Engine.Monthly.renderLocChart. rewrite E0.
    destruct (Monthly.visibleMonths calendar (Windowed.months options)
                (weeklyData data)) as [|e md] eqn:Emd; [now right|left].
    cbn [length Nat.eqb]. unfold Engine.Monthly.scaleBars.
    rewrite spread_max_over; [reflexivity|]. now rewrite length_map.
Qed.

Lemma ex_long_series_length :
  length (weeklyData ex_long_series) = Z.to_nat 130000.
Proof.
  unfold ex_long_series, weeklyData. now rewrite length_map, length_seq.
Qed.

Lemma long_series_raises_RangeError_witness :
  (forall options,
     Engine.Cumulative.renderLocChart 65536 ex_long_series options
     = Threw RangeError) /\
  (forall colors now hide title,
     Engine.Windowed.renderLocChart 65536 colors now ex_long_series
       (Windowed.mkOptions None hide title)
     = Threw RangeError) /\
  (forall colors now options,
     65536
       <= Z.of_nat
            (length
               (Windowed.visible now (Windowed.months options)
                  (cumulate 0 (weeklyData ex_long_series)))) ->
     Engine.Windowed.renderLocChart 65536 colors now ex_long_series options
     = Threw RangeError) /\
  (forall calendar colors options,
     65536
       <= Z.of_nat
            (length
               (Monthly.visibleMonths calendar (Windowed.months options)
                  (weeklyData ex_long_series))) ->
     Engine.Monthly.renderLocChart 65536 calendar colors ex_long_series options
     = Threw RangeError \/
     Monthly.visibleMonths calendar (Windowed.months options)
       (weeklyData ex_long_series) = []).
Proof.
  apply (long_series_raises_RangeError 65536 ex_long_series).
  - intros E. apply (f_equal (@length _)) in E.
    rewrite ex_long_series_length in E. cbn [length] in E. lia.
  - rewrite ex_long_series_length. lia.
Defined.

(** * Payloads of the documented shape

    On payloads in which every property is present, the statements embedded
    over payloads as they arrive compute what the typed embedding computes:
    the properties proved of [Sequential.fetchLoc] and [Parallel.fetchLoc]
    are properties of the code on such payloads. *)

Lemma embed_lookup m k : embed_map m !! Some k = embed_slot <$> m !! k.
Proof. unfold embed_map. rewrite lookup_kmap by apply _. apply lookup_fmap. Qed.

Lemma embed_lookup_undefined m : embed_map m !! None = None.
Proof.
  unfold embed_map. apply lookup_kmap_None; [apply _|]. intros i [=].
Qed.

Lemma embed_all_zero wk : Raw.all_zero (embed_week wk) = all_zero wk.
Proof.
  unfold Raw.all_zero, all_zero, embed_week. simpl.
  destruct (a wk), (d wk), (c wk); reflexivity.
Qed.

Lemma embed_alter g h k m :
  (forall s, embed_slot (g s) = h (embed_slot s)) ->
  embed_map (alter g k m) = alter h (Some k) (embed_map m).
Proof.
  intros Hgh. unfold embed_map.
  rewrite (fmap_alter embed_slot g h) by (intros; apply Hgh).
  apply kmap_alter, _.
Qed.

Lemma embed_addWeek m wk :
  Raw.addWeek (embed_map m) (embed_week wk) = embed_map (addWeek m wk).
Proof.
  unfold Raw.addWeek, addWeek. rewrite embed_all_zero.
  destruct (all_zero wk); [reflexivity|].
  cbn [Raw.w Raw.a Raw.d Raw.c embed_week].
  rewrite embed_lookup.
  rewrite !(embed_alter _ (Raw.add_c (Some (c wk)))),
    !(embed_alter _ (Raw.add_d (Some (d wk)))),
    !(embed_alter _ (Raw.add_a (Some (a wk)))) by (intros []; reflexivity).
  destruct (m !! w wk) as [s|]; simpl; [reflexivity|].
  do 3 f_equal. unfold embed_map.
  rewrite fmap_insert, kmap_insert by apply _. reflexivity.
Qed.

Lemma embed_mergeWeeks wks : forall m,
  Raw.mergeWeeks (embed_map m) (List.map (fun wk => Some (embed_week wk)) wks)
  = (embed_map (addWeeks m wks), None).
Proof.
  unfold addWeeks. induction wks as [|wk wks IH]; intros m; simpl.
  - reflexivity.
  - now rewrite embed_addWeek, IH.
Qed.

Lemma embed_find u cs :
  Raw.find u (List.map (fun cb => Some (embed_contributor cb)) cs)
  = Returned (option_map embed_contributor (List.find (is_user u) cs)).
Proof.
  induction cs as [|cb cs IH]; simpl; [reflexivity|].
  unfold is_user at 1. destruct (author cb) as [login|]; simpl.
  - destruct (String.eqb (toLowerCase login) (toLowerCase u));
      [reflexivity|exact IH].
  - exact IH.
Qed.

Lemma embed_merge_result m r :
  merge_caught (embed_map m) (map_outcome (option_map embed_contributor) r)
  = embed_map (merge_result m r).
Proof.
  destruct r as [[cb|]|e]; simpl; try reflexivity.
  now rewrite embed_mergeWeeks.
Qed.

Lemma embed_fetchOneRepo W u repo log :
  Raw.Parallel.fetchOneRepo (embed_network W) u repo log
  = (map_outcome (option_map embed_contributor)
       (fst (Parallel.fetchOneRepo W u repo log)),
     snd (Parallel.fetchOneRepo W u repo log)).
Proof.
  unfold Raw.Parallel.fetchOneRepo, Parallel.fetchOneRepo, Raw.call_stats.
  run. cbn [Raw.repo_stats embed_network].
  destruct (repoStats W repo (stats_calls repo log)) as [[st1 b1]|e]; simpl;
    [|reflexivity].
  destruct (st1 =? 202); simpl.
  - match goal with |- context [repoStats W repo ?n] =>
      destruct (repoStats W repo n) as [[st2 [|cs]]|e] end; simpl;
      try reflexivity.
    now rewrite embed_find.
  - destruct b1 as [|cs]; simpl; [reflexivity|]. now rewrite embed_find.
Qed.

Lemma embed_repo_body W u m repo log :
  Raw.Sequential.repo_body (embed_network W) u (embed_map m) repo log
  = (map_outcome embed_map (fst (Sequential.repo_body W u m repo log)),
     snd (Sequential.repo_body W u m repo log)).
Proof.
  unfold Raw.Sequential.repo_body, Sequential.repo_body, Raw.call_stats.
  run. cbn [Raw.repo_stats embed_network].
  destruct (repoStats W repo (stats_calls repo log)) as [[st1 b1]|e]; simpl;
    [|reflexivity].
  destruct (st1 =? 202); simpl.
  - match goal with |- context [repoStats W repo ?n] =>
      destruct (repoStats W repo n) as [[st2 [|cs]]|e] end; simpl;
      try reflexivity.
    rewrite embed_find. destruct (List.find (is_user u) cs); simpl;
      [|reflexivity].
    now rewrite embed_mergeWeeks.
  - destruct b1 as [|cs]; simpl; [reflexivity|].
    rewrite embed_find. destruct (List.find (is_user u) cs); simpl;
      [|reflexivity].
    now rewrite embed_mergeWeeks.
Qed.

Lemma embed_loop W u repos : forall m log,
  for_of repos (Raw.Sequential.repo_body (embed_network W) u) (embed_map m) log
  = (map_outcome embed_map
       (fst (for_of repos (Sequential.repo_body W u) m log)),
     snd (for_of repos (Sequential.repo_body W u) m log)).
Proof.
  induction repos as [|repo repos IH]; intros m log; simpl; [reflexivity|].
  unfold bind. rewrite embed_repo_body.
  destruct (Sequential.repo_body W u m repo log) as [[m1|e] l1]; simpl;
    [apply IH|reflexivity].
Qed.

Lemma embed_settle_all W u repos : forall log,
  Parallel.settle_all
    (List.map (Raw.Parallel.fetchOneRepo (embed_network W) u) repos) log
  = (List.map (map_outcome (option_map embed_contributor))
       (fst (Parallel.settle_all
               (List.map (Parallel.fetchOneRepo W u) repos) log)),
     snd (Parallel.settle_all
            (List.map (Parallel.fetchOneRepo W u) repos) log)).
Proof.
  induction repos as [|repo repos IH]; intros log; simpl; [reflexivity|].
  rewrite embed_fetchOneRepo.
  destruct (Parallel.fetchOneRepo W u repo log) as [o l1]. simpl.
  rewrite IH.
  destruct (Parallel.settle_all _ l1) as [os l2]. reflexivity.
Qed.

Lemma embed_mergeResults rs : forall m,
  Raw.Parallel.mergeResults (embed_map m)
    (List.map (map_outcome (option_map embed_contributor)) rs)
  = Returned (embed_map (fold_left merge_result rs m)).
Proof.
  induction rs as [|r rs IH]; intros m; simpl; [reflexivity|].
  destruct r as [[cb|]|e]; simpl; try apply IH.
  rewrite embed_mergeWeeks. apply IH.
Qed.

(** The keys of an embedded map, sorted. *)
Lemma compare_le_total : Total Raw.compare_le.
Proof.
  intros [p|] [q|]; simpl; auto. destruct (Z.le_ge_cases p q); auto.
Qed.

Lemma compare_le_strong l :
  Forall is_Some l -> Sorted Raw.compare_le l ->
  StronglySorted Raw.compare_le l.
Proof.
  intros Hall Hs. induction Hs as [|x l Hs IH Hx]; constructor.
  - apply IH. now apply Forall_inv_tail in Hall.
  - apply Forall_cons in Hall as [[p ->] Hl]. specialize (IH Hl).
    destruct Hx as [|y l Hxy]; constructor; [exact Hxy|].
    apply Forall_cons in Hl as [[q ->] Hl].
    apply StronglySorted_inv in IH as [_ Hy].
    rewrite Forall_forall in *. intros z Hz.
    destruct (Hl z Hz) as [r ->]. specialize (Hy _ Hz). simpl in *. lia.
Qed.

Lemma embed_keys_perm m :
  Raw.Object_keys (embed_map m) ≡ₚ List.map Some (Object_keys m).
Proof.
  unfold Raw.Object_keys, Object_keys, embed_map.
  rewrite (map_to_list_kmap Some), map_to_list_fmap.
  assert (E : (prod_map Some id
                 <$> (prod_map id embed_slot <$> map_to_list m)).*1
              = List.map Some (map_to_list m).*1).
  { induction (map_to_list m) as [|[k s] l IH]; simpl; [reflexivity|].
    f_equal. exact IH. }
  now rewrite E.
Qed.

Lemma embed_sorted_keys m :
  Raw.sort_numeric (Raw.Object_keys (embed_map m))
  = List.map Some (sort_numeric (Object_keys m)).
Proof.
  assert (Hperm : Raw.sort_numeric (Raw.Object_keys (embed_map m))
                  ≡ₚ List.map Some (sort_numeric (Object_keys m))).
  { unfold Raw.sort_numeric, sort_numeric.
    rewrite merge_sort_Permutation, embed_keys_perm.
    apply Permutation_map. symmetry. apply merge_sort_Permutation. }
  assert (Hall : Forall is_Some (List.map Some (sort_numeric (Object_keys m)))).
  { apply Forall_forall. intros x Hx.
    apply list_elem_of_In, in_map_iff in Hx as (k & <- & _). eauto. }
  apply (StronglySorted_unique_strong Raw.compare_le); [| | |exact Hperm].
  - intros x1 x2 H1 H2 L12 L21.
    rewrite Forall_forall in Hall.
    destruct (Hall x2 H2) as [q ->].
    rewrite Hperm in H1. destruct (Hall x1 H1) as [p ->].
    simpl in *. f_equal. lia.
  - apply compare_le_strong.
    + now rewrite Hperm.
    + apply Sorted_merge_sort, compare_le_total.
  - apply (StronglySorted_fmap Some Z.le); [now intros|].
    apply StronglySorted_merge_sort; apply _.
Qed.

Lemma embed_build_weeks m ks : forall t,
  Raw.build_weeks (embed_map m) (List.map Some ks) (embed_totals t)
  = map_outcome embed_totals (build_weeks m ks t).
Proof.
  induction ks as [|k ks IH]; intros t; simpl; [reflexivity|].
  unfold Raw.build_step, build_step. rewrite embed_lookup.
  destruct (m !! k) as [s|]; simpl; [|reflexivity].
  rewrite <- IH. f_equal. unfold embed_totals. simpl.
  now rewrite map_app.
Qed.

Lemma embed_buildLocData m :
  Raw.buildLocData (embed_map m) = map_outcome embed_series (buildLocData m).
Proof.
  unfold Raw.buildLocData, buildLocData.
  rewrite embed_sorted_keys.
  change (Raw.mkTotals (Some 0) (Some 0) (Some 0) [])
    with (embed_totals (mkTotals 0 0 0 [])).
  rewrite embed_build_weeks.
  destruct (build_weeks m (sort_numeric (Object_keys m)) (mkTotals 0 0 0 []))
    as [t|e]; reflexivity.
Qed.

Lemma embed_empty : embed_map ∅ = ∅.
Proof. unfold embed_map. rewrite fmap_empty. apply kmap_empty. Qed.

(** On payloads of the documented shape both embeddings of each revision
    run alike: same log, same error or the same series. *)
Lemma documented_payloads_run_alike W username include_orgs log :
  Raw.Sequential.fetchLoc (embed_network W) username include_orgs log
  = (map_outcome embed_series
       (fst (Sequential.fetchLoc W username include_orgs log)),
     snd (Sequential.fetchLoc W username include_orgs log)) /\
  Raw.Parallel.fetchLoc (embed_network W) username include_orgs log
  = (map_outcome embed_series
       (fst (Parallel.fetchLoc W username include_orgs log)),
     snd (Parallel.fetchLoc W username include_orgs log)).
Proof.
  unfold Raw.Sequential.fetchLoc, Raw.Parallel.fetchLoc,
    Sequential.fetchLoc, Parallel.fetchLoc.
  destruct (falsy username); [split; reflexivity|].
  unfold bind.
  change (discover (Raw.listings (embed_network W)))
    with (discover W).
  destruct (discover W (default "" username) include_orgs log)
    as [[repos|e] log1]; [|split; reflexivity].
  split.
  - rewrite <- embed_empty, embed_loop.
    destruct (for_of repos _ ∅ log1) as [[m|e] log2]; simpl;
      [|reflexivity].
    unfold settle. now rewrite embed_buildLocData.
  - unfold Parallel.allSettled. rewrite embed_settle_all.
    destruct (Parallel.settle_all _ log1) as [os log2]. simpl.
    unfold settle, aggregate.
    rewrite <- embed_empty, embed_mergeResults.
    now rewrite embed_buildLocData.
Qed.
